(** * Aggregate operations for word-embedding training (libnd4j)

    A shallow embedding of [include/aggregate_ops.h]: the sequential
    [executeAggregate] paths of the [HierarchicSoftmax] and
    [NegativeSampling] kernels, of [Dot] and [Axpy], and of the
    [SkipGram] and [CBOW] orchestrators, together with the device path of
    [Axpy] as one thread of a block runs it, followed by the properties
    established about them.  The other device paths share variables
    between the threads of a block and are not embedded.

    Conventions of the embedding.
    - The template parameter [T] is taken to be the exact rationals [Qc]:
      arithmetic is exact, rounding is not modelled.  Which bucket of
      [expTable] a kernel reads, and on which side of a guard a dot
      product falls, is therefore stated for exact arithmetic only; the
      module [Binary32] embeds the two kernels a second time, in
      [T = float], to show where the instance the library is built with
      takes another bucket.
    - The loops marked [#pragma omp simd] run their iterations in order,
      one after the other.  For rows where an iteration reads a cell that
      an earlier one wrote, the pragma allows another result; statements
      about such rows are about the loop without the pragma.
    - The arrays of pointers and of [int] that [SkipGram] and [CBOW]
      build for the kernels ([args], [idxArgs]) are lists of the
      embedding, not blocks of the heap: the heap holds the buffers of
      [T] only, and nothing is stated about the allocation or the release
      of those arrays.
    - [int] values are integers of [Z]; signed overflow, a conversion of
      a real outside the target range, a division by zero and an array
      access outside its buffer are undefined behaviour in the source and
      make the embedded computation fail ([None]).
    - [unsigned long long] values are integers of [Z] reduced modulo
      [2^64] after every operation.
    - Buffers of [T] live in a heap of blocks; a [T*] is a block together
      with an offset, so that two arguments may alias.
    - Every kernel entry is recorded in a call log.  The log is ghost
      state: no source statement reads it; it only lets the sequence of
      kernel invocations be stated.
    - The strided loop of a device thread takes a bound on its number of
      iterations (fuel) and fails when the bound is reached; the
      properties of the device path state how much fuel is enough. *)

From Stdlib Require Import ZArith QArith Qcanon Qround Lia.
From Stdlib Require SpecFloat.
From stdpp Require Import base list option numbers.

#[local] Set Warnings "-clear-no-such-hyp".

Open Scope Z_scope.

(** ** Scalars *)

(** [#define HS_MAX_EXP 6.0f] *)
Definition HS_MAX_EXP : Qc := Qc_of_Z 6.

(** Conversion of a real to an integer type truncates toward zero. *)
Definition Qtrunc (q : Qc) : Z := Z.quot (Qnum q) (Zpos (Qden q)).

(** ** Machine integers *)

Definition INT_MIN : Z := - 2 ^ 31.
Definition INT_MAX : Z := 2 ^ 31 - 1.

Definition int_range (z : Z) : bool := (INT_MIN <=? z) && (z <=? INT_MAX).

(** Wrap-around of [unsigned long long]. *)
Definition u64 (z : Z) : Z := z mod 2 ^ 64.

(** Conversion of an [unsigned long long] to [int] keeps the low 32 bits. *)
Definition to_int32 (z : Z) : Z := (z + 2 ^ 31) mod 2 ^ 32 - 2 ^ 31.

(** ** Heap, pointers and the call log *)

Record ptr := Ptr { blk : nat; ofs : Z }.

Definition ptr_add (p : ptr) (k : Z) : ptr := Ptr (blk p) (ofs p + k).

Inductive kernel := HS | NS.

Record call := Call {
  call_kernel : kernel;
  call_args : list ptr;
  call_idx : list Z
}.

(** A block is [Some data] while allocated and [None] once deleted. *)
Abbreviation heap_t := (list (option (list Qc))).

Record state := State { heap : heap_t; calls : list call }.

Definition cell (h : heap_t) (p : ptr) (i : Z) : option Qc :=
  if bool_decide (0 <= ofs p + i) then
    match h !! blk p with
    | Some (Some d) => d !! Z.to_nat (ofs p + i)
    | _ => None
    end
  else None.

Definition set_cell (h : heap_t) (p : ptr) (i : Z) (v : Qc) : option heap_t :=
  if bool_decide (0 <= ofs p + i) then
    match h !! blk p with
    | Some (Some d) =>
        if bool_decide (Z.to_nat (ofs p + i) < length d)%nat
        then Some (<[blk p := Some (<[Z.to_nat (ofs p + i) := v]> d)]> h)
        else None
    | _ => None
    end
  else None.

(** ** The monad of the embedding: state and failure *)

Definition M (A : Type) : Type := state -> option (A * state).

Definition ret {A} (a : A) : M A := fun s => Some (a, s).

Definition bind {A B} (c : M A) (k : A -> M B) : M B :=
  fun s => match c s with
           | Some (a, s') => k a s'
           | None => None
           end.

Definition fail {A} : M A := fun _ => None.

Definition lift {A} (o : option A) : M A :=
  fun s => match o with Some a => Some (a, s) | None => None end.

Declare Scope m_scope.
Delimit Scope m_scope with M.
Notation "x <- y ;; z" := (bind y (fun x => z))
  (at level 20, y at level 99, z at level 200, only parsing) : m_scope.
Notation "' x <- y ;; z" := (bind y (fun x => z))
  (at level 20, x pattern, y at level 99, z at level 200, only parsing) : m_scope.
Notation "x ;; z" := (bind x (fun _ => z))
  (at level 100, z at level 200, only parsing, right associativity) : m_scope.
Open Scope m_scope.

Definition load (p : ptr) (i : Z) : M Qc :=
  fun s => match cell (heap s) p i with
           | Some v => Some (v, s)
           | None => None
           end.

Definition store (p : ptr) (i : Z) (v : Qc) : M unit :=
  fun s => match set_cell (heap s) p i v with
           | Some h => Some (tt, State h (calls s))
           | None => None
           end.

(** [new T[n]] followed by [std::memset(_, 0, sizeof(T) * n)]. *)
Definition new_zeroed (n : Z) : M ptr :=
  fun s => if bool_decide (0 <= n)
           then Some (Ptr (length (heap s)) 0,
                      State (heap s ++ [Some (replicate (Z.to_nat n) 0%Qc)])
                            (calls s))
           else None.

(** [delete[] p] *)
Definition delete (p : ptr) : M unit :=
  fun s => match heap s !! blk p with
           | Some (Some _) =>
               if bool_decide (ofs p = 0)
               then Some (tt, State (<[blk p := None]> (heap s)) (calls s))
               else None
           | _ => None
           end.

Definition log_call (c : call) : M unit :=
  fun s => Some (tt, State (heap s) (calls s ++ [c])).

(** Checked [int] arithmetic. *)
Definition checked (z : Z) : M Z := if int_range z then ret z else fail.
Definition iadd (a b : Z) : M Z := checked (a + b).
Definition isub (a b : Z) : M Z := checked (a - b).
Definition imul (a b : Z) : M Z := checked (a * b).

(** [(int) x] *)
Definition to_int (x : Qc) : M Z := checked (Qtrunc x).

(** [(unsigned long long) x] *)
Definition to_u64 (x : Qc) : M Z :=
  if bool_decide (0 <= Qtrunc x < 2 ^ 64) then ret (Qtrunc x) else fail.

(** [a % b] on [unsigned long long] *)
Definition umod (a b : Z) : M Z := if bool_decide (b = 0) then fail else ret (a mod b).

(** [x / y] on reals *)
Definition fdiv (x y : Qc) : M Qc :=
  if bool_decide (y = 0%Qc) then fail else ret (x / y)%Qc.

(** [for (int x = 0; x < hi; x++) body], threading the variables the body
    assigns. *)
Fixpoint for_from {St} (n : nat) (i : Z) (body : Z -> St -> M St) (s : St)
    : M St :=
  match n with
  | O => ret s
  | S n' => s' <- body i s ;; for_from n' (i + 1) body s'
  end.

Definition for_ {St} (hi : Z) (body : Z -> St -> M St) (s : St) : M St :=
  for_from (Z.to_nat hi) 0 body s.

(** [p[i]] for an array of integers or of pointers held in a local. *)
Definition at_ {A} (l : list A) (i : Z) : M A :=
  if bool_decide (0 <= i) then lift (l !! Z.to_nat i) else fail.

(** The three loops every kernel is made of. *)

(** [for (x...) dot += a[x] * b[x];] *)
Definition dot_loop (a b : ptr) (vectorLength : Z) : M Qc :=
  for_ vectorLength
    (fun x dot => u <- load a x ;; v <- load b x ;; ret (dot + u * v)%Qc)
    0%Qc.

(** [for (x...) y[x] = f(x_[x], y[x]);], the iterations in order (the
    source marks the loop [#pragma omp simd]). *)
Definition update_loop (f : Qc -> Qc -> Qc) (x_ y : ptr) (vectorLength : Z)
    : M unit :=
  for_ vectorLength
    (fun x _ => u <- load x_ x ;; v <- load y x ;; store y x (f u v))
    tt.

(** [for (x...) y[x] = g * x_[x] + y[x];] *)
Definition axpy_loop (g : Qc) : ptr -> ptr -> Z -> M unit :=
  update_loop (fun u v => g * u + v)%Qc.

(** [for (x...) y[x] += x_[x];] *)
Definition add_loop : ptr -> ptr -> Z -> M unit :=
  update_loop (fun u v => v + u)%Qc.

(** [(dot + HS_MAX_EXP) * ((T) expLength / HS_MAX_EXP / 2.0)] *)
Definition exp_scaled (dot : Qc) (expLength : Z) : Qc :=
  ((dot + HS_MAX_EXP) * (Qc_of_Z expLength / HS_MAX_EXP / Qc_of_Z 2))%Qc.

(** [int idx = (int) ((dot + HS_MAX_EXP) * ((T) expLength / HS_MAX_EXP / 2.0))],
    in exact arithmetic; [Binary32.exp_index] is the same line in
    [T = float]. *)
Definition exp_index (dot : Qc) (expLength : Z) : M Z :=
  to_int (exp_scaled dot expLength).

(** ** HierarchicSoftmax<T>::executeAggregate (lines 37-83) *)
Module HierarchicSoftmax.

Definition executeAggregate (arguments : list ptr) (indexArguments : list Z)
    (intArrays : list (list Z)) (realArguments : list Qc) : M unit :=
  log_call (Call HS arguments indexArguments) ;;
  vectorLength <- at_ indexArguments 0 ;;
  expLength <- at_ indexArguments 1 ;;
  code <- at_ indexArguments 2 ;;
  syn0 <- at_ arguments 0 ;;
  syn1 <- at_ arguments 1 ;;
  expTable <- at_ arguments 2 ;;
  neu1e <- at_ arguments 3 ;;
  alpha <- at_ realArguments 0 ;;
  (* dot *)
  dot <- dot_loop syn0 syn1 vectorLength ;;
  (* gradient *)
  if bool_decide (dot < - HS_MAX_EXP)%Qc || bool_decide (HS_MAX_EXP <= dot)%Qc
  then ret tt
  else
    idx <- exp_index dot expLength ;;
    if bool_decide (expLength <= idx)
    then ret tt
    else
      f <- load expTable idx ;;
      c <- isub 1 code ;;
      let g := ((Qc_of_Z c - f) * alpha)%Qc in
      (* axpy1 *)
      axpy_loop g syn1 neu1e vectorLength ;;
      (* axpy2 *)
      axpy_loop g syn0 syn1 vectorLength.

End HierarchicSoftmax.

(** ** NegativeSampling<T>::executeAggregate (lines 164-210) *)
Module NegativeSampling.

(** Lines 184-194: the gradient scalar, or [None] where the source
    returns early. *)
Definition gradient (dot : Qc) (code expLength : Z) (expTable : ptr)
    (alpha : Qc) : M (option Qc) :=
  if bool_decide (HS_MAX_EXP < dot)%Qc then
    c <- isub code 1 ;; ret (Some (Qc_of_Z c * alpha)%Qc)
  else if bool_decide (dot < - HS_MAX_EXP)%Qc then
    c <- isub code 0 ;; ret (Some (Qc_of_Z c * alpha)%Qc)
  else
    idx <- exp_index dot expLength ;;
    if bool_decide (expLength <= idx)
    then ret None
    else
      f <- load expTable idx ;;
      ret (Some ((Qc_of_Z code - f) * alpha)%Qc).

Definition executeAggregate (arguments : list ptr) (indexArguments : list Z)
    (intArrays : list (list Z)) (realArguments : list Qc) : M unit :=
  log_call (Call NS arguments indexArguments) ;;
  vectorLength <- at_ indexArguments 0 ;;
  expLength <- at_ indexArguments 1 ;;
  code <- at_ indexArguments 2 ;;
  syn0 <- at_ arguments 0 ;;
  syn1Neg <- at_ arguments 1 ;;
  expTable <- at_ arguments 2 ;;
  neu1e <- at_ arguments 3 ;;
  alpha <- at_ realArguments 0 ;;
  (* dot *)
  dot <- dot_loop syn0 syn1Neg vectorLength ;;
  og <- gradient dot code expLength expTable alpha ;;
  match og with
  | None => ret tt
  | Some g =>
      (* axpy1 *)
      axpy_loop g syn1Neg neu1e vectorLength ;;
      (* axpy2 *)
      axpy_loop g syn0 syn1Neg vectorLength
  end.

End NegativeSampling.

(** ** The two kernels in [T = float]

    A second embedding of the kernels, for the instance [T = float] the
    library is built with: IEEE binary32 with rounding to nearest even,
    after [SpecFloat].  [HS_MAX_EXP] is the [float] literal [6.0f] and
    [2.0] a [double] literal, so that by the usual arithmetic conversions
    the bucket index is divided by [2.0] and multiplied in binary64.
    The rows are the contents of buffers that do not overlap, of
    [vectorLength] cells each; [None] is undefined behaviour. *)
Module Binary32.

Definition float : Type := SpecFloat.spec_float.

Definition add : float -> float -> float := SpecFloat.SFadd 24 128.
Definition sub : float -> float -> float := SpecFloat.SFsub 24 128.
Definition mul : float -> float -> float := SpecFloat.SFmul 24 128.
Definition div : float -> float -> float := SpecFloat.SFdiv 24 128.
Definition opp : float -> float := SpecFloat.SFopp.
Definition ltb : float -> float -> bool := SpecFloat.SFltb.
Definition leb : float -> float -> bool := SpecFloat.SFleb.

(** [(T) n] for an [int] [n] *)
Definition of_int (n : Z) : float := SpecFloat.binary_normalize 24 128 n 0 false.

(** A [float] as a [double]: the same number. *)
Definition to_double (x : float) : float :=
  match x with
  | SpecFloat.S754_finite s m e =>
      SpecFloat.binary_normalize 53 1024 (SpecFloat.cond_Zopp s (Zpos m)) e s
  | _ => x
  end.

Definition double_mul : float -> float -> float := SpecFloat.SFmul 53 1024.
Definition double_div : float -> float -> float := SpecFloat.SFdiv 53 1024.

(** [2.0] *)
Definition two : float := SpecFloat.binary_normalize 53 1024 2 0 false.

(** [(int) x]: the integral part of [x], undefined when it is not an
    [int]. *)
Definition to_int (x : float) : option Z :=
  match x with
  | SpecFloat.S754_zero _ => Some 0
  | SpecFloat.S754_finite s m e =>
      let z := SpecFloat.cond_Zopp s
                 (if bool_decide (0 <= e) then Zpos m * 2 ^ e
                  else Zpos m / 2 ^ (- e)) in
      if int_range z then Some z else None
  | _ => None
  end.


(** [#define HS_MAX_EXP 6.0f] *)
Definition HS_MAX_EXP : float := of_int 6.

(** [int idx = (int) ((dot + HS_MAX_EXP) * ((T) expLength / HS_MAX_EXP / 2.0))] *)
Definition exp_index (dot : float) (expLength : Z) : option Z :=
  to_int (double_mul (to_double (add dot HS_MAX_EXP))
            (double_div (to_double (div (of_int expLength) HS_MAX_EXP)) two)).

(** [for (x...) dot += a[x] * b[x];] from [(T) 0.0f] *)
Definition dot (a b : list float) : float :=
  foldl (fun d uv => add d (mul uv.1 uv.2)) (of_int 0) (zip a b).

(** [for (x...) y[x] = g * x_[x] + y[x];] *)
Definition axpy (g : float) (x_ y : list float) : list float :=
  zip_with (fun u v => add (mul g u) v) x_ y.

Definition checked_int (z : Z) : option Z :=
  if int_range z then Some z else None.

Definition table_at (expTable : list float) (idx : Z) : option float :=
  if bool_decide (0 <= idx) then expTable !! Z.to_nat idx else None.

(** Lines 37-83: the tree-node row and the accumulator the kernel
    leaves. *)
Definition HierarchicSoftmax (syn0 syn1 expTable neu1e : list float)
    (expLength code : Z) (alpha : float) : option (list float * list float) :=
  let dot := dot syn0 syn1 in
  if ltb dot (opp HS_MAX_EXP) || leb HS_MAX_EXP dot then Some (syn1, neu1e)
  else
    idx ← exp_index dot expLength;
    if bool_decide (expLength <= idx) then Some (syn1, neu1e)
    else
      f ← table_at expTable idx;
      c ← checked_int (1 - code);
      let g := mul (sub (of_int c) f) alpha in
      Some (axpy g syn0 syn1, axpy g syn1 neu1e).

(** Lines 164-210: the target row and the accumulator the kernel
    leaves. *)
Definition NegativeSampling (syn0 syn1Neg expTable neu1e : list float)
    (expLength code : Z) (alpha : float) : option (list float * list float) :=
  let dot := dot syn0 syn1Neg in
  og ← (if ltb HS_MAX_EXP dot then
          c ← checked_int (code - 1); Some (Some (mul (of_int c) alpha))
        else if ltb dot (opp HS_MAX_EXP) then
          c ← checked_int (code - 0); Some (Some (mul (of_int c) alpha))
        else
          idx ← exp_index dot expLength;
          if bool_decide (expLength <= idx) then Some None
          else
            f ← table_at expTable idx;
            Some (Some (mul (sub (of_int code) f) alpha)));
  match og with
  | None => Some (syn1Neg, neu1e)
  | Some g => Some (axpy g syn0 syn1Neg, axpy g syn1Neg neu1e)
  end.
End Binary32.

(** ** Dot<T>::executeAggregate (lines 300-315) *)
Module Dot.

Definition executeAggregate (arguments : list ptr) (indexArguments : list Z)
    (intArrays : list (list Z)) (realArguments : list Qc) : M unit :=
  vecX <- at_ arguments 0 ;;
  vecY <- at_ arguments 1 ;;
  vecZ <- at_ arguments 2 ;;
  vectorLength <- at_ indexArguments 0 ;;
  dot <- dot_loop vecX vecY vectorLength ;;
  store vecZ 0 dot.

End Dot.

(** ** Axpy<T> (lines 346-373) *)

(** [for (int x = threadIdx.x; x < hi; x += blockDim.x) body], the loop
    one thread of a block runs.  The increment is made in [unsigned int]
    and converted back to [int], which keeps the low 32 bits.  [fuel]
    bounds the number of tests of the condition; the loop fails when it
    runs out. *)
Fixpoint for_stride (fuel : nat) (x blockDim hi : Z) (body : Z -> M unit)
    : M unit :=
  match fuel with
  | O => fail
  | S fuel' =>
      if bool_decide (x < hi)
      then body x ;; for_stride fuel' (to_int32 (x + blockDim)) blockDim hi body
      else ret tt
  end.

Module Axpy.

(** Lines 346-358. *)
Definition executeAggregate (arguments : list ptr) (indexArguments : list Z)
    (intArrays : list (list Z)) (realArguments : list Qc) : M unit :=
  vecX <- at_ arguments 0 ;;
  vecY <- at_ arguments 1 ;;
  alpha <- at_ realArguments 0 ;;
  vectorLength <- at_ indexArguments 0 ;;
  axpy_loop alpha vecX vecY vectorLength.

(** Lines 361-373, as the thread [threadIdx] of a block of [blockDim]
    threads runs it; the barrier that ends it writes nothing. *)
Definition executeAggregateCuda (fuel : nat) (threadIdx blockDim : Z)
    (arguments : list ptr) (indexArguments : list Z)
    (intArrays : list (list Z)) (realArguments : list Qc) : M unit :=
  vecX <- at_ arguments 0 ;;
  vecY <- at_ arguments 1 ;;
  alpha <- at_ realArguments 0 ;;
  vectorLength <- at_ indexArguments 0 ;;
  for_stride fuel threadIdx blockDim vectorLength
    (fun x =>
       u <- load vecX x ;;
       v <- load vecY x ;;
       store vecY x (alpha * u + v)%Qc).

End Axpy.

(** ** The two round loops shared by SkipGram and CBOW *)

(** Local pointer arrays declared but not yet assigned hold this
    placeholder; every slot is assigned before a kernel reads it. *)
Definition unassigned : ptr := Ptr 0 0.

(** Lines 417-425 (SkipGram) and 634-640 (CBOW): the hierarchical-softmax
    rounds.  [st] is the pair of the local arrays [args] and [idxArgs]. *)
Definition hierarchic_rounds (hsRounds vectorLength : Z) (syn1 : ptr)
    (idxSyn1 codes : list Z) (realArguments : list Qc)
    (st : list ptr * list Z) : M (list ptr * list Z) :=
  if bool_decide (0 < hsRounds) then
    for_ hsRounds
      (fun r '(args, idxArgs) =>
         n <- at_ idxSyn1 r ;;
         off <- imul n vectorLength ;;
         let args := <[1%nat := ptr_add syn1 off]> args in
         c <- at_ codes r ;;
         let idxArgs := <[2%nat := c]> idxArgs in
         HierarchicSoftmax.executeAggregate args idxArgs [] realArguments ;;
         ret (args, idxArgs))
      st
  else ret st.

(** [next_random = next_random * (unsigned long long)25214903917 + 11] *)
Definition next_random_step (next_random : Z) : Z :=
  u64 (u64 (next_random * 25214903917) + 11).

(** Lines 436-438 and 649-651: the candidate drawn for the advanced
    random state. *)
Definition draw_target (negTable : ptr) (negTableLength vocabSize : Z)
    (next_random : Z) : M Z :=
  i <- umod (Z.shiftr next_random 16) (u64 negTableLength) ;;
  v <- load negTable i ;;
  target <- to_int v ;;
  if bool_decide (target <= 0) || bool_decide (vocabSize <= target) then
    d <- isub vocabSize 1 ;;
    r <- umod next_random (u64 d) ;;
    ret (to_int32 (u64 (r + 1)))
  else ret target.

(** The variables the negative-sampling loop assigns. *)
Record ng_vars := NgVars {
  ng_args : list ptr;
  ng_idxArgs : list Z;
  ng_next_random : Z;
  ng_target : Z
}.

(** Lines 445-447 and 658-662: the tail of one iteration. *)
Definition negative_call (vectorLength : Z) (syn1Neg : ptr)
    (realArguments : list Qc) (v : ng_vars) : M ng_vars :=
  off <- imul (ng_target v) vectorLength ;;
  let args := <[1%nat := ptr_add syn1Neg off]> (ng_args v) in
  NegativeSampling.executeAggregate args (ng_idxArgs v) [] realArguments ;;
  ret (NgVars args (ng_idxArgs v) (ng_next_random v) (ng_target v)).

(** Lines 429-448 (SkipGram) and 642-663 (CBOW): the negative-sampling
    rounds. *)
Definition negative_rounds (ngRounds ngStarter vectorLength negTableLength
    vocabSize : Z) (syn1Neg negTable : ptr) (realArguments : list Qc)
    (st : list ptr * list Z) (next_random : Z) : M ng_vars :=
  let v0 := NgVars st.1 st.2 next_random ngStarter in
  if bool_decide (0 < ngRounds) then
    n <- iadd ngRounds 1 ;;
    for_ n
      (fun r v =>
         if bool_decide (r = 0) then
           negative_call vectorLength syn1Neg realArguments
             (NgVars (ng_args v) (<[2%nat := 1]> (ng_idxArgs v))
                     (ng_next_random v) (ng_target v))
         else
           let next_random := next_random_step (ng_next_random v) in
           target <- draw_target negTable negTableLength vocabSize next_random ;;
           if bool_decide (target = ngStarter) then
             (* continue *)
             ret (NgVars (ng_args v) (ng_idxArgs v) next_random target)
           else
             negative_call vectorLength syn1Neg realArguments
               (NgVars (ng_args v) (<[2%nat := 0]> (ng_idxArgs v))
                       next_random target))
      v0
  else ret v0.

(** ** SkipGram<T>::executeAggregate (lines 382-458) *)
Module SkipGram.

Record env := Env {
  syn0Row : Z; vectorLength : Z; hsRounds : Z; ngRounds : Z;
  expLength : Z; vocabSize : Z; ngStarter : Z; negTableLength : Z;
  neu1e : ptr; syn0 : ptr; syn1 : ptr; syn1Neg : ptr; negTable : ptr;
  idxSyn1 : list Z; codes : list Z
}.

(** Lines 383-415: the locals, the accumulator and the argument arrays. *)
Definition prologue (arguments : list ptr) (indexArguments : list Z)
    (intArrays : list (list Z)) (realArguments : list Qc)
    : M (env * (list ptr * list Z) * Z) :=
  syn0Row <- at_ indexArguments 0 ;;
  vectorLength <- at_ indexArguments 1 ;;
  hsRounds <- at_ indexArguments 2 ;;
  ngRounds <- at_ indexArguments 3 ;;
  expLength <- at_ indexArguments 4 ;;
  vocabSize <- at_ indexArguments 5 ;;
  ngStarter <- at_ indexArguments 6 ;;
  negTableLength <- at_ indexArguments 7 ;;
  neu1e <- new_zeroed vectorLength ;;
  a0 <- at_ arguments 0 ;;
  off <- imul syn0Row vectorLength ;;
  a1 <- at_ arguments 1 ;;
  a2 <- at_ arguments 2 ;;
  let args := [ptr_add a0 off; a1; a2; neu1e] in
  let idxArgs := [vectorLength; expLength; 0] in
  let syn0 := ptr_add a0 off in
  syn1Neg <- at_ arguments 3 ;;
  negTable <- at_ arguments 4 ;;
  idxSyn1 <- at_ intArrays 0 ;;
  codes <- at_ intArrays 1 ;;
  seed <- at_ realArguments 1 ;;
  next_random <- to_u64 seed ;;
  ret (Env syn0Row vectorLength hsRounds ngRounds expLength vocabSize
           ngStarter negTableLength neu1e syn0 a1 syn1Neg negTable
           idxSyn1 codes,
       (args, idxArgs), next_random).

(** Lines 417-448: all rounds. *)
Definition rounds (e : env) (realArguments : list Qc)
    (st : list ptr * list Z) (next_random : Z) : M ng_vars :=
  st <- hierarchic_rounds (hsRounds e) (vectorLength e) (syn1 e)
          (idxSyn1 e) (codes e) realArguments st ;;
  negative_rounds (ngRounds e) (ngStarter e) (vectorLength e)
    (negTableLength e) (vocabSize e) (syn1Neg e) (negTable e)
    realArguments st next_random.

(** Lines 450-457: the single update of the center row. *)
Definition finish (e : env) : M unit :=
  add_loop (neu1e e) (syn0 e) (vectorLength e) ;;
  delete (neu1e e).

Definition executeAggregate (arguments : list ptr) (indexArguments : list Z)
    (intArrays : list (list Z)) (realArguments : list Qc) : M unit :=
  '(e, st, next_random) <- prologue arguments indexArguments intArrays
                             realArguments ;;
  rounds e realArguments st next_random ;;
  finish e.

End SkipGram.

(** ** CBOW<T>::executeAggregate (lines 574-676) *)
Module CBOW.

Record env := Env {
  vectorLength : Z; hsRounds : Z; ngRounds : Z; expLength : Z;
  vocabSize : Z; ngStarter : Z; negTableLength : Z; idxSyn0Length : Z;
  initialIdx : Z;
  idxSyn0 : list Z; idxSyn1 : list Z; codes : list Z;
  neu1 : ptr; neu1e : ptr;
  syn0 : ptr; syn1 : ptr; expTable : ptr; syn1Neg : ptr; negTable : ptr
}.

(** Lines 577-610: the locals and the two working vectors.  [idxArgs]
    ([new int[3]], line 606, for which the source has no [delete[]]) is a
    list of the embedding. *)
Definition prologue (arguments : list ptr) (indexArguments : list Z)
    (intArrays : list (list Z)) (realArguments : list Qc)
    : M (env * list Z * Z) :=
  vectorLength <- at_ indexArguments 0 ;;
  hsRounds <- at_ indexArguments 1 ;;
  ngRounds <- at_ indexArguments 2 ;;
  expLength <- at_ indexArguments 3 ;;
  vocabSize <- at_ indexArguments 4 ;;
  ngStarter <- at_ indexArguments 5 ;;
  negTableLength <- at_ indexArguments 6 ;;
  idxSyn0Length <- at_ indexArguments 7 ;;
  initialIdx <- at_ indexArguments 8 ;;
  idxSyn0 <- at_ intArrays 0 ;;
  idxSyn1 <- at_ intArrays 1 ;;
  codes <- at_ intArrays 2 ;;
  neu1 <- new_zeroed vectorLength ;;
  neu1e <- new_zeroed vectorLength ;;
  syn0 <- at_ arguments 0 ;;
  syn1 <- at_ arguments 1 ;;
  expTable <- at_ arguments 2 ;;
  syn1Neg <- at_ arguments 3 ;;
  negTable <- at_ arguments 4 ;;
  let idxArgs := [vectorLength; expLength; 0] in
  seed <- at_ realArguments 1 ;;
  next_random <- to_u64 seed ;;
  ret (Env vectorLength hsRounds ngRounds expLength vocabSize ngStarter
           negTableLength idxSyn0Length initialIdx idxSyn0 idxSyn1 codes
           neu1 neu1e syn0 syn1 expTable syn1Neg negTable,
       idxArgs, next_random).

(** Lines 612-628: [neu1] becomes the average of the context rows. *)
Definition average_context (e : env) : M unit :=
  (* building neu1 for current window *)
  for_ (idxSyn0Length e)
    (fun c _ =>
       w <- at_ (idxSyn0 e) c ;;
       off <- imul w (vectorLength e) ;;
       let syn0word := ptr_add (syn0 e) off in
       add_loop syn0word (neu1 e) (vectorLength e))
    tt ;;
  (* average neu1 *)
  if bool_decide (0 < idxSyn0Length e) then
    for_ (vectorLength e)
      (fun i _ =>
         u <- load (neu1 e) i ;;
         q <- fdiv u (Qc_of_Z (idxSyn0Length e)) ;;
         store (neu1 e) i q)
      tt
  else ret tt.

(** Lines 630-663: all rounds, with [neu1] on the embedding side. *)
Definition rounds (e : env) (realArguments : list Qc) (idxArgs : list Z)
    (next_random : Z) : M ng_vars :=
  let args := [neu1 e; unassigned; expTable e; neu1e e; unassigned] in
  st <- hierarchic_rounds (hsRounds e) (vectorLength e) (syn1 e)
          (idxSyn1 e) (codes e) realArguments (args, idxArgs) ;;
  negative_rounds (ngRounds e) (ngStarter e) (vectorLength e)
    (negTableLength e) (vocabSize e) (syn1Neg e) (negTable e)
    realArguments st next_random.

(** Lines 665-672: propagate neu1e -> syn0. *)
Definition scatter (e : env) : M unit :=
  for_ (idxSyn0Length e)
    (fun c _ =>
       w <- at_ (idxSyn0 e) c ;;
       off <- imul w (vectorLength e) ;;
       let syn0word := ptr_add (syn0 e) off in
       add_loop (neu1e e) syn0word (vectorLength e))
    tt.

Definition executeAggregate (arguments : list ptr) (indexArguments : list Z)
    (intArrays : list (list Z)) (realArguments : list Qc) : M unit :=
  '(e, idxArgs, next_random) <- prologue arguments indexArguments intArrays
                                  realArguments ;;
  average_context e ;;
  rounds e realArguments idxArgs next_random ;;
  scatter e ;;
  delete (neu1 e) ;;
  delete (neu1e e).

End CBOW.

(** ** Running a computation *)
Definition run {A} (c : M A) (s : state) : option (A * state) := c s.

(** The kernel invocations of a log, as (kernel, target row, code). *)
Definition call_target (c : call) : option ptr := call_args c !! 1%nat.
Definition call_code (c : call) : option Z := call_idx c !! 2%nat.

(** ** Notions used in the statements *)

(** The [n] cells starting at [p], when all of them are allocated. *)
Definition row (h : heap_t) (p : ptr) (n : Z) : option (list Qc) :=
  mapM (fun j : nat => cell h p (Z.of_nat j)) (seq 0 (Z.to_nat n)).

(** The sum the [dot] loop accumulates, in the order of the loop. *)
Definition dot_product (x y : list Qc) : Qc :=
  foldl (fun acc uv => (acc + uv.1 * uv.2)%Qc) 0%Qc (zip x y).

(** The bucket index as the specification words it:
    [floor((dot + 6.0) * expLength / 12.0)]. *)
Definition exp_bucket (dot : Qc) (expLength : Z) : Z :=
  Qfloor ((dot + Qc_of_Z 6) * Qc_of_Z expLength / Qc_of_Z 12)%Qc.

(** A computation that leaves the state as it found it. *)
Definition stateless {A} (c : M A) : Prop :=
  forall s a s', c s = Some (a, s') -> s' = s.

(** A computation whose successful runs relate the states by [P]. *)
Definition preserves (P : state -> state -> Prop) {A} (c : M A) : Prop :=
  forall s a s', c s = Some (a, s') -> P s s'.

(** The heap keeps its blocks, and those outside [bs] their content. *)
Definition frame (bs : list nat) (s s' : state) : Prop :=
  length (heap s') = length (heap s) /\
  forall b, b ∉ bs -> heap s' !! b = heap s !! b.

Definition same_calls (s s' : state) : Prop := calls s' = calls s.

(** What [update_loop f x_ y n] makes of a heap [h]: the cells of the row
    at [y] are combined with those of the row at [x_], every other cell
    and the shape of the heap stay. *)
Definition updated (f : Qc -> Qc -> Qc) (h : heap_t) (x_ y : ptr) (lo hi : Z)
    (h' : heap_t) : Prop :=
  length h' = length h /\
  (forall b, b <> blk y -> h' !! b = h !! b) /\
  forall q j,
    cell h' q j =
      if decide (blk q = blk y /\ ofs y + lo <= ofs q + j < ofs y + hi)
      then match cell h x_ (ofs q + j - ofs y), cell h q j with
           | Some u, Some v => Some (f u v)
           | _, _ => None
           end
      else cell h q j.

(** The heap after a kernel that applied the gradient [g], or returned
    early ([None]). *)
Definition kernel_post (g : option Qc) (h : heap_t) (syn0 syn1 neu1e : ptr)
    (vectorLength : Z) (h' : heap_t) : Prop :=
  match g with
  | None => h' = h
  | Some g =>
      exists h1,
        updated (fun u v => g * u + v)%Qc h syn1 neu1e 0 (Z.max 0 vectorLength) h1 /\
        updated (fun u v => g * u + v)%Qc h1 syn0 syn1 0 (Z.max 0 vectorLength) h'
  end.

(** The gradient scalar of the hierarchical-softmax kernel as the
    specification gives it, [None] where no update is made. *)
Definition hs_gradient (dot : Qc) (expLength code : Z) (tbl : list Qc)
    (alpha : Qc) : option Qc :=
  if bool_decide (dot < - HS_MAX_EXP)%Qc || bool_decide (HS_MAX_EXP <= dot)%Qc
  then None
  else
    let idx := exp_bucket dot expLength in
    if bool_decide (expLength <= idx) then None
    else Some ((Qc_of_Z (1 - code) - default 0%Qc (tbl !! Z.to_nat idx))
               * alpha)%Qc.

(** The gradient scalar of the negative-sampling kernel as the
    specification gives it: three cases on the dot product, and no update
    ([None]) for an out-of-range bucket in the middle case only. *)
Definition ns_gradient (dot : Qc) (expLength code : Z) (tbl : list Qc)
    (alpha : Qc) : option Qc :=
  if bool_decide (HS_MAX_EXP < dot)%Qc then
    Some (Qc_of_Z (code - 1) * alpha)%Qc
  else if bool_decide (dot < - HS_MAX_EXP)%Qc then
    Some (Qc_of_Z (code - 0) * alpha)%Qc
  else
    let idx := exp_bucket dot expLength in
    if bool_decide (expLength <= idx) then None
    else Some ((Qc_of_Z code - default 0%Qc (tbl !! Z.to_nat idx)) * alpha)%Qc.

(** Both rows a kernel writes, after an update with the gradient [g]:
    [neu1e[i] += g * target[i]] and [target[i] += g * embedding[i]], for
    the rows [e] (embedding), [t] (target) and [a] (accumulator) the
    kernel found. *)
Definition rows_updated (g : Qc) (h' : heap_t) (target neu1e : ptr)
    (vectorLength : Z) (e t a : list Qc) : Prop :=
  row h' neu1e vectorLength = Some (zip_with (fun ai ti => ai + g * ti)%Qc a t) /\
  row h' target vectorLength = Some (zip_with (fun ti ei => ti + g * ei)%Qc t e).

(** A heap for examples: an embedding row, a target row, a table of two
    buckets and a zero accumulator, each in a block of its own. *)
Definition example_heap (e t : list Qc) : heap_t :=
  [Some e; Some t; Some [Qc_of_Z 1 / Qc_of_Z 4; Qc_of_Z 1 / Qc_of_Z 2]%Qc;
   Some (replicate (length e) 0%Qc)].

(** Successful runs relate the states by [effect bs]: the log is kept and
    only the blocks of [bs] are written. *)
Definition effect (bs : list nat) (s s' : state) : Prop :=
  calls s' = calls s /\ frame bs s s'.

(** Two local arrays that differ at most in slot [i]. *)
Definition agree_except {A} (i : nat) (l l' : list A) : Prop :=
  length l' = length l /\ forall j, j <> i -> l' !! j = l !! j.

(** The random state after [k] advances. *)
Definition nth_random (seed : Z) (k : nat) : Z :=
  Nat.iter k next_random_step seed.

(** The states of the first [n] draws. *)
Definition random_states (seed : Z) (n : nat) : list Z :=
  map (fun k => nth_random seed (S k)) (seq 0 n).

(** The candidate of one draw as the specification words it: the random
    state is mapped through the table, and a table entry [<= 0] or
    [>= vocabSize] is replaced by the fallback
    [next_random % (vocabSize - 1) + 1]. *)
Definition draw_spec (tbl : list Qc) (negTableLength vocabSize : Z)
    (next_random : Z) : Z :=
  let i := Z.shiftr next_random 16 mod negTableLength in
  let t := Qtrunc (default 0%Qc (tbl !! Z.to_nat i)) in
  if bool_decide (t <= 0 \/ vocabSize <= t)
  then next_random mod (vocabSize - 1) + 1
  else t.

(** The candidates of the first [n] draws. *)
Definition draws (tbl : list Qc) (negTableLength vocabSize seed : Z)
    (n : nat) : list Z :=
  map (draw_spec tbl negTableLength vocabSize) (random_states seed n).

(** The log entry of a negative-sampling round on row [target]. *)
Definition ns_call (args : list ptr) (idxArgs : list Z) (syn1Neg : ptr)
    (vectorLength : Z) (code target : Z) : call :=
  Call NS (<[1%nat := ptr_add syn1Neg (target * vectorLength)]> args)
          (<[2%nat := code]> idxArgs).

(** The log of the negative-sampling rounds as the code produces it: the
    true pair first, then the drawn candidates other than [ngStarter]. *)
Definition ns_calls (args : list ptr) (idxArgs : list Z) (syn1Neg : ptr)
    (vectorLength ngStarter : Z) (candidates : list Z) : list call :=
  ns_call args idxArgs syn1Neg vectorLength 1 ngStarter
  :: map (ns_call args idxArgs syn1Neg vectorLength 0)
         (filter (fun t => t <> ngStarter) candidates).

(** What the scatter of CBOW adds to the cell at offset [k] of [syn0] for
    the context row [w]: the element of the accumulator [acc] the cell
    lines up with, when the cell belongs to row [w]. *)
Definition scatter_term (vectorLength : Z) (acc : list Qc) (k w : Z) : Qc :=
  if decide (w * vectorLength <= k < w * vectorLength + vectorLength)
  then default 0%Qc (acc !! Z.to_nat (k - w * vectorLength))
  else 0%Qc.

(** The same over the context rows [ws], in the order of the loop. *)
Definition scatter_sum (vectorLength : Z) (acc : list Qc) (ws : list Z)
    (k : Z) : Qc :=
  foldl (fun r w => (r + scatter_term vectorLength acc k w)%Qc) 0%Qc ws.

(** How often row [w] is listed among the context rows [ws]. *)
Definition occurrences (w : Z) (ws : list Z) : Z :=
  Z.of_nat (length (filter (fun x => x = w) ws)).

(** The heaps have the same allocated cells. *)
Definition same_shape (s s' : state) : Prop :=
  forall q j, is_Some (cell (heap s') q j) <-> is_Some (cell (heap s) q j).

(** A small model for examples: [syn0], [syn1] and [syn1Neg] of three rows
    of length two, a table of four buckets, and a negative-sampling table
    of five entries, in the blocks 0 to 4. *)
Definition q_ (a b : Z) : Qc := (Qc_of_Z a / Qc_of_Z b)%Qc.

Definition example_model : heap_t :=
  [Some [q_ 1 1; q_ 0 1; q_ 0 1; q_ 1 1; q_ 1 1; q_ 1 1];
   Some [q_ 0 1; q_ 1 1; q_ 1 1; q_ 0 1; q_ 1 2; q_ 1 2];
   Some [q_ 1 10; q_ 3 10; q_ 7 10; q_ 9 10];
   Some [q_ 0 1; q_ 0 1; q_ 1 1; q_ 2 1; q_ 3 1; q_ 1 1];
   Some [q_ 1 1; q_ 2 1; q_ 2 1; q_ 0 1; q_ 5 1]].

Definition example_arguments : list ptr :=
  [Ptr 0 0; Ptr 1 0; Ptr 2 0; Ptr 3 0; Ptr 4 0].

#[export] Instance kernel_eq_dec : EqDecision kernel.
Proof. solve_decision. Defined.

(** The invocations of the negative-sampling kernel on a drawn candidate
    ([code = 0]) in a log. *)
Definition drawn_negatives (log : list call) : list call :=
  filter (fun c => call_kernel c = NS /\ call_code c = Some 0) log.

(** The rows the drawn negatives of a log were invoked on. *)
Definition negative_targets (log : list call) : list (option ptr) :=
  map call_target (drawn_negatives log).

(** The part of the log an invocation started in state [s] has added when
    it ends in [s']. *)
Definition new_calls (s s' : state) : list call :=
  drop (length (calls s)) (calls s').

(** What the code does with a drawn candidate equal to [ngStarter]: the
    kernel is not invoked on it, and the iteration is used up, so that
    the invocations on drawn negatives and the collisions together make
    up the [ngRounds] draws. *)
Definition collisions_consume_rounds (log : list call) (syn1Neg : ptr)
    (vectorLength ngStarter ngRounds : Z) (candidates : list Z) : Prop :=
  length candidates = Z.to_nat ngRounds /\
  negative_targets log
  = map (fun t => Some (ptr_add syn1Neg (t * vectorLength)))
        (filter (fun t => t <> ngStarter) candidates) /\
  Forall (fun p => p <> Some (ptr_add syn1Neg (ngStarter * vectorLength)))
         (negative_targets log) /\
  (length (drawn_negatives log)
   + length (filter (fun t => t = ngStarter) candidates))%nat
  = Z.to_nat ngRounds.

(** The table of [example_model]. *)
Definition example_table : list Qc := [q_ 1 1; q_ 2 1; q_ 2 1; q_ 0 1; q_ 5 1].

(** The reading of the claims that every negative-sampling iteration
    after the first invokes the kernel: the log of the negative-sampling
    kernel would then hold a call for every candidate. *)
Definition all_candidates_invoked (log : list call) (args : list ptr)
    (idxArgs : list Z) (syn1Neg : ptr) (vectorLength ngStarter : Z)
    (candidates : list Z) : Prop :=
  filter (fun c => call_kernel c = NS) log
  = ns_call args idxArgs syn1Neg vectorLength 1 ngStarter
    :: map (ns_call args idxArgs syn1Neg vectorLength 0) candidates.

(** The reading that a collision does not cost a round: as many
    invocations on drawn negatives as [ngRounds]. *)
Definition all_rounds_completed (log : list call) (ngRounds : Z) : Prop :=
  length (drawn_negatives log) = Z.to_nat ngRounds.

(** A second model with other matrices and the same negative-sampling
    table. *)
Definition example_model_2 : heap_t :=
  [Some [q_ 1 2; q_ 1 3; q_ 2 1; q_ (-1) 1; q_ 0 1; q_ 3 1];
   Some [q_ 1 1; q_ 1 1; q_ 1 5; q_ 0 1; q_ (-1) 2; q_ 1 2];
   Some [q_ 1 10; q_ 3 10; q_ 7 10; q_ 9 10];
   Some [q_ 1 1; q_ 0 1; q_ (-1) 1; q_ 2 1; q_ 1 3; q_ 1 1];
   Some [q_ 1 1; q_ 2 1; q_ 2 1; q_ 0 1; q_ 5 1]].

(** The cell [q[j]] lies in the row [r], a pointer with a length. *)
Definition in_row (r : ptr * Z) (q : ptr) (j : Z) : Prop :=
  blk q = blk r.1 /\ ofs r.1 <= ofs q + j < ofs r.1 + r.2.

(** No cell outside the rows [rs] has changed. *)
Definition writes_only (rs : list (ptr * Z)) (s s' : state) : Prop :=
  forall q j, (forall r, r ∈ rs -> ~ in_row r q j) ->
    cell (heap s') q j = cell (heap s) q j.

(** The heap has as many blocks as before. *)
Definition same_length (s s' : state) : Prop :=
  length (heap s') = length (heap s).

(** The heap is as it was. *)
Definition heap_kept (s s' : state) : Prop := heap s' = heap s.

(** The log entry of a hierarchical-softmax round on row [n] of [syn1] with
    code [c]. *)
Definition hs_call (args : list ptr) (idxArgs : list Z) (syn1 : ptr)
    (vectorLength : Z) (n c : Z) : call :=
  Call HS (<[1%nat := ptr_add syn1 (n * vectorLength)]> args)
          (<[2%nat := c]> idxArgs).

(** The log of the hierarchical-softmax rounds: one call for each of the
    first [hsRounds] entries of [idxSyn1] and [codes], in their order. *)
Definition hs_calls (args : list ptr) (idxArgs : list Z) (syn1 : ptr)
    (vectorLength hsRounds : Z) (idxSyn1 codes : list Z) : list call :=
  zip_with (hs_call args idxArgs syn1 vectorLength)
    (take (Z.to_nat hsRounds) idxSyn1) (take (Z.to_nat hsRounds) codes).

(** The log has grown by calls of kernel [k] only. *)
Definition logs_only (k : kernel) (s s' : state) : Prop :=
  exists l, calls s' = calls s ++ l /\ Forall (fun c => call_kernel c = k) l.

(** What the summing loop of CBOW has put in element [i] of [neu1] after
    the context rows [ws] of [syn0], in the order of the loop. *)
Definition context_sum (h : heap_t) (syn0 : ptr) (vectorLength : Z)
    (ws : list Z) (i : Z) : Qc :=
  foldl (fun acc w => (acc + default 0%Qc (cell h syn0 (w * vectorLength + i)))%Qc)
    0%Qc ws.

(** The step of the random state undone: [8868678245928342373] is the
    inverse of the multiplier [25214903917] modulo [2^64]. *)
Definition previous_random_step (next_random : Z) : Z :=
  u64 ((next_random - 11) * 8868678245928342373).

(** The threads [threads] of a block, each running [kernel] to its end,
    one after the other. *)
Fixpoint run_threads (threads : list Z) (kernel : Z -> M unit) : M unit :=
  match threads with
  | [] => ret tt
  | t :: ts => kernel t ;; run_threads ts kernel
  end.

(** What the threads [ts] of a block of [blockDim] threads make of the
    row at [y] in a strided loop: the cells [y[k]], [lo <= k < n], whose
    [k mod blockDim] is the index of one of these threads are combined
    with those of the row at [x_]; every other cell stays. *)
Definition strided (f : Qc -> Qc -> Qc) (h : heap_t) (x_ y : ptr)
    (ts : list Z) (blockDim lo n : Z) (h' : heap_t) : Prop :=
  length h' = length h /\
  (forall b, b <> blk y -> h' !! b = h !! b) /\
  forall q j,
    cell h' q j =
      if decide (blk q = blk y /\ lo <= ofs q + j - ofs y < n /\
                 (ofs q + j - ofs y) mod blockDim ∈ ts)
      then match cell h x_ (ofs q + j - ofs y), cell h q j with
           | Some u, Some v => Some (f u v)
           | _, _ => None
           end
      else cell h q j.



(** * Properties *)

Arguments bind : simpl never.
Arguments ret : simpl never.
Arguments lift : simpl never.
Arguments load : simpl never.
Arguments store : simpl never.
Arguments at_ : simpl never.
Arguments checked : simpl never.
Arguments log_call : simpl never.
Arguments new_zeroed : simpl never.
Arguments delete : simpl never.

(** ** The monad *)

Lemma bind_Some {A B} (c : M A) (k : A -> M B) s r :
  bind c k s = Some r <-> exists a s1, c s = Some (a, s1) /\ k a s1 = Some r.
Proof.
  unfold bind. destruct (c s) as [[a s1]|]; split.
  - intros H. by exists a, s1.
  - by intros (? & ? & [= -> ->] & ?).
  - done.
  - by intros (? & ? & ? & ?).
Qed.

Lemma bind_run {A B} (c : M A) (k : A -> M B) s a s1 :
  c s = Some (a, s1) -> bind c k s = k a s1.
Proof. unfold bind. by intros ->. Qed.

Lemma at_Some {A} (l : list A) i s r :
  at_ l i s = Some r <-> 0 <= i /\ exists a, l !! Z.to_nat i = Some a /\ r = (a, s).
Proof.
  unfold at_, lift, fail. case_bool_decide.
  - destruct (l !! Z.to_nat i); naive_solver.
  - naive_solver.
Qed.

Lemma checked_Some z s r :
  checked z s = Some r <-> int_range z = true /\ r = (z, s).
Proof. unfold checked, ret, fail. destruct (int_range z); naive_solver. Qed.

Lemma checked_run z s : int_range z = true -> checked z s = Some (z, s).
Proof. intros. by apply checked_Some. Qed.

Lemma int_range_spec z : int_range z = true <-> INT_MIN <= z <= INT_MAX.
Proof. unfold int_range. rewrite andb_true_iff. lia. Qed.

Lemma umod_Some a b s r :
  umod a b s = Some r <-> b <> 0 /\ r = (a mod b, s).
Proof. unfold umod, ret, fail. case_bool_decide; naive_solver. Qed.

Lemma load_Some p i s r :
  load p i s = Some r <-> exists v, cell (heap s) p i = Some v /\ r = (v, s).
Proof. unfold load. destruct (cell (heap s) p i); naive_solver. Qed.

Lemma load_run p i s v : cell (heap s) p i = Some v -> load p i s = Some (v, s).
Proof. intros. apply load_Some. eauto. Qed.

Lemma store_Some p i v s r :
  store p i v s = Some r <->
  exists h, set_cell (heap s) p i v = Some h /\ r = (tt, State h (calls s)).
Proof. unfold store. destruct (set_cell (heap s) p i v); naive_solver. Qed.

(** ** Cells *)

Lemma set_cell_is_Some h p i v :
  is_Some (cell h p i) -> is_Some (set_cell h p i v).
Proof.
  unfold cell, set_cell. case_bool_decide; [|by intros []].
  destruct (h !! blk p) as [[d|]|]; try by intros [].
  intros Hd. apply lookup_lt_is_Some in Hd.
  rewrite bool_decide_true by done. eauto.
Qed.

Lemma cell_set_cell h p i v h' q j :
  set_cell h p i v = Some h' ->
  cell h' q j =
    if decide (blk q = blk p /\ ofs q + j = ofs p + i) then Some v
    else cell h q j.
Proof.
  unfold set_cell, cell. case_bool_decide as Hi; [|done].
  destruct (h !! blk p) as [[d|]|] eqn:Hb; try done.
  case_bool_decide as Hlen; [|done]. intros [= <-].
  apply lookup_lt_Some in Hb as Hlt.
  destruct (decide (blk q = blk p)) as [Hq|Hq].
  - rewrite Hq, list_lookup_insert_eq by done. rewrite Hb.
    case_bool_decide as Hj.
    + destruct (decide (ofs q + j = ofs p + i)) as [He|He].
      * rewrite decide_True by done. rewrite He.
        by rewrite list_lookup_insert_eq.
      * rewrite decide_False by tauto.
        rewrite list_lookup_insert_ne by lia. done.
    + rewrite decide_False by lia. done.
  - rewrite list_lookup_insert_ne by done.
    rewrite decide_False by tauto. done.
Qed.

Lemma set_cell_same h p i v :
  cell h p i = Some v -> set_cell h p i v = Some h.
Proof.
  unfold cell, set_cell. case_bool_decide; [|done].
  destruct (h !! blk p) as [[d|]|] eqn:Hb; try done.
  intros Hd. rewrite bool_decide_true by (by eapply lookup_lt_Some).
  f_equal. rewrite (list_insert_id d) by done. by apply list_insert_id.
Qed.

Lemma set_cell_frame h p i v h' :
  set_cell h p i v = Some h' ->
  length h' = length h /\ forall b, b <> blk p -> h' !! b = h !! b.
Proof.
  unfold set_cell. case_bool_decide; [|done].
  destruct (h !! blk p) as [[d|]|]; try done.
  case_bool_decide; [|done]. intros [= <-]. split.
  - by rewrite length_insert.
  - intros b Hb. by rewrite list_lookup_insert_ne.
Qed.

Lemma cell_ext h h' p i :
  h' !! blk p = h !! blk p -> cell h' p i = cell h p i.
Proof. unfold cell. by intros ->. Qed.

Lemma cell_addr h p i q j :
  blk q = blk p -> ofs q + j = ofs p + i -> cell h q j = cell h p i.
Proof. unfold cell. by intros -> ->. Qed.

(** ** Rows *)

Lemma row_Some h p n l :
  row h p n = Some l <->
  length l = Z.to_nat n /\
  forall j : nat, (j < length l)%nat -> cell h p (Z.of_nat j) = l !! j.
Proof.
  unfold row. rewrite mapM_Some, Forall2_same_length_lookup, length_seq.
  split.
  - intros [Hlen H]. split; [done|]. intros j Hj.
    destruct (lookup_lt_is_Some_2 l j Hj) as [v Hv]. rewrite Hv.
    apply (H j); [|done]. apply lookup_seq. lia.
  - intros [Hlen H]. split; [done|]. intros j x v Hx Hv.
    apply lookup_seq in Hx as [-> _]. simpl. rewrite <- Hv. apply H.
    by eapply lookup_lt_Some.
Qed.

Lemma row_cell h p n l j :
  row h p n = Some l -> 0 <= j < n -> cell h p j = l !! Z.to_nat j.
Proof.
  intros [Hlen H]%row_Some Hj.
  rewrite <- (Z2Nat.id j) at 1 by lia. apply H. lia.
Qed.

Lemma row_length h p n l : row h p n = Some l -> length l = Z.to_nat n.
Proof. by intros [? _]%row_Some. Qed.

Lemma row_ext h h' p n :
  h' !! blk p = h !! blk p -> row h' p n = row h p n.
Proof.
  intros H. unfold row. apply mapM_ext. intros j.
  by apply cell_ext.
Qed.

Lemma row_is_Some h p n :
  (forall j, 0 <= j < n -> is_Some (cell h p j)) -> is_Some (row h p n).
Proof.
  intros H. unfold row. apply mapM_is_Some, list.Forall_forall.
  intros j Hj%elem_of_seq. apply H. lia.
Qed.

(** ** Loops *)

Section preserves_lemmas.
Context (P : state -> state -> Prop) `{!PreOrder P}.

Lemma preserves_ret {A} (a : A) : preserves P (ret a).
Proof. intros s ? ? [= _ <-]. reflexivity. Qed.

Lemma preserves_fail {A} : preserves P (@fail A).
Proof. by intros s ? ?. Qed.

Lemma preserves_bind {A B} (c : M A) (k : A -> M B) :
  preserves P c -> (forall a, preserves P (k a)) -> preserves P (bind c k).
Proof.
  intros Hc Hk s b s' (a & s1 & H1 & H2)%bind_Some.
  transitivity s1; [by eapply Hc | by eapply Hk].
Qed.

Lemma preserves_stateless {A} (c : M A) : stateless c -> preserves P c.
Proof. intros Hc s a s' ->%Hc. reflexivity. Qed.

Lemma preserves_for_from {St} (body : Z -> St -> M St) :
  (forall i x, preserves P (body i x)) ->
  forall n i x, preserves P (for_from n i body x).
Proof.
  intros Hb n. induction n as [|n IH]; intros i x; simpl.
  - apply preserves_ret.
  - apply preserves_bind; [apply Hb | intros; apply IH].
Qed.

Lemma preserves_for {St} (body : Z -> St -> M St) hi x :
  (forall i x, preserves P (body i x)) -> preserves P (for_ hi body x).
Proof. intros. by apply preserves_for_from. Qed.
End preserves_lemmas.

Lemma stateless_preserves {A} (c : M A) : stateless c <-> preserves eq c.
Proof. split; intros H s a s' Hs; symmetry; by eapply H. Qed.

Lemma stateless_at {A} (l : list A) i : stateless (at_ l i).
Proof. intros s a s' (_ & ? & _ & [= _ ->])%at_Some. done. Qed.

Lemma stateless_checked z : stateless (checked z).
Proof. intros s a s' (_ & [= _ ->])%checked_Some. done. Qed.

Lemma stateless_load p i : stateless (load p i).
Proof. intros s a s' (? & _ & [= _ ->])%load_Some. done. Qed.

Lemma stateless_umod a b : stateless (umod a b).
Proof. intros s ? s' (_ & [= _ ->])%umod_Some. done. Qed.

Lemma stateless_ret {A} (a : A) : stateless (ret a).
Proof. by intros s ? s' [= _ ->]. Qed.

Lemma stateless_fail {A} : stateless (@fail A).
Proof. by intros s ? s'. Qed.

Lemma stateless_bind {A B} (c : M A) (k : A -> M B) :
  stateless c -> (forall a, stateless (k a)) -> stateless (bind c k).
Proof.
  rewrite !stateless_preserves. intros Hc Hk.
  apply preserves_bind; [apply _|done|]. intros a. by apply stateless_preserves.
Qed.

Lemma stateless_for {St} (body : Z -> St -> M St) hi x :
  (forall i x, stateless (body i x)) -> stateless (for_ hi body x).
Proof.
  intros H. apply stateless_preserves, preserves_for; [apply _|].
  intros. by apply stateless_preserves.
Qed.

Lemma stateless_to_u64 x : stateless (to_u64 x).
Proof.
  unfold to_u64. case_bool_decide; [apply stateless_ret|apply stateless_fail].
Qed.

Lemma stateless_fdiv x y : stateless (fdiv x y).
Proof.
  unfold fdiv. case_bool_decide; [apply stateless_fail|apply stateless_ret].
Qed.

Create HintDb stateless.
#[export] Hint Resolve stateless_at stateless_checked stateless_load
  stateless_umod stateless_ret stateless_fail stateless_to_u64
  stateless_fdiv : stateless.

Ltac stateless_step :=
  match goal with
  | |- stateless (bind _ _) => apply stateless_bind; [|intros ?]
  | |- stateless (for_ _ _ _) => apply stateless_for; intros ? ?
  | |- stateless (if ?b then _ else _) => destruct b
  | |- stateless (match ?o with Some _ => _ | None => _ end) => destruct o
  | |- stateless (iadd _ _) => apply stateless_checked
  | |- stateless (isub _ _) => apply stateless_checked
  | |- stateless (imul _ _) => apply stateless_checked
  | |- stateless (to_int _) => apply stateless_checked
  | |- stateless _ => solve [auto with stateless]
  end.
Ltac solve_stateless := repeat stateless_step.

Lemma stateless_dot_loop a b n : stateless (dot_loop a b n).
Proof. unfold dot_loop. solve_stateless. Qed.

Lemma stateless_exp_index dot expLength : stateless (exp_index dot expLength).
Proof. unfold exp_index. solve_stateless. Qed.

Lemma stateless_draw_target negTable negTableLength vocabSize nr :
  stateless (draw_target negTable negTableLength vocabSize nr).
Proof. unfold draw_target. solve_stateless. Qed.

Lemma stateless_gradient dot code expLength expTable alpha :
  stateless (NegativeSampling.gradient dot code expLength expTable alpha).
Proof.
  unfold NegativeSampling.gradient.
  pose proof stateless_exp_index. solve_stateless.
Qed.

Lemma bind_assoc {A B C} (c : M A) (k1 : A -> M B) (k2 : B -> M C) s :
  bind (bind c k1) k2 s = bind c (fun a => bind (k1 a) k2) s.
Proof. unfold bind. by destruct (c s) as [[]|]. Qed.

Lemma bind_ret {A B} (a : A) (k : A -> M B) s : bind (ret a) k s = k a s.
Proof. done. Qed.

(** Run the head of a sequence whose result [H] states. *)
Ltac run_with H :=
  rewrite ?bind_assoc; rewrite (bind_run _ _ _ _ _ H).

(** The [dot] loop returns the dot product of the two rows. *)
Lemma dot_from a b s : forall (x y : list Qc) i acc,
  0 <= i ->
  length x = length y ->
  (forall j : nat, (j < length x)%nat ->
     cell (heap s) a (i + Z.of_nat j) = x !! j /\
     cell (heap s) b (i + Z.of_nat j) = y !! j) ->
  for_from (length x) i
    (fun x dot => u <- load a x ;; v <- load b x ;; ret (dot + u * v)%Qc)
    acc s
  = Some (foldl (fun acc uv => (acc + uv.1 * uv.2)%Qc) acc (zip x y), s).
Proof.
  induction x as [|u x IH]; intros [|v y] i acc Hi Hlen H; try done.
  simpl in *.
  destruct (H 0%nat) as [Ha Hb]; [lia|]. rewrite Z.add_0_r in Ha, Hb.
  run_with (load_run _ _ _ _ Ha). run_with (load_run _ _ _ _ Hb).
  rewrite bind_ret. apply IH; [lia|lia|].
  intros j Hj. destruct (H (S j)) as [Ha' Hb']; [lia|].
  replace (i + 1 + Z.of_nat j) with (i + Z.of_nat (S j)) by lia. done.
Qed.

Lemma dot_loop_run s a b n x y :
  row (heap s) a n = Some x -> row (heap s) b n = Some y ->
  dot_loop a b n s = Some (dot_product x y, s).
Proof.
  intros [Hx Hxc]%row_Some [Hy Hyc]%row_Some.
  unfold dot_loop, for_, dot_product. rewrite <- Hx.
  apply dot_from; [done|lia|].
  intros j Hj. rewrite !Z.add_0_l. split; [by apply Hxc|apply Hyc; lia].
Qed.

Lemma update_from f x_ y : blk x_ <> blk y ->
  forall (k : nat) i s,
  (forall j, i <= j < i + Z.of_nat k ->
     is_Some (cell (heap s) x_ j) /\ is_Some (cell (heap s) y j)) ->
  exists h',
    for_from k i
      (fun x _ => u <- load x_ x ;; v <- load y x ;; store y x (f u v)) tt s
    = Some (tt, State h' (calls s)) /\
    updated f (heap s) x_ y i (i + Z.of_nat k) h'.
Proof.
  intros Hblk k. induction k as [|k IH]; intros i s Hv.
  - exists (heap s). split; [by destruct s|].
    repeat split; try done. intros q j. rewrite decide_False by lia. done.
  - destruct (Hv i) as [[u Hu] [v Hy]]; [lia|].
    destruct (set_cell_is_Some (heap s) y i (f u v)) as [h1 Hset]; [by eexists|].
    pose proof (fun q j => cell_set_cell _ _ _ _ _ q j Hset) as Hc1.
    pose proof (set_cell_frame _ _ _ _ _ Hset) as [Hlen1 Hfr1].
    destruct (IH (i + 1) (State h1 (calls s))) as (h' & Hrun & Hlen & Hfr & Hc).
    { intros j Hj. simpl. rewrite !Hc1.
      rewrite decide_False by tauto. rewrite decide_False by lia.
      apply Hv. lia. }
    exists h'. split.
    { simpl. run_with (load_run _ _ _ _ Hu). run_with (load_run _ _ _ _ Hy).
      erewrite bind_run; [exact Hrun|].
      apply store_Some. eauto. }
    simpl in *. split; [congruence|]. split.
    { intros b Hb. rewrite Hfr, Hfr1; done. }
    intros q j. rewrite Hc, !Hc1.
    repeat case_decide; try (exfalso; lia); try done.
    rewrite (cell_addr _ y i q j) by lia.
    replace (ofs q + j - ofs y) with i by lia.
    by rewrite Hu, Hy.
Qed.

Lemma update_loop_run f x_ y n s :
  blk x_ <> blk y ->
  is_Some (row (heap s) x_ n) -> is_Some (row (heap s) y n) ->
  exists h',
    update_loop f x_ y n s = Some (tt, State h' (calls s)) /\
    updated f (heap s) x_ y 0 (Z.max 0 n) h'.
Proof.
  intros Hblk [X HX] [Y HY].
  destruct (update_from f x_ y Hblk (Z.to_nat n) 0 s) as (h' & Hrun & Hupd).
  { intros j Hj. rewrite (row_cell _ _ _ _ _ HX), (row_cell _ _ _ _ _ HY) by lia.
    split; apply lookup_lt_is_Some.
    - rewrite (row_length _ _ _ _ HX). lia.
    - rewrite (row_length _ _ _ _ HY). lia. }
  exists h'. split; [done|].
  replace (Z.max 0 n) with (0 + Z.of_nat (Z.to_nat n)) by lia. done.
Qed.

(** The rows after an update. *)
Lemma updated_row_target f h x_ y n h' X Y :
  updated f h x_ y 0 (Z.max 0 n) h' ->
  row h x_ n = Some X -> row h y n = Some Y ->
  row h' y n = Some (zip_with f X Y).
Proof.
  intros (_ & _ & Hc) HX HY.
  pose proof (row_length _ _ _ _ HX) as HlX.
  pose proof (row_length _ _ _ _ HY) as HlY.
  apply row_Some. rewrite length_zip_with. split; [lia|].
  intros j Hj. rewrite Hc, decide_True by lia.
  replace (ofs y + Z.of_nat j - ofs y) with (Z.of_nat j) by lia.
  rewrite (row_cell _ _ _ _ _ HX), (row_cell _ _ _ _ _ HY) by lia.
  rewrite Nat2Z.id, lookup_zip_with.
  destruct (X !! j), (Y !! j); done.
Qed.

Lemma updated_row_other f h x_ y lo hi h' q n :
  updated f h x_ y lo hi h' -> blk q <> blk y -> row h' q n = row h q n.
Proof. intros (_ & Hfr & _) Hq. apply row_ext. by apply Hfr. Qed.

(** Successful runs of [update_loop] write the block of [y] only. *)
Lemma preserves_store (bs : list nat) p i v :
  blk p ∈ bs -> preserves (frame bs) (store p i v).
Proof.
  intros Hin s [] s' (h & Hset & [= ->])%store_Some.
  destruct (set_cell_frame _ _ _ _ _ Hset) as [Hlen Hfr].
  split; simpl; [done|]. intros b Hb. apply Hfr. by intros ->.
Qed.

(** ** Arithmetic of the bucket index *)

Lemma Qtrunc_floor (v : Qc) : (0 <= v)%Qc -> Qtrunc v = Qfloor v.
Proof.
  destruct v as [[n d] Hc]. unfold Qcle, Qle, Qtrunc, Qfloor. simpl.
  intros H. apply Z.quot_div_nonneg; lia.
Qed.

Lemma Qc_of_Z_le a b : a <= b <-> (Qc_of_Z a <= Qc_of_Z b)%Qc.
Proof. unfold Qcle. simpl. by rewrite <- Zle_Qle. Qed.

Lemma Qfloor_lower (v : Qc) (a : Z) : (Qc_of_Z a <= v)%Qc -> a <= Qfloor v.
Proof.
  unfold Qcle. simpl. intros H.
  rewrite <- (Qfloor_Z a). by apply Qfloor_resp_le.
Qed.

Lemma Qfloor_upper (v : Qc) (a : Z) : (v <= Qc_of_Z a)%Qc -> Qfloor v <= a.
Proof.
  unfold Qcle. simpl. intros H.
  rewrite <- (Qfloor_Z a). by apply Qfloor_resp_le.
Qed.

Lemma Qfloor_upper_strict (v : Qc) (a : Z) :
  (v < Qc_of_Z a)%Qc -> Qfloor v < a.
Proof.
  unfold Qclt. simpl. intros H. rewrite Zlt_Qlt.
  eapply Qle_lt_trans; [apply Qfloor_le|done].
Qed.

Lemma Qfloor_Qc_of_Z a : Qfloor (Qc_of_Z a) = a.
Proof. apply Qfloor_Z. Qed.

Lemma Qtrunc_lower_neg (v : Qc) (a : Z) :
  (Qc_of_Z a <= v)%Qc -> (v <= 0)%Qc -> a <= Qtrunc v <= 0.
Proof.
  destruct v as [[n d] Hc]. unfold Qcle, Qle, Qtrunc. simpl.
  intros Ha H0.
  assert (n <= 0) by lia.
  rewrite <- (Z.opp_involutive n), Z.quot_opp_l by lia.
  assert (0 <= (- n) ÷ Z.pos d) by (apply Z.quot_pos; lia).
  split; [|lia].
  destruct (Z_le_gt_dec a 0); [|lia].
  assert ((- n) ÷ Z.pos d <= - a); [|lia].
  rewrite Z.quot_div_nonneg by lia.
  apply Z.div_le_upper_bound; lia.
Qed.

Lemma scale_eq (dot : Qc) (L : Z) :
  ((dot + HS_MAX_EXP) * (Qc_of_Z L / HS_MAX_EXP / Qc_of_Z 2)
   = (dot + Qc_of_Z 6) * Qc_of_Z L / Qc_of_Z 12)%Qc.
Proof.
  unfold HS_MAX_EXP.
  assert (H12 : Qc_of_Z 12 = (Qc_of_Z 6 * Qc_of_Z 2)%Qc) by by apply Qc_is_canon.
  assert (H6 : Qc_of_Z 6 <> 0%Qc) by done.
  assert (H2 : Qc_of_Z 2 <> 0%Qc) by done.
  rewrite H12. field. done.
Qed.

Lemma Qc_of_Z_0 : Qc_of_Z 0 = 0%Qc.
Proof. by apply Qc_is_canon. Qed.

Lemma exp_scaled_max (L : Z) : exp_scaled HS_MAX_EXP L = Qc_of_Z L.
Proof.
  unfold exp_scaled, HS_MAX_EXP.
  assert (H6 : Qc_of_Z 6 <> 0%Qc) by done.
  assert (H2 : Qc_of_Z 2 <> 0%Qc) by done.
  assert (H22 : Qc_of_Z 2 = (1 + 1)%Qc) by by apply Qc_is_canon.
  rewrite H22 in *. field. done.
Qed.

Lemma exp_scaled_min (L : Z) : exp_scaled (- HS_MAX_EXP) L = 0%Qc.
Proof. unfold exp_scaled. rewrite (Qcplus_comm (- _)), Qcplus_opp_r. ring. Qed.

Lemma exp_scaled_sub (dot : Qc) (L : Z) :
  (exp_scaled HS_MAX_EXP L - exp_scaled dot L
   = (HS_MAX_EXP - dot) * (Qc_of_Z L / HS_MAX_EXP / Qc_of_Z 2))%Qc.
Proof. unfold exp_scaled. ring. Qed.

Lemma exp_scaled_add (dot : Qc) (L : Z) :
  (exp_scaled dot L
   = (dot + HS_MAX_EXP) * (Qc_of_Z L / HS_MAX_EXP / Qc_of_Z 2))%Qc.
Proof. done. Qed.

Lemma exp_factor_sign (L : Z) :
  (0 <= L -> (0 <= Qc_of_Z L / HS_MAX_EXP / Qc_of_Z 2)%Qc) /\
  (0 < L -> (0 < Qc_of_Z L / HS_MAX_EXP / Qc_of_Z 2)%Qc) /\
  (L <= 0 -> (Qc_of_Z L / HS_MAX_EXP / Qc_of_Z 2 <= 0)%Qc).
Proof.
  assert (E : (Qc_of_Z L / HS_MAX_EXP / Qc_of_Z 2
               = Qc_of_Z L * Q2Qc (1 # 12))%Qc).
  { unfold Qcdiv. rewrite <- Qcmult_assoc. f_equal. }
  rewrite E. unfold Qcle, Qclt. simpl. rewrite !Qred_correct.
  unfold Qle, Qlt. simpl. lia.
Qed.

Lemma exp_scaled_bounds (dot : Qc) (L : Z) :
  (- HS_MAX_EXP <= dot)%Qc -> (dot <= HS_MAX_EXP)%Qc ->
  (0 <= L -> (0 <= exp_scaled dot L)%Qc /\ (exp_scaled dot L <= Qc_of_Z L)%Qc) /\
  (0 < L -> (dot < HS_MAX_EXP)%Qc -> (exp_scaled dot L < Qc_of_Z L)%Qc) /\
  (L <= 0 -> (Qc_of_Z L <= exp_scaled dot L)%Qc /\ (exp_scaled dot L <= 0)%Qc).
Proof.
  intros Hlo Hhi.
  destruct (exp_factor_sign L) as (Hc0 & Hcpos & Hcneg).
  set (c := (Qc_of_Z L / HS_MAX_EXP / Qc_of_Z 2)%Qc) in *.
  assert (Ha0 : (0 <= dot + HS_MAX_EXP)%Qc).
  { apply Qcle_minus_iff in Hlo. by rewrite Qcopp_involutive in Hlo. }
  assert (Hb0 : (0 <= HS_MAX_EXP - dot)%Qc) by by apply Qcle_minus_iff in Hhi.
  pose proof (exp_scaled_sub dot L) as Hsub. fold c in Hsub.
  rewrite exp_scaled_max in Hsub.
  pose proof (exp_scaled_add dot L) as Hadd. fold c in Hadd.
  split; [|split].
  - intros HL. split.
    + rewrite Hadd. rewrite <- (Qcmult_0_l c).
      apply Qcmult_le_compat_r; auto.
    + apply Qcle_minus_iff. unfold Qcminus in Hsub. rewrite Hsub.
      rewrite <- (Qcmult_0_l c). apply Qcmult_le_compat_r; auto.
  - intros HL Hlt. apply Qclt_minus_iff. unfold Qcminus in Hsub. rewrite Hsub.
    rewrite <- (Qcmult_0_l c). apply Qcmult_lt_compat_r; auto.
    by apply Qclt_minus_iff in Hlt.
  - intros HL. apply Qcopp_le_compat in Hcneg as Hc'; auto.
    replace (- 0)%Qc with 0%Qc in Hc' by ring.
    split.
    + apply Qcle_minus_iff.
      replace (exp_scaled dot L + - Qc_of_Z L)%Qc
        with ((HS_MAX_EXP - dot) * (- c))%Qc.
      2:{ transitivity (- (Qc_of_Z L - exp_scaled dot L))%Qc; [|ring].
          rewrite Hsub. ring. }
      rewrite <- (Qcmult_0_l (- c)). apply Qcmult_le_compat_r; auto.
    + apply Qcle_minus_iff.
      replace (0 + - exp_scaled dot L)%Qc with ((dot + HS_MAX_EXP) * (- c))%Qc
        by (rewrite Hadd; ring).
      rewrite <- (Qcmult_0_l (- c)). apply Qcmult_le_compat_r; auto.
Qed.

Lemma exp_bucket_scaled (dot : Qc) (L : Z) :
  exp_bucket dot L = Qfloor (exp_scaled dot L).
Proof. unfold exp_bucket, exp_scaled. by rewrite scale_eq. Qed.

(** The index computation inside the table range of the dot product. *)
Lemma exp_index_run (dot : Qc) (L : Z) s :
  (- HS_MAX_EXP <= dot)%Qc -> (dot <= HS_MAX_EXP)%Qc ->
  int_range L = true ->
  exists idx,
    exp_index dot L s = Some (idx, s) /\
    (L <= idx <-> L <= exp_bucket dot L) /\
    (0 < L -> idx = exp_bucket dot L /\ 0 <= idx <= L) /\
    (0 < L -> (dot < HS_MAX_EXP)%Qc -> idx < L).
Proof.
  intros Hlo Hhi HL. apply int_range_spec in HL.
  destruct (exp_scaled_bounds dot L Hlo Hhi) as (Hpos & Hstrict & Hneg).
  exists (Qtrunc (exp_scaled dot L)).
  rewrite exp_bucket_scaled.
  assert (Hint : INT_MIN <= 0 <= INT_MAX) by (unfold INT_MIN, INT_MAX; lia).
  destruct (Z_lt_le_dec 0 L) as [HL0|HL0].
  - destruct Hpos as [H0 H1]; [lia|].
    rewrite (Qtrunc_floor _ H0).
    pose proof (Qfloor_upper _ _ H1).
    assert (0 <= Qfloor (exp_scaled dot L)).
    { apply Qfloor_lower. by rewrite Qc_of_Z_0. }
    split; [|repeat split; try lia].
    + unfold exp_index, to_int.
      rewrite (Qtrunc_floor _ H0). apply checked_run, int_range_spec. lia.
    + intros _ Hlt. apply Qfloor_upper_strict. auto.
  - destruct Hneg as [H0 H1]; [lia|].
    pose proof (Qtrunc_lower_neg _ _ H0 H1).
    pose proof (Qfloor_lower _ _ H0).
    split; [|repeat split; try lia].
    unfold exp_index, to_int.
    apply checked_run, int_range_spec. lia.
Qed.

(** ** Running the kernels *)

Lemma at_lit {A} (l : list A) i a s :
  0 <= i -> l !! Z.to_nat i = Some a -> at_ l i s = Some (a, s).
Proof. intros. apply at_Some. eauto. Qed.

Ltac run_at :=
  rewrite ?bind_assoc;
  erewrite (bind_run (at_ _ _)) by (apply at_lit; [lia | reflexivity]).

Lemma log_call_run c s : log_call c s = Some (tt, State (heap s) (calls s ++ [c])).
Proof. done. Qed.

(** The two [axpy] loops of a kernel. *)
Lemma axpy_pair_run g syn0 syn1 neu1e vl s :
  blk syn0 <> blk syn1 -> blk syn0 <> blk neu1e -> blk syn1 <> blk neu1e ->
  is_Some (row (heap s) syn0 vl) -> is_Some (row (heap s) syn1 vl) ->
  is_Some (row (heap s) neu1e vl) ->
  exists h',
    (axpy_loop g syn1 neu1e vl ;; axpy_loop g syn0 syn1 vl) s
      = Some (tt, State h' (calls s)) /\
    kernel_post (Some g) (heap s) syn0 syn1 neu1e vl h'.
Proof.
  intros H01 H0e H1e R0 R1 Re.
  destruct (update_loop_run (fun u v => g * u + v)%Qc syn1 neu1e vl s)
    as (h1 & Hrun1 & Hup1); [done..|].
  destruct (update_loop_run (fun u v => g * u + v)%Qc syn0 syn1 vl
              (State h1 (calls s))) as (h' & Hrun2 & Hup2); [done|..].
  { simpl. by erewrite updated_row_other. }
  { simpl. by erewrite updated_row_other. }
  exists h'. split; [|by exists h1].
  unfold axpy_loop. by run_with Hrun1.
Qed.

Lemma table_cell s expTable expLength tbl i :
  row (heap s) expTable expLength = Some tbl ->
  0 <= i < expLength ->
  exists f, tbl !! Z.to_nat i = Some f /\ cell (heap s) expTable i = Some f.
Proof.
  intros Hrow Hi. rewrite (row_cell _ _ _ _ _ Hrow) by done.
  destruct (lookup_lt_is_Some_2 tbl (Z.to_nat i)) as [f Hf]; [|eauto].
  rewrite (row_length _ _ _ _ Hrow). lia.
Qed.

Section kernels.
Context (s : state) (syn0 syn1 expTable neu1e : ptr).
Context (vectorLength expLength code : Z) (alpha : Qc).
Context (intArrays : list (list Z)) (reals : list Qc).
Context (e t a tbl : list Qc).
Hypothesis distinct01 : blk syn0 <> blk syn1.
Hypothesis distinct0e : blk syn0 <> blk neu1e.
Hypothesis distinct1e : blk syn1 <> blk neu1e.
Hypothesis expLength_int : int_range expLength = true.
Hypothesis row_syn0 : row (heap s) syn0 vectorLength = Some e.
Hypothesis row_syn1 : row (heap s) syn1 vectorLength = Some t.
Hypothesis row_neu1e : row (heap s) neu1e vectorLength = Some a.
Hypothesis row_expTable : row (heap s) expTable expLength = Some tbl.

Let arguments := [syn0; syn1; expTable; neu1e].
Let indexArguments := [vectorLength; expLength; code].
Let realArguments := alpha :: reals.
Let dot := dot_product e t.
Let idx := exp_bucket dot expLength.
Let hs_g := hs_gradient dot expLength code tbl alpha.
Let ns_g := ns_gradient dot expLength code tbl alpha.

Lemma HS_run :
  int_range (1 - code) = true ->
  exists h',
    HierarchicSoftmax.executeAggregate arguments indexArguments intArrays
      realArguments s
    = Some (tt, State h' (calls s ++ [Call HS arguments indexArguments])) /\
    kernel_post hs_g (heap s) syn0 syn1 neu1e vectorLength h' /\
    (is_Some hs_g -> 0 <= idx < expLength).
Proof.
  intros Hcode. unfold HierarchicSoftmax.executeAggregate.
  run_with (log_call_run (Call HS arguments indexArguments) s).
  set (s1 := State (heap s) (calls s ++ _)).
  do 8 run_at.
  run_with (dot_loop_run s1 syn0 syn1 vectorLength e t row_syn0 row_syn1).
  fold dot. unfold hs_g, hs_gradient. fold idx.
  destruct (bool_decide (dot < - HS_MAX_EXP)%Qc || bool_decide (HS_MAX_EXP <= dot)%Qc)
    eqn:Hsat.
  { exists (heap s). split; [done|]. split; [done|]. by intros []. }
  apply orb_false_iff in Hsat as [Hlo Hhi].
  apply bool_decide_eq_false in Hlo, Hhi.
  apply Qcnot_lt_le in Hlo. apply Qcnot_le_lt in Hhi.
  destruct (exp_index_run dot expLength s1 Hlo (Qclt_le_weak _ _ Hhi)
              expLength_int) as (i & Hi & Hskip & Hpos & Hlt).
  run_with Hi. fold idx in Hskip, Hpos.
  case_bool_decide as Hge.
  { rewrite bool_decide_true by by apply Hskip.
    exists (heap s). split; [done|]. split; [done|]. by intros []. }
  rewrite bool_decide_false by by rewrite <- Hskip.
  assert (0 < expLength).
  { destruct (Z_lt_le_dec 0 expLength); [done|].
    destruct Hge. apply Hskip. unfold idx.
    rewrite exp_bucket_scaled. apply Qfloor_lower.
    by apply (exp_scaled_bounds dot expLength Hlo (Qclt_le_weak _ _ Hhi)). }
  destruct Hpos as [-> Hidx]; [done|].
  destruct (table_cell s expTable expLength tbl idx row_expTable)
    as (f & Hf & Hcell); [lia|].
  run_with (load_run expTable idx s1 f Hcell).
  unfold isub. run_with (checked_run (1 - code) s1 Hcode).
  destruct (axpy_pair_run ((Qc_of_Z (1 - code) - f) * alpha)%Qc
              syn0 syn1 neu1e vectorLength s1) as (h' & Hrun & Hpost);
    [done..|by eexists|by eexists|by eexists|].
  exists h'. rewrite Hf. simpl. split; [done|]. split; [done|]. lia.
Qed.

Lemma NS_run :
  int_range (code - 1) = true -> int_range (code - 0) = true ->
  exists h',
    NegativeSampling.executeAggregate arguments indexArguments intArrays
      realArguments s
    = Some (tt, State h' (calls s ++ [Call NS arguments indexArguments])) /\
    kernel_post ns_g (heap s) syn0 syn1 neu1e vectorLength h' /\
    (~ (HS_MAX_EXP < dot)%Qc -> ~ (dot < - HS_MAX_EXP)%Qc ->
     is_Some ns_g -> 0 <= idx < expLength).
Proof.
  intros Hc1 Hc0. unfold NegativeSampling.executeAggregate.
  run_with (log_call_run (Call NS arguments indexArguments) s).
  set (s1 := State (heap s) (calls s ++ _)).
  do 8 run_at.
  run_with (dot_loop_run s1 syn0 syn1 vectorLength e t row_syn0 row_syn1).
  fold dot. unfold ns_g, ns_gradient, NegativeSampling.gradient. fold idx.
  assert (Hax : forall g, exists h',
    (axpy_loop g syn1 neu1e vectorLength ;; axpy_loop g syn0 syn1 vectorLength) s1
      = Some (tt, State h' (calls s1)) /\
    kernel_post (Some g) (heap s) syn0 syn1 neu1e vectorLength h').
  { intros g. apply (axpy_pair_run g syn0 syn1 neu1e vectorLength s1);
      try done; by eexists. }
  case_bool_decide as Hhi.
  { unfold isub. run_with (checked_run (code - 1) s1 Hc1). rewrite bind_ret.
    destruct (Hax (Qc_of_Z (code - 1) * alpha)%Qc) as (h' & Hrun & Hpost).
    exists h'. split; [done|]. split; [done|]. tauto. }
  case_bool_decide as Hlo.
  { unfold isub. run_with (checked_run (code - 0) s1 Hc0). rewrite bind_ret.
    destruct (Hax (Qc_of_Z (code - 0) * alpha)%Qc) as (h' & Hrun & Hpost).
    exists h'. split; [done|]. split; [done|]. tauto. }
  apply Qcnot_lt_le in Hlo, Hhi.
  destruct (exp_index_run dot expLength s1 Hlo Hhi expLength_int)
    as (i & Hi & Hskip & Hpos & Hlt).
  run_with Hi. fold idx in Hskip, Hpos.
  case_bool_decide as Hge.
  { rewrite bool_decide_true by by apply Hskip. rewrite bind_ret.
    exists (heap s). split; [done|]. split; [done|]. by intros _ _ []. }
  rewrite bool_decide_false by by rewrite <- Hskip.
  assert (0 < expLength).
  { destruct (Z_lt_le_dec 0 expLength); [done|].
    destruct Hge. apply Hskip. unfold idx.
    rewrite exp_bucket_scaled. apply Qfloor_lower.
    by apply (exp_scaled_bounds dot expLength Hlo Hhi). }
  destruct Hpos as [-> Hidx]; [done|].
  destruct (table_cell s expTable expLength tbl idx row_expTable)
    as (f & Hf & Hcell); [lia|].
  run_with (load_run expTable idx s1 f Hcell). rewrite bind_ret.
  destruct (Hax ((Qc_of_Z code - f) * alpha)%Qc) as (h' & Hrun & Hpost).
  exists h'. rewrite Hf. simpl. split; [done|]. split; [done|]. lia.
Qed.
End kernels.

(** ** The two kernels *)

Lemma zip_with_axpy (g : Qc) (X Y : list Qc) :
  zip_with (fun u v => g * u + v)%Qc X Y
  = zip_with (fun v u => v + g * u)%Qc Y X.
Proof.
  revert Y. induction X as [|u X IH]; intros [|v Y]; simpl; try done.
  by rewrite IH, Qcplus_comm.
Qed.

Lemma kernel_post_rows g h syn0 syn1 neu1e vl h' e t a :
  blk syn0 <> blk syn1 -> blk syn0 <> blk neu1e -> blk syn1 <> blk neu1e ->
  row h syn0 vl = Some e -> row h syn1 vl = Some t -> row h neu1e vl = Some a ->
  kernel_post (Some g) h syn0 syn1 neu1e vl h' ->
  row h' syn0 vl = Some e /\ rows_updated g h' syn1 neu1e vl e t a.
Proof.
  intros H01 H0e H1e R0 R1 Re (h1 & U1 & U2).
  pose proof (updated_row_target _ _ _ _ _ _ _ _ U1 R1 Re) as Re1.
  rewrite <- (updated_row_other _ _ _ _ _ _ _ syn0 vl U1) in R0 by done.
  rewrite <- (updated_row_other _ _ _ _ _ _ _ syn1 vl U1) in R1 by done.
  pose proof (updated_row_target _ _ _ _ _ _ _ _ U2 R0 R1) as R12.
  rewrite <- (updated_row_other _ _ _ _ _ _ _ syn0 vl U2) in R0 by done.
  rewrite <- (updated_row_other _ _ _ _ _ _ _ neu1e vl U2) in Re1 by done.
  rewrite zip_with_axpy in Re1, R12. done.
Qed.





(** ** The bucket index in [T = float] *)



(** C9. In both kernels, with [expLength > 0] and exact arithmetic, the
    bucket index is within [0, expLength) whenever [expTable] is read:
    the saturation guards make [dot + 6.0] non-negative before the index
    is formed, and the [idx >= expLength] branch returns before the
    lookup.  So the lookup never leaves the table, and neither kernel
    fails on rows and a table that are allocated. *)
Theorem C9_table_index_in_range
    (s : state) (syn0 target expTable neu1e : ptr)
    (vectorLength expLength code : Z) (alpha : Qc)
    (intArrays : list (list Z)) (reals : list Qc) (tbl : list Qc) (dot : Qc) :
  0 < expLength -> int_range expLength = true ->
  row (heap s) expTable expLength = Some tbl ->
  (* HierarchicSoftmax: the guard at line 59 was passed *)
  (~ (dot < - HS_MAX_EXP)%Qc -> ~ (HS_MAX_EXP <= dot)%Qc ->
   exists idx,
     run (exp_index dot expLength) s = Some (idx, s) /\
     0 <= idx < expLength /\
     is_Some (run (load expTable idx) s)) /\
  (* NegativeSampling: the middle case at line 188 was entered *)
  (~ (HS_MAX_EXP < dot)%Qc -> ~ (dot < - HS_MAX_EXP)%Qc ->
   exists idx,
     run (exp_index dot expLength) s = Some (idx, s) /\
     0 <= idx /\
     (~ expLength <= idx -> idx < expLength /\ is_Some (run (load expTable idx) s))) /\
  (* hence neither kernel fails *)
  (blk syn0 <> blk target -> blk syn0 <> blk neu1e -> blk target <> blk neu1e ->
   is_Some (row (heap s) syn0 vectorLength) ->
   is_Some (row (heap s) target vectorLength) ->
   is_Some (row (heap s) neu1e vectorLength) ->
   int_range (1 - code) = true -> int_range (code - 1) = true ->
   int_range code = true ->
   is_Some (run (HierarchicSoftmax.executeAggregate
                   [syn0; target; expTable; neu1e]
                   [vectorLength; expLength; code] intArrays (alpha :: reals)) s) /\
   is_Some (run (NegativeSampling.executeAggregate
                   [syn0; target; expTable; neu1e]
                   [vectorLength; expLength; code] intArrays (alpha :: reals)) s)).
Proof.
  intros HL0 HL Rt.
  assert (Hload : forall i, 0 <= i < expLength -> is_Some (run (load expTable i) s)).
  { intros i Hi.
    destruct (table_cell s expTable expLength tbl i Rt Hi) as (f & _ & Hc).
    unfold run. rewrite (load_run _ _ _ _ Hc). by eexists. }
  split; [|split].
  - intros Hlo%Qcnot_lt_le Hhi%Qcnot_le_lt.
    destruct (exp_index_run dot expLength s Hlo (Qclt_le_weak _ _ Hhi) HL)
      as (idx & Hrun & _ & Hpos & Hlt).
    exists idx. destruct Hpos as [_ ?]; [done|].
    specialize (Hlt HL0 Hhi). split; [done|]. split; [lia|]. apply Hload. lia.
  - intros Hhi%Qcnot_lt_le Hlo%Qcnot_lt_le.
    destruct (exp_index_run dot expLength s Hlo Hhi HL)
      as (idx & Hrun & _ & Hpos & _).
    exists idx. destruct Hpos as [_ ?]; [done|].
    split; [done|]. split; [lia|]. intros Hn. split; [lia|]. apply Hload. lia.
  - intros H01 H0e H1e [e R0] [t R1] [a Re] Hc Hc1 Hc0.
    rewrite <- (Z.sub_0_r code) in Hc0. split.
    + destruct (HS_run s syn0 target expTable neu1e vectorLength expLength code
                  alpha intArrays reals e t a tbl H01 H0e H1e HL R0 R1 Re Rt Hc)
        as (h' & Hrun & _).
      unfold run. rewrite Hrun. by eexists.
    + destruct (NS_run s syn0 target expTable neu1e vectorLength expLength code
                  alpha intArrays reals e t a tbl H01 H0e H1e HL R0 R1 Re Rt
                  Hc1 Hc0) as (h' & Hrun & _).
      unfold run. rewrite Hrun. by eexists.
Qed.

Lemma C9_table_index_in_range_witness :
  let e := [Qc_of_Z 1; Qc_of_Z 0; Qc_of_Z 0; Qc_of_Z 0] in
  let t := [Qc_of_Z 0; Qc_of_Z 1; Qc_of_Z 0; Qc_of_Z 0] in
  let alpha := (Qc_of_Z 1 / Qc_of_Z 10)%Qc in
  let s := State (example_heap e t) [] in
  exists idx,
    run (exp_index (dot_product e t) 2) s = Some (idx, s) /\
    0 <= idx < 2 /\
    is_Some (run (load (Ptr 2 0) idx) s).
Proof.
  intros e t alpha s.
  refine (proj1 (C9_table_index_in_range s (Ptr 0 0) (Ptr 1 0) (Ptr 2 0)
                   (Ptr 3 0) 4 2 1 alpha [] [] _ (dot_product e t) _ _ _) _ _);
    [lia | reflexivity | reflexivity | by vm_compute | by vm_compute].
Defined.

Lemma exp_bucket_max (L : Z) : exp_bucket HS_MAX_EXP L = L.
Proof. by rewrite exp_bucket_scaled, exp_scaled_max, Qfloor_Qc_of_Z. Qed.

Lemma exp_bucket_min (L : Z) : exp_bucket (- HS_MAX_EXP) L = 0.
Proof. by rewrite exp_bucket_scaled, exp_scaled_min. Qed.

(** C10. The negative-sampling kernel is asymmetric at the saturation
    bounds (exact arithmetic): a dot product of exactly 6.0 takes the
    middle case, computes [idx = expLength] and returns without updating
    [neu1e] or the target row; a dot product of exactly -6.0 also takes
    the middle case, computes [idx = 0] and applies the full update with
    [g = (code - expTable[0]) * alpha]. *)
Theorem C10_negative_sampling_boundaries
    (s : state) (syn0 syn1Neg expTable neu1e : ptr)
    (vectorLength expLength code : Z) (alpha : Qc)
    (intArrays : list (list Z)) (reals : list Qc) (e t a tbl : list Qc) :
  blk syn0 <> blk syn1Neg -> blk syn0 <> blk neu1e -> blk syn1Neg <> blk neu1e ->
  int_range expLength = true ->
  int_range (code - 1) = true -> int_range code = true ->
  row (heap s) syn0 vectorLength = Some e ->
  row (heap s) syn1Neg vectorLength = Some t ->
  row (heap s) neu1e vectorLength = Some a ->
  row (heap s) expTable expLength = Some tbl ->
  let dot := dot_product e t in
  exists s',
    run (NegativeSampling.executeAggregate [syn0; syn1Neg; expTable; neu1e]
           [vectorLength; expLength; code] intArrays (alpha :: reals)) s
    = Some (tt, s') /\
    (dot = HS_MAX_EXP ->
       ~ (HS_MAX_EXP < dot)%Qc /\ ~ (dot < - HS_MAX_EXP)%Qc /\
       exp_bucket dot expLength = expLength /\
       heap s' = heap s) /\
    (dot = (- HS_MAX_EXP)%Qc -> 0 < expLength ->
       ~ (HS_MAX_EXP < dot)%Qc /\ ~ (dot < - HS_MAX_EXP)%Qc /\
       exp_bucket dot expLength = 0 /\
       exists f, tbl !! 0%nat = Some f /\
         rows_updated ((Qc_of_Z code - f) * alpha)%Qc (heap s') syn1Neg neu1e
           vectorLength e t a).
Proof.
  intros H01 H0e H1e HL Hc1 Hc0 R0 R1 Re Rt dot.
  rewrite <- (Z.sub_0_r code) in Hc0.
  destruct (NS_run s syn0 syn1Neg expTable neu1e vectorLength expLength code
              alpha intArrays reals e t a tbl H01 H0e H1e HL R0 R1 Re Rt Hc1 Hc0)
    as (h' & Hrun & Hpost & _).
  eexists. split; [exact Hrun|]. simpl.
  unfold ns_gradient in Hpost. fold dot in Hpost.
  split.
  - intros Hd. rewrite Hd in *.
    rewrite bool_decide_false in Hpost by done.
    rewrite bool_decide_false in Hpost by done.
    rewrite exp_bucket_max in *.
    rewrite bool_decide_true in Hpost by lia. done.
  - intros Hd HL0. rewrite Hd in *.
    rewrite bool_decide_false in Hpost by done.
    rewrite bool_decide_false in Hpost by done.
    rewrite exp_bucket_min in *.
    rewrite bool_decide_false in Hpost by lia.
    do 3 (split; [done|]).
    destruct (lookup_lt_is_Some_2 tbl 0) as [f Hf].
    { rewrite (row_length _ _ _ _ Rt). lia. }
    change (Z.to_nat 0) with 0%nat in Hpost. rewrite Hf in Hpost.
    exists f. split; [done|].
    by destruct (kernel_post_rows _ _ _ _ _ _ _ e t a H01 H0e H1e R0 R1 Re Hpost).
Qed.

Lemma C10_negative_sampling_boundaries_witness :
  let t := [Qc_of_Z 1; Qc_of_Z 0] in
  let a := replicate 2 0%Qc in
  let alpha := (Qc_of_Z 1 / Qc_of_Z 10)%Qc in
  let args := [Ptr 0 0; Ptr 1 0; Ptr 2 0; Ptr 3 0] in
  let upper := State (example_heap [Qc_of_Z 6; Qc_of_Z 0] t) [] in
  let lower := State (example_heap [Qc_of_Z (-6); Qc_of_Z 0] t) [] in
  (exists s',
     run (NegativeSampling.executeAggregate args [2; 2; 0] [] [alpha]) upper
     = Some (tt, s') /\ heap s' = heap upper) /\
  (exists s',
     run (NegativeSampling.executeAggregate args [2; 2; 0] [] [alpha]) lower
     = Some (tt, s') /\
     rows_updated ((Qc_of_Z 0 - Qc_of_Z 1 / Qc_of_Z 4) * alpha)%Qc (heap s')
       (Ptr 1 0) (Ptr 3 0) 2 [Qc_of_Z (-6); Qc_of_Z 0] t a).
Proof.
  intros t a alpha args upper lower. split.
  - destruct (C10_negative_sampling_boundaries upper (Ptr 0 0) (Ptr 1 0)
                (Ptr 2 0) (Ptr 3 0) 2 2 0 alpha [] []
                [Qc_of_Z 6; Qc_of_Z 0] t a
                [Qc_of_Z 1 / Qc_of_Z 4; Qc_of_Z 1 / Qc_of_Z 2]%Qc)
      as (s' & Hrun & Hup & _);
      [simpl; lia | simpl; lia | simpl; lia | reflexivity | reflexivity
      | reflexivity | reflexivity | reflexivity | reflexivity | reflexivity |].
    exists s'. split; [exact Hrun|]. apply Hup. apply Qc_is_canon. reflexivity.
  - destruct (C10_negative_sampling_boundaries lower (Ptr 0 0) (Ptr 1 0)
                (Ptr 2 0) (Ptr 3 0) 2 2 0 alpha [] []
                [Qc_of_Z (-6); Qc_of_Z 0] t a
                [Qc_of_Z 1 / Qc_of_Z 4; Qc_of_Z 1 / Qc_of_Z 2]%Qc)
      as (s' & Hrun & _ & Hlow);
      [simpl; lia | simpl; lia | simpl; lia | reflexivity | reflexivity
      | reflexivity | reflexivity | reflexivity | reflexivity | reflexivity |].
    exists s'. split; [exact Hrun|].
    destruct Hlow as (_ & _ & _ & f & Hf & Hrows);
      [apply Qc_is_canon; reflexivity | lia |].
    injection Hf as <-. exact Hrows.
Defined.

(** ** Effects of the kernels on the heap and on the log *)

#[export] Instance frame_preorder bs : PreOrder (frame bs).
Proof.
  split.
  - by intros s.
  - intros s1 s2 s3 [L1 F1] [L2 F2]. split; [congruence|].
    intros b Hb. by rewrite F2, F1.
Qed.

#[export] Instance effect_preorder bs : PreOrder (effect bs).
Proof.
  split.
  - intros s. split; reflexivity.
  - intros s1 s2 s3 [C1 F1] [C2 F2]. split; [congruence|by etrans].
Qed.

Lemma effect_store bs p i v : blk p ∈ bs -> preserves (effect bs) (store p i v).
Proof.
  intros Hin s [] s' Hs. split.
  - apply store_Some in Hs as (h & _ & [= ->]). done.
  - by eapply preserves_store.
Qed.

Lemma effect_update_loop bs f x_ y n :
  blk y ∈ bs -> preserves (effect bs) (update_loop f x_ y n).
Proof.
  intros Hin. unfold update_loop. apply preserves_for; [apply _|].
  intros i []. apply preserves_bind; [apply _|..].
  { apply preserves_stateless; [apply _|solve_stateless]. }
  intros u. apply preserves_bind; [apply _|..].
  { apply preserves_stateless; [apply _|solve_stateless]. }
  intros v. by apply effect_store.
Qed.

Ltac effect_step :=
  match goal with
  | |- preserves _ (bind _ _) => apply preserves_bind; [apply _| |intros ?]
  | |- preserves _ (if ?b then _ else _) => destruct b
  | |- preserves _ (match ?o with Some _ => _ | None => _ end) => destruct o
  | |- preserves _ (ret _) => apply preserves_ret; apply _
  | |- preserves _ (axpy_loop _ _ _ _) =>
      apply effect_update_loop; simpl; rewrite !elem_of_cons; tauto
  | |- preserves _ _ =>
      apply preserves_stateless;
      [apply _ | first [apply stateless_exp_index | apply stateless_gradient
                       | apply stateless_dot_loop | solve_stateless]]
  end.

Ltac invert_at H x Hx :=
  let s := fresh "s" in
  apply bind_Some in H as (x & s & (_ & ? & Hx & [= <- ->])%at_Some & H).

Lemma kernel_effect (k : kernel) arguments indexArguments intArrays
    realArguments s s' :
  (match k with
   | HS => HierarchicSoftmax.executeAggregate
   | NS => NegativeSampling.executeAggregate
   end) arguments indexArguments intArrays realArguments s = Some (tt, s') ->
  exists target neu1e,
    arguments !! 1%nat = Some target /\ arguments !! 3%nat = Some neu1e /\
    calls s' = calls s ++ [Call k arguments indexArguments] /\
    frame [blk target; blk neu1e] s s'.
Proof.
  intros H.
  destruct k; unfold HierarchicSoftmax.executeAggregate,
    NegativeSampling.executeAggregate in H;
    apply bind_Some in H as ([] & s1 & [= Hs1] & H); subst s1;
    invert_at H vectorLength Hvl; invert_at H expLength HL;
    invert_at H code Hcode; invert_at H syn0 H0; invert_at H syn1 H1;
    invert_at H expTable Ht; invert_at H neu1e He; invert_at H alpha Ha;
    exists syn1, neu1e; (split; [done|]); (split; [done|]);
    revert H;
    match goal with
    | |- ?c ?s = _ -> _ =>
        assert (Hp : preserves (effect [blk syn1; blk neu1e]) c)
          by repeat effect_step
    end;
    intros [Hc Hf]%Hp; done.
Qed.

(** ** Loop invariants *)

Lemma for_from_inv {St} (body : Z -> St -> M St)
    (I : Z -> St -> state -> Prop) :
  (forall i v s v1 s1, I i v s -> body i v s = Some (v1, s1) -> I (i + 1) v1 s1) ->
  forall (k : nat) i v s v' s',
    I i v s -> for_from k i body v s = Some (v', s') -> I (i + Z.of_nat k) v' s'.
Proof.
  intros Hstep k. induction k as [|k IH]; intros i v s v' s' HI Hrun.
  - injection Hrun as <- <-. by rewrite Z.add_0_r.
  - simpl in Hrun. apply bind_Some in Hrun as (v1 & s1 & Hb & Hrest).
    replace (i + Z.of_nat (S k)) with (i + 1 + Z.of_nat k) by lia.
    eapply IH; [|done]. by eapply Hstep.
Qed.

Lemma agree_except_refl {A} i (l : list A) : agree_except i l l.
Proof. by split. Qed.

Lemma agree_except_insert {A} i (l l' : list A) x :
  agree_except i l l' -> agree_except i l (<[i := x]> l').
Proof.
  intros [Hlen H]. split; [by rewrite length_insert|].
  intros j Hj. rewrite list_lookup_insert_ne by done. by apply H.
Qed.

Lemma agree_except_eq {A} i (l l' : list A) y :
  agree_except i l l' -> <[i := y]> l' = <[i := y]> l.
Proof.
  intros [Hlen H]. apply list_eq. intros j.
  destruct (decide (j = i)) as [->|Hj].
  - destruct (decide (i < length l)%nat).
    + rewrite !list_lookup_insert_eq by lia. done.
    + rewrite !list_insert_ge by lia. rewrite !lookup_ge_None_2 by lia. done.
  - rewrite !list_lookup_insert_ne by done. by apply H.
Qed.

(** ** The hierarchical-softmax rounds *)

Lemma hierarchic_rounds_effect hsRounds vl syn1 idxSyn1 codes reals
    args0 idx0 neu1e s st' s' :
  hierarchic_rounds hsRounds vl syn1 idxSyn1 codes reals (args0, idx0) s
    = Some (st', s') ->
  args0 !! 3%nat = Some neu1e ->
  exists hs,
    calls s' = calls s ++ hs /\
    Forall (fun c => call_kernel c = HS) hs /\
    frame [blk syn1; blk neu1e] s s' /\
    agree_except 1 args0 st'.1 /\ agree_except 2 idx0 st'.2.
Proof.
  intros Hrun Hne.
  set (I := fun (_ : Z) (st : list ptr * list Z) (s1 : state) =>
    exists hs,
      calls s1 = calls s ++ hs /\
      Forall (fun c => call_kernel c = HS) hs /\
      frame [blk syn1; blk neu1e] s s1 /\
      agree_except 1 args0 st.1 /\ agree_except 2 idx0 st.2).
  assert (HI0 : I 0 (args0, idx0) s).
  { exists []. rewrite app_nil_r. repeat split; try done. }
  unfold hierarchic_rounds in Hrun. case_bool_decide.
  2:{ injection Hrun as <- <-. exact HI0. }
  unfold for_ in Hrun.
  refine (for_from_inv _ I _ _ _ _ _ _ _ HI0 Hrun).
  clear Hrun HI0. intros i [args idxArgs] s1 st1 s2 (hs & Hc & Hhs & Hf & Ha & Hi) Hb.
  apply bind_Some in Hb as (n & ? & (_ & ? & _ & [= <- ->])%at_Some & Hb).
  apply bind_Some in Hb as (off & ? & [_ [= -> ->]]%checked_Some & Hb).
  apply bind_Some in Hb as (c & ? & (_ & ? & _ & [= <- ->])%at_Some & Hb).
  apply bind_Some in Hb as ([] & s3 & Hk & [= <- <-]).
  apply (kernel_effect HS) in Hk as (tg & ne & Htg & Hne' & Hc' & Hf').
  simpl in Ha, Hi.
  pose proof (lookup_lt_Some _ _ _ Hne) as Hlen3.
  rewrite list_lookup_insert_eq in Htg by (destruct Ha as [Hl _]; lia).
  rewrite list_lookup_insert_ne in Hne' by done.
  rewrite (proj2 Ha 3%nat) in Hne' by done.
  injection Htg as <-. assert (ne = neu1e) as -> by congruence.
  eexists (hs ++ [_]). simpl. split; [by rewrite Hc', Hc, <- app_assoc|].
  split; [apply Forall_app; split; [done|by constructor]|].
  split; [by etrans|]. split; by apply agree_except_insert.
Qed.

(** ** The negative-sampling rounds *)

Lemma u64_small z : 0 <= z < 2 ^ 64 -> u64 z = z.
Proof. intros. unfold u64. by apply Z.mod_small. Qed.

Lemma to_int32_small z : INT_MIN <= z <= INT_MAX -> to_int32 z = z.
Proof.
  unfold to_int32, INT_MIN, INT_MAX. intros.
  rewrite Z.mod_small by lia. lia.
Qed.

Lemma next_random_step_range r : 0 <= next_random_step r < 2 ^ 64.
Proof. unfold next_random_step, u64. apply Z.mod_pos_bound. lia. Qed.

(** A draw of the code is the draw of the specification. *)
Lemma draw_target_Some negTable len vocab r s t s' tbl :
  draw_target negTable len vocab r s = Some (t, s') ->
  0 < len -> int_range len = true ->
  2 <= vocab -> int_range vocab = true ->
  0 <= r ->
  row (heap s) negTable len = Some tbl ->
  s' = s /\ t = draw_spec tbl len vocab r /\ 0 < t < vocab.
Proof.
  intros Hrun Hlen0 Hlen Hv2 Hv Hr Hrow.
  apply int_range_spec in Hlen, Hv. unfold INT_MIN, INT_MAX in *.
  unfold draw_target in Hrun.
  apply bind_Some in Hrun as (i & ? & [_ [= -> ->]]%umod_Some & Hrun).
  rewrite u64_small in Hrun by lia.
  assert (Hi : 0 <= Z.shiftr r 16 mod len < len) by (apply Z.mod_pos_bound; lia).
  apply bind_Some in Hrun as (v & ? & (? & Hc & [= <- ->])%load_Some & Hrun).
  rewrite (row_cell _ _ _ _ _ Hrow) in Hc by done.
  apply bind_Some in Hrun as (t0 & ? & [Ht0 [= -> ->]]%checked_Some & Hrun).
  unfold draw_spec. rewrite Hc. simpl.
  destruct (bool_decide (Qtrunc v <= 0) || bool_decide (vocab <= Qtrunc v)) eqn:Hb.
  - apply orb_true_iff in Hb. rewrite !bool_decide_eq_true in Hb.
    rewrite bool_decide_true by done.
    apply bind_Some in Hrun as (d & ? & [_ [= -> ->]]%checked_Some & Hrun).
    apply bind_Some in Hrun as (m & ? & [_ [= -> ->]]%umod_Some & Hrun).
    injection Hrun as <- <-.
    rewrite (u64_small (vocab - 1)) by lia.
    assert (0 <= r mod (vocab - 1) < vocab - 1) by (apply Z.mod_pos_bound; lia).
    rewrite u64_small, to_int32_small by (unfold INT_MIN, INT_MAX; lia).
    split; [done|]. split; [done|lia].
  - apply orb_false_iff in Hb. rewrite !bool_decide_eq_false in Hb.
    rewrite bool_decide_false by tauto.
    injection Hrun as <- <-. split; [done|]. split; [done|lia].
Qed.

Lemma random_states_S seed n :
  random_states seed (S n) = random_states seed n ++ [nth_random seed (S n)].
Proof. unfold random_states. by rewrite seq_S, map_app. Qed.

Lemma draws_S tbl len vocab seed n :
  draws tbl len vocab seed (S n)
  = draws tbl len vocab seed n ++ [draw_spec tbl len vocab (nth_random seed (S n))].
Proof. unfold draws. by rewrite random_states_S, map_app. Qed.

Lemma length_draws tbl len vocab seed n : length (draws tbl len vocab seed n) = n.
Proof. unfold draws, random_states. by rewrite !length_map, length_seq. Qed.

Lemma negative_call_effect vl syn1Neg reals v s v' s' args0 neu1e :
  negative_call vl syn1Neg reals v s = Some (v', s') ->
  agree_except 1 args0 (ng_args v) -> args0 !! 3%nat = Some neu1e ->
  calls s' = calls s ++
    [Call NS (<[1%nat := ptr_add syn1Neg (ng_target v * vl)]> args0)
       (ng_idxArgs v)] /\
  frame [blk syn1Neg; blk neu1e] s s' /\
  agree_except 1 args0 (ng_args v') /\
  ng_idxArgs v' = ng_idxArgs v /\
  ng_next_random v' = ng_next_random v /\
  ng_target v' = ng_target v.
Proof.
  intros Hrun Ha Hne. unfold negative_call in Hrun.
  apply bind_Some in Hrun as (off & ? & [_ [= -> ->]]%checked_Some & Hrun).
  apply bind_Some in Hrun as ([] & s3 & Hk & [= <- <-]).
  apply (kernel_effect NS) in Hk as (tg & ne & Htg & Hne' & Hc' & Hf').
  pose proof (lookup_lt_Some _ _ _ Hne) as Hlen3.
  rewrite list_lookup_insert_eq in Htg by (destruct Ha as [Hl _]; lia).
  rewrite list_lookup_insert_ne in Hne' by done.
  rewrite (proj2 Ha 3%nat) in Hne' by done.
  injection Htg as <-. assert (ne = neu1e) as -> by congruence.
  simpl. rewrite (agree_except_eq _ _ _ _ Ha) in Hc'.
  split; [done|]. split; [done|]. split; [by apply agree_except_insert|]. done.
Qed.

Lemma nth_random_nonneg seed k : 0 <= nth_random seed (S k).
Proof. simpl. apply next_random_step_range. Qed.

Lemma negative_rounds_effect ngRounds ngStarter vl len vocab syn1Neg negTable
    reals args0 idx0 seed s v' s' neu1e tbl :
  negative_rounds ngRounds ngStarter vl len vocab syn1Neg negTable reals
    (args0, idx0) seed s = Some (v', s') ->
  0 < ngRounds ->
  0 < len -> int_range len = true ->
  2 <= vocab -> int_range vocab = true ->
  row (heap s) negTable len = Some tbl ->
  args0 !! 3%nat = Some neu1e ->
  blk negTable <> blk syn1Neg -> blk negTable <> blk neu1e ->
  let candidates := draws tbl len vocab seed (Z.to_nat ngRounds) in
  calls s' = calls s ++ ns_calls args0 idx0 syn1Neg vl ngStarter candidates /\
  frame [blk syn1Neg; blk neu1e] s s' /\
  Forall (fun t => 0 < t < vocab) candidates /\
  ng_next_random v' = nth_random seed (Z.to_nat ngRounds).
Proof.
  intros Hrun Hn Hlen0 Hlen Hv2 Hv Hrow Hne Hblk1 Hblk2 candidates.
  unfold negative_rounds in Hrun. rewrite bool_decide_true in Hrun by done.
  apply bind_Some in Hrun as (n & ? & [_ [= -> ->]]%checked_Some & Hrun).
  unfold for_ in Hrun.
  replace (Z.to_nat (ngRounds + 1)) with (S (Z.to_nat ngRounds)) in Hrun by lia.
  simpl in Hrun. apply bind_Some in Hrun as (v1 & s1 & Hfirst & Hrun).
  try rewrite bool_decide_true in Hfirst by done.
  apply (negative_call_effect _ _ _ _ _ _ _ args0 neu1e) in Hfirst
    as (Hc1 & Hf1 & Ha1 & Hi1 & Hr1 & Ht1);
    [|apply agree_except_refl|done].
  simpl in Hc1, Hi1, Hr1, Ht1.
  set (I := fun (i : Z) (v : ng_vars) (s2 : state) =>
    1 <= i /\
    ng_next_random v = nth_random seed (Z.to_nat (i - 1)) /\
    calls s2 = calls s ++ ns_calls args0 idx0 syn1Neg vl ngStarter
                 (draws tbl len vocab seed (Z.to_nat (i - 1))) /\
    frame [blk syn1Neg; blk neu1e] s s2 /\
    Forall (fun t => 0 < t < vocab) (draws tbl len vocab seed (Z.to_nat (i - 1))) /\
    agree_except 1 args0 (ng_args v) /\
    agree_except 2 idx0 (ng_idxArgs v)).
  assert (HI1 : I (0 + 1) v1 s1).
  { unfold I. simpl. split; [lia|]. split; [done|]. split; [done|].
    split; [done|]. split; [constructor|]. split; [done|].
    rewrite Hi1. apply agree_except_insert, agree_except_refl. }
  match type of Hrun with
  | for_from _ _ ?body _ _ = _ => pose proof (for_from_inv body I) as Hinv
  end.
  specialize (Hinv) with (2 := HI1) (3 := Hrun).
  destruct Hinv as (_ & Hr & Hc & Hf & Hd & _).
  2:{ replace (Z.to_nat (0 + 1 + Z.of_nat (Z.to_nat ngRounds) - 1))
        with (Z.to_nat ngRounds) in * by lia. done. }
  clear -Hlen0 Hlen Hv2 Hv Hrow Hne Hblk1 Hblk2.
  intros i v s2 v2 s3 (Hi & Hr & Hc & Hf & Hd & Ha & Hx) Hb.
  rewrite bool_decide_false in Hb by lia. unfold I. clear I.
  set (j := Z.to_nat (i - 1)) in *.
  replace (Z.to_nat (i + 1 - 1)) with (S j) by lia.
  rewrite draws_S.
  apply bind_Some in Hb as (t & s4 & Hdraw & Hb).
  rewrite Hr in Hdraw. change (next_random_step (nth_random seed j))
    with (nth_random seed (S j)) in Hdraw.
  apply (draw_target_Some _ _ _ _ _ _ _ tbl) in Hdraw as (-> & -> & Hrange);
    try done.
  2:{ apply nth_random_nonneg. }
  2:{ rewrite <- Hrow. apply row_ext. apply Hf.
      rewrite !elem_of_cons, elem_of_nil. tauto. }
  assert (Hd' : Forall (fun t => 0 < t < vocab)
                  (draws tbl len vocab seed j ++
                   [draw_spec tbl len vocab (nth_random seed (S j))])).
  { apply Forall_app. split; [done|]. by constructor. }
  rewrite Hr in Hb. change (next_random_step (nth_random seed j))
    with (nth_random seed (S j)) in Hb.
  unfold ns_calls. rewrite list.filter_app, map_app.
  case_bool_decide as Hcol.
  - injection Hb as <- <-. simpl.
    rewrite filter_cons_False, filter_nil by (intros ?; done).
    simpl. rewrite app_nil_r. split; [lia|]. done.
  - apply (negative_call_effect _ _ _ _ _ _ _ args0 neu1e) in Hb
      as (Hc2 & Hf2 & Ha2 & Hi2 & Hr2 & Ht2); [|done..].
    simpl in Hc2, Hi2, Hr2, Ht2.
    rewrite filter_cons_True, filter_nil by done. simpl.
    split; [lia|]. split; [done|]. split.
    { rewrite Hc2, Hc. unfold ns_calls, ns_call. simpl.
      rewrite (agree_except_eq _ _ _ _ Hx).
      by rewrite <- app_assoc. }
    split; [by etrans|]. split; [done|]. split; [done|].
    rewrite Hi2. by apply agree_except_insert.
Qed.

(** ** Successful updates *)

Lemma update_from_valid f x_ y : blk x_ <> blk y ->
  forall (k : nat) i s r,
  for_from k i
    (fun x _ => u <- load x_ x ;; v <- load y x ;; store y x (f u v)) tt s
  = Some r ->
  forall j, i <= j < i + Z.of_nat k ->
    is_Some (cell (heap s) x_ j) /\ is_Some (cell (heap s) y j).
Proof.
  intros Hblk k. induction k as [|k IH]; intros i s r Hrun j Hj; [lia|].
  simpl in Hrun. apply bind_Some in Hrun as ([] & s1 & Hb & Hrest).
  apply bind_Some in Hb as (u & ? & (? & Hu & [= <- ->])%load_Some & Hb).
  apply bind_Some in Hb as (v & ? & (? & Hv & [= <- ->])%load_Some & Hb).
  apply store_Some in Hb as (h1 & Hset & [= ->]).
  destruct (decide (j = i)) as [->|Hne]; [by rewrite Hu, Hv|].
  destruct (IH _ _ _ Hrest j) as [Hx Hy]; [lia|]. simpl in Hx, Hy.
  rewrite (cell_set_cell _ _ _ _ _ _ _ Hset) in Hx.
  rewrite (cell_set_cell _ _ _ _ _ _ _ Hset) in Hy.
  rewrite decide_False in Hx by tauto. rewrite decide_False in Hy by lia. done.
Qed.

Lemma update_loop_Some f x_ y n s r :
  update_loop f x_ y n s = Some r -> blk x_ <> blk y ->
  exists h',
    r = (tt, State h' (calls s)) /\
    updated f (heap s) x_ y 0 (Z.max 0 n) h'.
Proof.
  intros Hrun Hblk.
  pose proof (update_from_valid f x_ y Hblk _ _ _ _ Hrun) as Hval.
  destruct (update_loop_run f x_ y n s Hblk) as (h' & Hrun' & Hup).
  - apply row_is_Some. intros j Hj. apply Hval. lia.
  - apply row_is_Some. intros j Hj. apply Hval. lia.
  - exists h'. split; [congruence|done].
Qed.

(** Adding a row of zeros changes nothing. *)
Lemma add_zero_from x_ y s : forall (k : nat) i,
  (forall j, i <= j < i + Z.of_nat k ->
     cell (heap s) x_ j = Some 0%Qc /\ is_Some (cell (heap s) y j)) ->
  for_from k i
    (fun x _ => u <- load x_ x ;; v <- load y x ;; store y x (v + u)%Qc) tt s
  = Some (tt, s).
Proof.
  induction k as [|k IH]; intros i H; [done|].
  destruct (H i) as [Hu [v Hv]]; [lia|].
  simpl. run_with (load_run _ _ _ _ Hu). run_with (load_run _ _ _ _ Hv).
  rewrite Qcplus_0_r.
  assert (Hst : store y i v s = Some (tt, s)).
  { apply store_Some. exists (heap s). split; [by apply set_cell_same|by destruct s]. }
  run_with Hst. apply IH. intros j Hj. apply H. lia.
Qed.

Lemma add_loop_zero x_ y n s :
  row (heap s) x_ n = Some (replicate (Z.to_nat n) 0%Qc) ->
  is_Some (row (heap s) y n) ->
  add_loop x_ y n s = Some (tt, s).
Proof.
  intros Hx [Y Hy]. apply add_zero_from. intros j Hj. split.
  - rewrite (row_cell _ _ _ _ _ Hx) by lia. apply lookup_replicate_2. lia.
  - rewrite (row_cell _ _ _ _ _ Hy) by lia. apply lookup_lt_is_Some.
    rewrite (row_length _ _ _ _ Hy). lia.
Qed.

(** A freshly allocated block. *)
Lemma new_zeroed_run n s :
  0 <= n ->
  new_zeroed n s
  = Some (Ptr (length (heap s)) 0,
          State (heap s ++ [Some (replicate (Z.to_nat n) 0%Qc)]) (calls s)).
Proof. intros. unfold new_zeroed. by rewrite bool_decide_true. Qed.

Lemma row_fresh (h : heap_t) n :
  row (h ++ [Some (replicate (Z.to_nat n) 0%Qc)]) (Ptr (length h) 0) n
  = Some (replicate (Z.to_nat n) 0%Qc).
Proof.
  apply row_Some. rewrite length_replicate. split; [done|].
  intros j Hj. unfold cell. simpl. rewrite bool_decide_true by lia.
  rewrite lookup_app_r, Nat.sub_diag by lia.
  cbn [lookup list_lookup]. f_equal. lia.
Qed.

Lemma row_app_l (h h2 : heap_t) p n :
  (blk p < length h)%nat -> row (h ++ h2) p n = row h p n.
Proof. intros. apply row_ext. by apply lookup_app_l. Qed.

Lemma delete_last (h : heap_t) d s :
  heap s = h ++ [Some d] ->
  delete (Ptr (length h) 0) s = Some (tt, State (h ++ [None]) (calls s)).
Proof.
  intros Hh. unfold delete. simpl. rewrite Hh.
  rewrite lookup_app_r, Nat.sub_diag by lia. simpl.
  do 3 f_equal. rewrite insert_app_r_alt, Nat.sub_diag by lia. done.
Qed.

(** ** SkipGram *)

Lemma to_u64_run x s :
  0 <= Qtrunc x < 2 ^ 64 -> to_u64 x s = Some (Qtrunc x, s).
Proof. intros. unfold to_u64. by rewrite bool_decide_true. Qed.

Lemma row_is_Some_blk h p n :
  0 < n -> is_Some (row h p n) -> (blk p < length h)%nat.
Proof.
  intros Hn [l Hl]. pose proof (row_cell _ _ _ _ 0 Hl) as Hc.
  pose proof (row_length _ _ _ _ Hl) as Hlen.
  destruct (lookup_lt_is_Some_2 l (Z.to_nat 0)) as [x Hx]; [lia|].
  rewrite Hx in Hc. specialize (Hc ltac:(lia)).
  unfold cell in Hc. case_bool_decide; [|done].
  destruct (h !! blk p) eqn:Hb; [|done]. by eapply lookup_lt_Some.
Qed.

Ltac run_checked :=
  rewrite ?bind_assoc;
  erewrite (bind_run (checked _)) by (apply checked_run; assumption).

(** C7. SkipGram with [hsRounds = 0] and [ngRounds = 0] leaves [syn0],
    [syn1] and [syn1Neg] (every block of the caller) entirely unchanged:
    the accumulated gradient is zero, and the final add contributes zero
    to the center row. *)
Theorem C7_skipgram_no_rounds
    (s : state) (syn0 syn1 expTable syn1Neg negTable : ptr)
    (syn0Row vectorLength expLength vocabSize ngStarter negTableLength : Z)
    (idxSyn1 codes : list Z) (intArrays : list (list Z))
    (alpha seed : Qc) (reals : list Qc) :
  0 < vectorLength ->
  int_range (syn0Row * vectorLength) = true ->
  0 <= Qtrunc seed < 2 ^ 64 ->
  is_Some (row (heap s) (ptr_add syn0 (syn0Row * vectorLength)) vectorLength) ->
  exists s',
    run (SkipGram.executeAggregate
           [syn0; syn1; expTable; syn1Neg; negTable]
           [syn0Row; vectorLength; 0; 0; expLength; vocabSize; ngStarter;
            negTableLength]
           (idxSyn1 :: codes :: intArrays) (alpha :: seed :: reals)) s
    = Some (tt, s') /\
    calls s' = calls s /\
    heap s' = heap s ++ [None] /\
    forall b, (b < length (heap s))%nat -> heap s' !! b = heap s !! b.
Proof.
  intros Hvl Hoff Hseed Hrow.
  exists (State (heap s ++ [None]) (calls s)). split.
  2:{ split; [done|]. split; [done|]. intros b Hb. simpl. by apply lookup_app_l. }
  unfold run, SkipGram.executeAggregate, SkipGram.prologue.
  do 8 run_at.
  run_with (new_zeroed_run vectorLength s ltac:(lia)).
  set (s0 := State (heap s ++ _) (calls s)).
  run_at. unfold imul. run_checked. do 7 run_at.
  run_with (to_u64_run seed s0 Hseed). rewrite bind_ret.
  unfold SkipGram.rounds, hierarchic_rounds, negative_rounds. simpl.
  rewrite bind_assoc, bind_ret, bind_ret.
  unfold SkipGram.finish. simpl.
  erewrite bind_run.
  2:{ apply add_loop_zero.
      - apply row_fresh.
      - unfold s0. simpl. rewrite row_app_l; [done|].
        by apply (row_is_Some_blk _ _ vectorLength). }
  exact (delete_last (heap s) _ s0 eq_refl).
Qed.

Lemma C7_skipgram_no_rounds_witness :
  let e := [Qc_of_Z 1; Qc_of_Z 0; Qc_of_Z 0; Qc_of_Z 0] in
  let t := [Qc_of_Z 0; Qc_of_Z 1; Qc_of_Z 0; Qc_of_Z 0] in
  let s := State (example_heap e t) [] in
  exists s',
    run (SkipGram.executeAggregate
           [Ptr 0 0; Ptr 1 0; Ptr 2 0; Ptr 3 0; Ptr 2 0]
           [0; 4; 0; 0; 2; 1; 0; 2] [[]; []]
           [Qc_of_Z 1 / Qc_of_Z 10; Qc_of_Z 7]%Qc) s
    = Some (tt, s') /\
    calls s' = calls s /\
    heap s' = heap s ++ [None] /\
    forall b, (b < length (heap s))%nat -> heap s' !! b = heap s !! b.
Proof.
  intros e t s.
  apply (C7_skipgram_no_rounds s (Ptr 0 0) (Ptr 1 0) (Ptr 2 0) (Ptr 3 0)
           (Ptr 2 0) 0 4 2 1 0 2 [] [] []
           (Qc_of_Z 1 / Qc_of_Z 10)%Qc (Qc_of_Z 7) []);
    [lia | reflexivity | by vm_compute | by eexists].
Defined.

(** ** CBOW *)

(** C6. CBOW with an empty context window ([idxSyn0Length = 0]): after the
    summing and averaging phase the working vector [neu1] is still the
    zero vector, and the phase performs no division (the division by
    [idxSyn0Length] is skipped), so none by zero. *)
Theorem C6_cbow_empty_window
    (s : state) (syn0 syn1 expTable syn1Neg negTable : ptr)
    (vectorLength hsRounds ngRounds expLength vocabSize ngStarter
       negTableLength initialIdx : Z)
    (idxSyn0 idxSyn1 codes : list Z) (intArrays : list (list Z))
    (alpha seed : Qc) (reals : list Qc) :
  0 < vectorLength ->
  0 <= Qtrunc seed < 2 ^ 64 ->
  let arguments := [syn0; syn1; expTable; syn1Neg; negTable] in
  let indexArguments :=
    [vectorLength; hsRounds; ngRounds; expLength; vocabSize; ngStarter;
     negTableLength; 0; initialIdx] in
  let ints := idxSyn0 :: idxSyn1 :: codes :: intArrays in
  let realArguments := alpha :: seed :: reals in
  exists e idxArgs next_random s0,
    run (CBOW.prologue arguments indexArguments ints realArguments) s
    = Some ((e, idxArgs, next_random), s0) /\
    CBOW.idxSyn0Length e = 0 /\
    CBOW.vectorLength e = vectorLength /\
    (* the phase changes nothing and does not fail *)
    run (CBOW.average_context e) s0 = Some (tt, s0) /\
    (* neu1 is the zero vector before and after it *)
    row (heap s0) (CBOW.neu1 e) vectorLength
    = Some (replicate (Z.to_nat vectorLength) 0%Qc) /\
    (* the rest of the invocation continues from there *)
    run (CBOW.executeAggregate arguments indexArguments ints realArguments) s
    = run (CBOW.rounds e realArguments idxArgs next_random ;;
           CBOW.scatter e ;; delete (CBOW.neu1 e) ;; delete (CBOW.neu1e e)) s0.
Proof.
  intros Hvl Hseed arguments indexArguments ints realArguments.
  set (s1 := State (heap s ++ [Some (replicate (Z.to_nat vectorLength) 0%Qc)])
               (calls s)).
  set (s0 := State (heap s1 ++ [Some (replicate (Z.to_nat vectorLength) 0%Qc)])
               (calls s)).
  assert (Hpro : exists e idxArgs,
    CBOW.prologue arguments indexArguments ints realArguments s
    = Some ((e, idxArgs, Qtrunc seed), s0) /\
    CBOW.idxSyn0Length e = 0 /\ CBOW.vectorLength e = vectorLength /\
    CBOW.neu1 e = Ptr (length (heap s)) 0).
  { unfold CBOW.prologue. do 12 run_at.
    run_with (new_zeroed_run vectorLength s ltac:(lia)). fold s1.
    run_with (new_zeroed_run vectorLength s1 ltac:(lia)). fold s0.
    do 6 run_at. run_with (to_u64_run seed s0 Hseed).
    eexists _, _. split; [reflexivity|]. done. }
  destruct Hpro as (e & idxArgs & Hpro & He & Hevl & Hneu1).
  exists e, idxArgs, (Qtrunc seed), s0.
  assert (Havg : CBOW.average_context e s0 = Some (tt, s0)).
  { unfold CBOW.average_context. rewrite He. done. }
  split; [done|]. split; [done|]. split; [done|]. split; [done|]. split.
  - rewrite Hneu1. unfold s0. simpl. rewrite row_app_l.
    + apply row_fresh.
    + simpl. rewrite length_app. simpl. lia.
  - unfold run, CBOW.executeAggregate. run_with Hpro. by run_with Havg.
Qed.

Lemma C6_cbow_empty_window_witness :
  let e0 := [Qc_of_Z 1; Qc_of_Z 0; Qc_of_Z 0; Qc_of_Z 0] in
  let t := [Qc_of_Z 0; Qc_of_Z 1; Qc_of_Z 0; Qc_of_Z 0] in
  let s := State (example_heap e0 t) [] in
  let arguments := [Ptr 0 0; Ptr 1 0; Ptr 2 0; Ptr 3 0; Ptr 2 0] in
  let indexArguments := [4; 0; 0; 2; 1; 0; 2; 0; 0] in
  let ints := [[]; []; []] in
  let realArguments := [Qc_of_Z 1 / Qc_of_Z 10; Qc_of_Z 7]%Qc in
  exists e idxArgs next_random s0,
    run (CBOW.prologue arguments indexArguments ints realArguments) s
    = Some ((e, idxArgs, next_random), s0) /\
    CBOW.idxSyn0Length e = 0 /\
    CBOW.vectorLength e = 4 /\
    run (CBOW.average_context e) s0 = Some (tt, s0) /\
    row (heap s0) (CBOW.neu1 e) 4 = Some (replicate (Z.to_nat 4) 0%Qc) /\
    run (CBOW.executeAggregate arguments indexArguments ints realArguments) s
    = run (CBOW.rounds e realArguments idxArgs next_random ;;
           CBOW.scatter e ;; delete (CBOW.neu1 e) ;; delete (CBOW.neu1e e)) s0.
Proof.
  intros e0 t s arguments indexArguments ints realArguments.
  apply (C6_cbow_empty_window s (Ptr 0 0) (Ptr 1 0) (Ptr 2 0) (Ptr 3 0)
           (Ptr 2 0) 4 0 0 2 1 0 2 0 [] [] [] []
           (Qc_of_Z 1 / Qc_of_Z 10)%Qc (Qc_of_Z 7) []);
    [lia | by vm_compute].
Defined.

(** *** Frames of the phases *)

Lemma negative_rounds_frame ngRounds ngStarter vl len vocab syn1Neg negTable
    reals args0 idx0 seed s v' s' neu1e :
  negative_rounds ngRounds ngStarter vl len vocab syn1Neg negTable reals
    (args0, idx0) seed s = Some (v', s') ->
  args0 !! 3%nat = Some neu1e ->
  frame [blk syn1Neg; blk neu1e] s s'.
Proof.
  intros Hrun Hne. unfold negative_rounds in Hrun.
  case_bool_decide; [|by injection Hrun as <- <-].
  apply bind_Some in Hrun as (n & ? & [_ [= -> ->]]%checked_Some & Hrun).
  set (I := fun (_ : Z) (v : ng_vars) (s1 : state) =>
    frame [blk syn1Neg; blk neu1e] s s1 /\ agree_except 1 args0 (ng_args v)).
  unfold for_ in Hrun.
  match type of Hrun with
  | for_from _ _ ?body _ _ = _ =>
      refine (proj1 (for_from_inv body I _ _ _ _ _ _ _ _ Hrun))
  end.
  2:{ split; [reflexivity|apply agree_except_refl]. }
  clear Hrun. intros i v s1 v1 s2 [Hf Ha] Hb.
  case_bool_decide.
  - apply (negative_call_effect _ _ _ _ _ _ _ args0 neu1e) in Hb
      as (_ & Hf2 & Ha2 & _); [|done..].
    split; [by etrans|done].
  - apply bind_Some in Hb as (t & s4 & Hdraw & Hb).
    apply stateless_draw_target in Hdraw as ->.
    case_bool_decide.
    + injection Hb as <- <-. done.
    + apply (negative_call_effect _ _ _ _ _ _ _ args0 neu1e) in Hb
        as (_ & Hf2 & Ha2 & _); [|done..].
      split; [by etrans|done].
Qed.

Lemma average_context_effect e :
  preserves (effect [blk (CBOW.neu1 e)]) (CBOW.average_context e).
Proof.
  unfold CBOW.average_context.
  assert (Hin : blk (CBOW.neu1 e) ∈ [blk (CBOW.neu1 e)]) by (constructor).
  apply preserves_bind; [apply _|..].
  - apply preserves_for; [apply _|]. intros c [].
    apply preserves_bind; [apply _|..].
    { apply preserves_stateless; [apply _|solve_stateless]. }
    intros w. apply preserves_bind; [apply _|..].
    { apply preserves_stateless; [apply _|unfold imul; solve_stateless]. }
    intros off. by apply effect_update_loop.
  - intros _. case_bool_decide; [|apply preserves_ret; apply _].
    apply preserves_for; [apply _|]. intros i [].
    apply preserves_bind; [apply _|..].
    { apply preserves_stateless; [apply _|solve_stateless]. }
    intros u. apply preserves_bind; [apply _|..].
    { apply preserves_stateless; [apply _|solve_stateless]. }
    intros q. by apply effect_store.
Qed.

(** *** The scatter of the accumulated gradient *)

Lemma scatter_sum_snoc vl acc ws w k :
  scatter_sum vl acc (ws ++ [w]) k
  = (scatter_sum vl acc ws k + scatter_term vl acc k w)%Qc.
Proof. unfold scatter_sum. by rewrite foldl_app. Qed.

Lemma scatter_sum_occurrences vl acc ws w i :
  0 < vl -> 0 <= i < vl ->
  scatter_sum vl acc ws (w * vl + i)
  = (Qc_of_Z (occurrences w ws) * default 0%Qc (acc !! Z.to_nat i))%Qc.
Proof.
  intros Hvl Hi. induction ws as [|w' ws IH] using rev_ind.
  - change (occurrences w []) with 0. change (scatter_sum vl acc [] (w * vl + i)) with 0%Qc.
    rewrite Z2Qc_inj_0. ring.
  - rewrite scatter_sum_snoc, IH. unfold occurrences, scatter_term.
    rewrite list.filter_app, length_app, Nat2Z.inj_add, Z2Qc_inj_add.
    destruct (decide (w' = w)) as [->|Hne].
    + rewrite decide_True by lia.
      rewrite filter_cons_True, filter_nil by done.
      change (Z.of_nat (length [w])) with 1.
      replace (w * vl + i - w * vl) with i by lia.
      rewrite Z2Qc_inj_1. ring.
    + rewrite decide_False by nia.
      rewrite filter_cons_False, filter_nil by done.
      change (Z.of_nat (length (@nil Z))) with 0.
      rewrite Z2Qc_inj_0. ring.
Qed.

Lemma scatter_effect e s s' acc :
  CBOW.scatter e s = Some (tt, s') ->
  blk (CBOW.neu1e e) <> blk (CBOW.syn0 e) ->
  row (heap s) (CBOW.neu1e e) (CBOW.vectorLength e) = Some acc ->
  let ctx := take (Z.to_nat (CBOW.idxSyn0Length e)) (CBOW.idxSyn0 e) in
  calls s' = calls s /\
  frame [blk (CBOW.syn0 e)] s s' /\
  forall q j, blk q = blk (CBOW.syn0 e) ->
    cell (heap s') q j
    = (fun x => x + scatter_sum (CBOW.vectorLength e) acc ctx
                     (ofs q + j - ofs (CBOW.syn0 e)))%Qc
      <$> cell (heap s) q j.
Proof.
  intros Hrun Hblk Hacc ctx.
  set (vl := CBOW.vectorLength e) in *. set (syn0 := CBOW.syn0 e) in *.
  set (neu1e := CBOW.neu1e e) in *.
  set (I := fun (c : Z) (_ : unit) (s1 : state) =>
    0 <= c /\ calls s1 = calls s /\ frame [blk syn0] s s1 /\
    forall q j, blk q = blk syn0 ->
      cell (heap s1) q j
      = (fun x => x + scatter_sum vl acc (take (Z.to_nat c) (CBOW.idxSyn0 e))
                       (ofs q + j - ofs syn0))%Qc
        <$> cell (heap s) q j).
  unfold CBOW.scatter, for_ in Hrun.
  assert (HI0 : I 0 tt s).
  { split; [lia|]. split; [done|]. split; [reflexivity|].
    intros q j Hq. simpl. unfold scatter_sum. simpl.
    destruct (cell (heap s) q j); simpl; [|done]. f_equal. ring. }
  match type of Hrun with
  | for_from _ _ ?body _ _ = _ =>
      pose proof (for_from_inv body I) as Hinv
  end.
  specialize Hinv with (2 := HI0) (3 := Hrun).
  destruct Hinv as (_ & Hc & Hf & Hcell).
  2:{ split; [done|]. split; [done|]. intros q j Hq. rewrite Hcell by done.
      destruct (Z_le_gt_dec 0 (CBOW.idxSyn0Length e)).
      - unfold ctx. by rewrite Z.add_0_l, Nat2Z.id.
      - unfold ctx. replace (Z.to_nat (CBOW.idxSyn0Length e)) with 0%nat by lia.
        done. }
  clear Hrun HI0. intros c [] s1 [] s2 (Hc0 & Hc & Hf & Hcell) Hb.
  fold vl syn0 neu1e in Hb.
  apply bind_Some in Hb as (w & ? & (_ & ? & Hw & [= <- ->])%at_Some & Hb).
  apply bind_Some in Hb as (off & ? & [_ [= -> ->]]%checked_Some & Hb).
  apply update_loop_Some in Hb as (h' & [= ->] & Hlen & Hfr & Hup); [|done].
  split; [lia|]. split; [done|]. split.
  { etrans; [exact Hf|]. split; [done|]. simpl. intros b Hb. apply Hfr.
    simpl. intros ->. apply Hb. constructor. }
  intros q j Hq. simpl. rewrite Hup. simpl.
  replace (Z.to_nat (c + 1)) with (S (Z.to_nat c)) by lia.
  rewrite (take_S_r _ _ _ Hw), scatter_sum_snoc.
  unfold scatter_term.
  assert (Hne : forall i, 0 <= i < vl ->
            cell (heap s1) neu1e i = Some (default 0%Qc (acc !! Z.to_nat i))).
  { intros i Hi. rewrite (cell_ext (heap s)).
    - rewrite (row_cell _ _ _ _ _ Hacc) by done.
      destruct (lookup_lt_is_Some_2 acc (Z.to_nat i)) as [x ->]; [|done].
      rewrite (row_length _ _ _ _ Hacc). lia.
    - apply Hf. intros [Hx|Hx%elem_of_nil]%elem_of_cons; done. }
  rewrite (Hcell q j Hq).
  destruct (decide (w * vl <= ofs q + j - ofs syn0 < w * vl + vl)) as [Hin|Hout].
  - rewrite decide_True by lia.
    rewrite Hne by lia.
    replace (ofs q + j - (ofs syn0 + w * vl)) with (ofs q + j - ofs syn0 - w * vl)
      by lia.
    destruct (cell (heap s) q j); simpl; [|done]. f_equal. ring.
  - rewrite decide_False by lia.
    destruct (cell (heap s) q j); simpl; [|done]. f_equal. ring.
Qed.

(** *** Relations kept by every store and every log entry *)

Section structural.
Context (P : state -> state -> Prop) `{!PreOrder P}.
Hypothesis P_store : forall p i v, preserves P (store p i v).
Hypothesis P_log : forall c, preserves P (log_call c).

Ltac pres_step :=
  match goal with
  | |- preserves _ (bind _ _) => apply preserves_bind; [apply _| |intros ?]
  | |- preserves _ (if ?b then _ else _) => destruct b
  | |- preserves _ (match ?o with Some _ => _ | None => _ end) => destruct o
  | |- preserves _ (ret _) => apply preserves_ret; apply _
  | |- preserves _ (store _ _ _) => apply P_store
  | |- preserves _ (log_call _) => apply P_log
  | |- preserves _ (for_ _ _ _) => apply preserves_for; [apply _|intros ? ?]
  | |- preserves _ (let '(_, _) := ?x in _) => destruct x
  | H : forall a b c d, preserves _ (?f a b c d) |- preserves _ (?f _ _ _ _) =>
      apply H
  | H : forall a b c d e, preserves _ (?f a b c d e) |- preserves _ (?f _ _ _ _ _) =>
      apply H
  | |- preserves _ _ =>
      apply preserves_stateless;
      [apply _ | first [apply stateless_exp_index | apply stateless_gradient
                       | apply stateless_dot_loop | apply stateless_draw_target
                       | unfold iadd, isub, imul; solve_stateless]]
  end.

Lemma structural_update_loop f x_ y n : preserves P (update_loop f x_ y n).
Proof. unfold update_loop. repeat pres_step. Qed.

Lemma structural_HS a i ia r :
  preserves P (HierarchicSoftmax.executeAggregate a i ia r).
Proof.
  pose proof structural_update_loop as Hu.
  unfold HierarchicSoftmax.executeAggregate, axpy_loop. repeat pres_step.
Qed.

Lemma structural_NS a i ia r :
  preserves P (NegativeSampling.executeAggregate a i ia r).
Proof.
  pose proof structural_update_loop as Hu.
  unfold NegativeSampling.executeAggregate, axpy_loop. repeat pres_step.
Qed.

Lemma structural_hierarchic_rounds hsRounds vl syn1 idxSyn1 codes reals st :
  preserves P (hierarchic_rounds hsRounds vl syn1 idxSyn1 codes reals st).
Proof.
  pose proof structural_HS as Hk.
  unfold hierarchic_rounds. repeat pres_step.
Qed.

Lemma structural_negative_rounds ngRounds ngStarter vl len vocab syn1Neg
    negTable reals st seed :
  preserves P (negative_rounds ngRounds ngStarter vl len vocab syn1Neg
                 negTable reals st seed).
Proof.
  pose proof structural_NS as Hk.
  unfold negative_rounds, negative_call. repeat pres_step.
Qed.

Lemma structural_average_context e : preserves P (CBOW.average_context e).
Proof.
  pose proof structural_update_loop as Hu.
  unfold CBOW.average_context, add_loop. repeat pres_step.
Qed.

Lemma structural_cbow_rounds e reals idxArgs seed :
  preserves P (CBOW.rounds e reals idxArgs seed).
Proof.
  unfold CBOW.rounds. apply preserves_bind; [apply _|..].
  - apply structural_hierarchic_rounds.
  - intros st. apply structural_negative_rounds.
Qed.

Lemma structural_skipgram_rounds e reals st seed :
  preserves P (SkipGram.rounds e reals st seed).
Proof.
  unfold SkipGram.rounds. apply preserves_bind; [apply _|..].
  - apply structural_hierarchic_rounds.
  - intros st'. apply structural_negative_rounds.
Qed.
End structural.

#[export] Instance same_shape_preorder : PreOrder same_shape.
Proof.
  split.
  - by intros s q j.
  - intros s1 s2 s3 H1 H2 q j. etrans; [apply H2|apply H1].
Qed.

Lemma same_shape_store p i v : preserves same_shape (store p i v).
Proof.
  intros s [] s' (h & Hset & [= ->])%store_Some q j. simpl.
  rewrite (cell_set_cell _ _ _ _ _ q j Hset). case_decide as Hd; [|done].
  destruct Hd as [Hb Ho]. rewrite (cell_addr _ p i q j) by done.
  split; [|by eexists]. intros _.
  unfold set_cell, cell in *. case_bool_decide; [|done].
  destruct (heap s !! blk p) as [[d|]|]; try done.
  case_bool_decide; [|done]. by apply lookup_lt_is_Some.
Qed.

Lemma same_shape_log c : preserves same_shape (log_call c).
Proof. by intros s [] s' [= <-] q j. Qed.

Lemma same_calls_store p i v :
  preserves (fun s s' => calls s' = calls s) (store p i v).
Proof. by intros s [] s' (h & Hset & [= ->])%store_Some. Qed.

(** *** The whole invocation *)

Lemma delete_Some p s r :
  delete p s = Some r -> r = (tt, State (<[blk p := None]> (heap s)) (calls s)).
Proof.
  unfold delete. destruct (heap s !! blk p) as [[d|]|]; try done.
  case_bool_decide; [|done]. by intros [= <-].
Qed.

Lemma cbow_prologue_run (s : state) (syn0 syn1 expTable syn1Neg negTable : ptr)
    (vectorLength hsRounds ngRounds expLength vocabSize ngStarter
       negTableLength idxSyn0Length initialIdx : Z)
    (idxSyn0 idxSyn1 codes : list Z) (intArrays : list (list Z))
    (alpha seed : Qc) (reals : list Qc) :
  0 <= vectorLength -> 0 <= Qtrunc seed < 2 ^ 64 ->
  let zeros := Some (replicate (Z.to_nat vectorLength) 0%Qc) in
  CBOW.prologue [syn0; syn1; expTable; syn1Neg; negTable]
    [vectorLength; hsRounds; ngRounds; expLength; vocabSize; ngStarter;
     negTableLength; idxSyn0Length; initialIdx]
    (idxSyn0 :: idxSyn1 :: codes :: intArrays) (alpha :: seed :: reals) s
  = Some ((CBOW.Env vectorLength hsRounds ngRounds expLength vocabSize
             ngStarter negTableLength idxSyn0Length initialIdx
             idxSyn0 idxSyn1 codes
             (Ptr (length (heap s)) 0) (Ptr (S (length (heap s))) 0)
             syn0 syn1 expTable syn1Neg negTable,
           [vectorLength; expLength; 0], Qtrunc seed),
          State (heap s ++ [zeros; zeros]) (calls s)).
Proof.
  intros Hvl Hseed zeros. unfold CBOW.prologue. do 12 run_at.
  run_with (new_zeroed_run vectorLength s Hvl).
  set (s1 := State (heap s ++ _) (calls s)).
  run_with (new_zeroed_run vectorLength s1 Hvl).
  set (s0 := State (heap s1 ++ _) (calls s1)).
  do 6 run_at. run_with (to_u64_run seed s0 Hseed).
  unfold ret, s0, s1. simpl. rewrite length_app, <- app_assoc. simpl.
  by rewrite Nat.add_1_r.
Qed.

(** C4. After all rounds of a CBOW invocation the accumulated gradient
    [neu1e] is added, element by element, into every context-word row of
    [syn0] listed in [idxSyn0] (all [idxSyn0Length] of them, a row listed
    several times receiving it as often), not into a single center row;
    the rounds themselves leave [syn0] as it was. *)
Theorem C4_cbow_scatter
    (s s' : state) (syn0 syn1 expTable syn1Neg negTable : ptr)
    (vectorLength hsRounds ngRounds expLength vocabSize ngStarter
       negTableLength idxSyn0Length initialIdx : Z)
    (idxSyn0 idxSyn1 codes : list Z) (intArrays : list (list Z))
    (alpha seed : Qc) (reals : list Qc) :
  let arguments := [syn0; syn1; expTable; syn1Neg; negTable] in
  let indexArguments :=
    [vectorLength; hsRounds; ngRounds; expLength; vocabSize; ngStarter;
     negTableLength; idxSyn0Length; initialIdx] in
  let ints := idxSyn0 :: idxSyn1 :: codes :: intArrays in
  let realArguments := alpha :: seed :: reals in
  let context := take (Z.to_nat idxSyn0Length) idxSyn0 in
  0 < vectorLength -> 0 <= Qtrunc seed < 2 ^ 64 ->
  (blk syn0 < length (heap s))%nat ->
  blk syn0 <> blk syn1 -> blk syn0 <> blk syn1Neg ->
  run (CBOW.executeAggregate arguments indexArguments ints realArguments) s
  = Some (tt, s') ->
  exists e idxArgs next_random s0 v s2 acc,
    run (CBOW.prologue arguments indexArguments ints realArguments) s
    = Some ((e, idxArgs, next_random), s0) /\
    (* the state after all rounds, and the gradient accumulated there *)
    run (CBOW.average_context e ;;
         CBOW.rounds e realArguments idxArgs next_random) s0 = Some (v, s2) /\
    row (heap s2) (CBOW.neu1e e) vectorLength = Some acc /\
    heap s2 !! blk syn0 = heap s !! blk syn0 /\
    (* the scatter *)
    forall w i, 0 <= i < vectorLength ->
      cell (heap s') syn0 (w * vectorLength + i)
      = (fun x => x + Qc_of_Z (occurrences w context)
                      * default 0%Qc (acc !! Z.to_nat i))%Qc
        <$> cell (heap s) syn0 (w * vectorLength + i).
Proof.
  intros arguments indexArguments ints realArguments context
    Hvl Hseed Hlt0 H01 H03 Hrun.
  pose proof (cbow_prologue_run s syn0 syn1 expTable syn1Neg negTable
    vectorLength hsRounds ngRounds expLength vocabSize ngStarter negTableLength
    idxSyn0Length initialIdx idxSyn0 idxSyn1 codes intArrays alpha seed reals
    ltac:(lia) Hseed) as Hpro.
  simpl in Hpro. fold arguments indexArguments ints realArguments in Hpro.
  set (e := CBOW.Env _ _ _ _ _ _ _ _ _ _ _ _ _ _ _ _ _ _ _) in Hpro.
  set (s0 := State _ _) in Hpro.
  unfold run, CBOW.executeAggregate in Hrun.
  rewrite (bind_run _ _ _ _ _ Hpro) in Hrun.
  apply bind_Some in Hrun as ([] & s1 & Havg & Hrun).
  apply bind_Some in Hrun as (v & s2 & Hrounds & Hrun).
  apply bind_Some in Hrun as ([] & s3 & Hscatter & Hrun).
  apply bind_Some in Hrun as ([] & s4 & Hd1%delete_Some & Hd2%delete_Some).
  injection Hd1 as ->. injection Hd2 as ->.
  (* frames *)
  pose proof (average_context_effect e _ _ _ Havg) as [_ [_ Hf1]].
  pose proof (structural_average_context same_shape same_shape_store
                e _ _ _ Havg) as Hsh1.
  pose proof (structural_cbow_rounds same_shape same_shape_store
                same_shape_log e _ _ _ _ _ _ Hrounds) as Hsh2.
  pose proof Hrounds as Hrounds0. unfold CBOW.rounds in Hrounds.
  apply bind_Some in Hrounds as ([args' idx'] & s1' & Hhs & Hng).
  apply (hierarchic_rounds_effect _ _ _ _ _ _ _ _ (CBOW.neu1e e)) in Hhs
    as (_ & _ & _ & Hf2 & Ha & _); [|done].
  apply (negative_rounds_frame _ _ _ _ _ _ _ _ _ _ _ _ _ _ (CBOW.neu1e e))
    in Hng as Hf3.
  2:{ destruct Ha as [_ Ha]. simpl in Ha. by rewrite Ha. }
  assert (Hsyn0 : forall b, b = blk syn0 -> heap s2 !! b = heap s !! b).
  { intros b ->. destruct Hf3 as [_ Hf3]. destruct Hf2 as [_ Hf2].
    rewrite Hf3, Hf2, Hf1; simpl.
    - by apply lookup_app_l.
    - rewrite !elem_of_cons, elem_of_nil. simpl. lia.
    - rewrite !elem_of_cons, elem_of_nil. simpl. intros [?|[?|[]]]; [done|lia].
    - rewrite !elem_of_cons, elem_of_nil. simpl. intros [?|[?|[]]]; [done|lia]. }
  (* the accumulator is still allocated *)
  assert (Hacc : is_Some (row (heap s2) (CBOW.neu1e e) vectorLength)).
  { apply row_is_Some. intros j Hj. apply Hsh2, Hsh1.
    unfold cell. simpl. rewrite bool_decide_true by lia.
    rewrite lookup_app_r by lia.
    replace (S (length (heap s)) - length (heap s))%nat with 1%nat by lia.
    simpl. apply lookup_lt_is_Some. rewrite length_replicate. lia. }
  destruct Hacc as [acc Hacc].
  exists e, [vectorLength; expLength; 0], (Qtrunc seed), s0, v, s2, acc.
  split; [done|]. split.
  { unfold run. run_with Havg. exact Hrounds0. }
  split; [done|]. split; [by apply Hsyn0|].
  intros w i Hi.
  apply (scatter_effect e _ _ acc) in Hscatter as (_ & Hfs & Hcell);
    [|simpl; lia|done].
  simpl in Hcell |- *.
  rewrite (cell_ext (heap s3)).
  2:{ rewrite !list_lookup_insert_ne by (simpl; lia). done. }
  rewrite (Hcell syn0 (w * vectorLength + i) eq_refl).
  rewrite (cell_ext (heap s) (heap s2)) by by apply Hsyn0.
  replace (ofs syn0 + (w * vectorLength + i) - ofs syn0)
    with (w * vectorLength + i) by lia.
  by rewrite scatter_sum_occurrences.
Qed.

Lemma C4_cbow_scatter_witness :
  let s := State example_model [] in
  let context := [2; 0; 2] in
  exists (s' : state) (acc : list Qc),
    run (CBOW.executeAggregate example_arguments [2; 2; 3; 4; 3; 1; 5; 3; 0]
           [[2; 0; 2]; [1; 2]; [1; 0]] [q_ 1 10; q_ 12345 1]) s
    = Some (tt, s') /\
    forall w i, 0 <= i < 2 ->
      cell (heap s') (Ptr 0 0) (w * 2 + i)
      = (fun x => x + Qc_of_Z (occurrences w context)
                      * default 0%Qc (acc !! Z.to_nat i))%Qc
        <$> cell (heap s) (Ptr 0 0) (w * 2 + i).
Proof.
  intros s context.
  assert (Hvl : 0 < 2) by lia.
  assert (Hseed : 0 <= Qtrunc (q_ 12345 1) < 2 ^ 64) by (by vm_compute).
  assert (Hlt : (blk (Ptr 0 0) < length (heap s))%nat) by (simpl; lia).
  assert (H01 : blk (Ptr 0 0) <> blk (Ptr 1 0)) by (simpl; lia).
  assert (H03 : blk (Ptr 0 0) <> blk (Ptr 3 0)) by (simpl; lia).
  assert (Hrun : exists s',
    run (CBOW.executeAggregate example_arguments [2; 2; 3; 4; 3; 1; 5; 3; 0]
           [[2; 0; 2]; [1; 2]; [1; 0]] [q_ 1 10; q_ 12345 1]) s
    = Some (tt, s')) by (vm_compute; eexists; reflexivity).
  destruct Hrun as [s' Hrun].
  destruct (C4_cbow_scatter s s' (Ptr 0 0) (Ptr 1 0) (Ptr 2 0) (Ptr 3 0)
              (Ptr 4 0) 2 2 3 4 3 1 5 3 0 [2; 0; 2] [1; 2] [1; 0] []
              (q_ 1 10) (q_ 12345 1) [] Hvl Hseed Hlt H01 H03 Hrun)
    as (e & idxArgs & nr & s0 & v & s2 & acc & _ & _ & _ & _ & Hcells).
  exists s', acc. split; [exact Hrun|exact Hcells].
Defined.

(** ** The log of an invocation *)

Lemma ns_calls_agree args0 idx0 args idx syn1Neg vl ngStarter candidates :
  agree_except 1 args0 args -> agree_except 2 idx0 idx ->
  ns_calls args idx syn1Neg vl ngStarter candidates
  = ns_calls args0 idx0 syn1Neg vl ngStarter candidates.
Proof.
  intros Ha Hi. unfold ns_calls, ns_call.
  rewrite (agree_except_eq _ _ _ _ Ha), !(agree_except_eq _ _ _ _ Hi).
  f_equal. apply map_ext. intros t.
  by rewrite (agree_except_eq _ _ _ _ Ha).
Qed.

(** The rounds of either orchestrator, started on the arrays [args0] and
    [idx0]: the log grows by the hierarchical-softmax calls and then by
    the negative-sampling calls of the candidates. *)
Lemma rounds_log hsRounds ngRounds ngStarter vl len vocab syn1 syn1Neg negTable
    idxSyn1 codes reals args0 idx0 seed neu1e tbl s st s1 v s2 :
  hierarchic_rounds hsRounds vl syn1 idxSyn1 codes reals (args0, idx0) s
    = Some (st, s1) ->
  negative_rounds ngRounds ngStarter vl len vocab syn1Neg negTable reals
    st seed s1 = Some (v, s2) ->
  0 < ngRounds ->
  0 < len -> int_range len = true ->
  2 <= vocab -> int_range vocab = true ->
  row (heap s) negTable len = Some tbl ->
  args0 !! 3%nat = Some neu1e ->
  blk negTable <> blk syn1 -> blk negTable <> blk syn1Neg ->
  blk negTable <> blk neu1e ->
  let candidates := draws tbl len vocab seed (Z.to_nat ngRounds) in
  exists hs,
    calls s2 = calls s ++ hs
               ++ ns_calls args0 idx0 syn1Neg vl ngStarter candidates /\
    Forall (fun c => call_kernel c = HS) hs /\
    Forall (fun t => 0 < t < vocab) candidates /\
    ng_next_random v = nth_random seed (Z.to_nat ngRounds).
Proof.
  intros Hhs Hng Hn Hlen0 Hlen Hv2 Hv Hrow Hne Hb1 Hb2 Hb3 candidates.
  apply (hierarchic_rounds_effect _ _ _ _ _ _ _ _ neu1e) in Hhs
    as (hs & Hc1 & Hhs & Hf1 & Ha & Hi); [|done].
  destruct st as [args idx]. simpl in Ha, Hi.
  apply (negative_rounds_effect _ _ _ _ _ _ _ _ _ _ _ _ _ _ neu1e tbl) in Hng
    as (Hc2 & _ & Hr & Hnr); try done.
  - exists hs. rewrite Hc2, Hc1, <- app_assoc.
    by rewrite (ns_calls_agree args0 idx0).
  - rewrite <- Hrow. apply row_ext. apply Hf1.
    rewrite !elem_of_cons, elem_of_nil. tauto.
  - destruct Ha as [_ Ha]. by rewrite Ha.
Qed.

Lemma skipgram_prologue_run (s : state)
    (syn0 syn1 expTable syn1Neg negTable : ptr)
    (syn0Row vectorLength hsRounds ngRounds expLength vocabSize ngStarter
       negTableLength : Z)
    (idxSyn1 codes : list Z) (intArrays : list (list Z))
    (alpha seed : Qc) (reals : list Qc) :
  0 <= vectorLength -> int_range (syn0Row * vectorLength) = true ->
  0 <= Qtrunc seed < 2 ^ 64 ->
  let center := ptr_add syn0 (syn0Row * vectorLength) in
  let neu1e := Ptr (length (heap s)) 0 in
  SkipGram.prologue [syn0; syn1; expTable; syn1Neg; negTable]
    [syn0Row; vectorLength; hsRounds; ngRounds; expLength; vocabSize;
     ngStarter; negTableLength]
    (idxSyn1 :: codes :: intArrays) (alpha :: seed :: reals) s
  = Some ((SkipGram.Env syn0Row vectorLength hsRounds ngRounds expLength
             vocabSize ngStarter negTableLength neu1e center syn1 syn1Neg
             negTable idxSyn1 codes,
           ([center; syn1; expTable; neu1e], [vectorLength; expLength; 0]),
           Qtrunc seed),
          State (heap s ++ [Some (replicate (Z.to_nat vectorLength) 0%Qc)])
                (calls s)).
Proof.
  intros Hvl Hoff Hseed center neu1e. unfold SkipGram.prologue. do 8 run_at.
  run_with (new_zeroed_run vectorLength s Hvl).
  set (s0 := State (heap s ++ _) (calls s)).
  run_at. unfold imul. run_checked. do 7 run_at.
  by run_with (to_u64_run seed s0 Hseed).
Qed.

(** The final add of SkipGram (lines 450-457), from the state [s2] the
    rounds ended in. *)
Lemma skipgram_finish_cells e s2 s' acc :
  SkipGram.finish e s2 = Some (tt, s') ->
  blk (SkipGram.neu1e e) <> blk (SkipGram.syn0 e) ->
  row (heap s2) (SkipGram.neu1e e) (SkipGram.vectorLength e) = Some acc ->
  calls s' = calls s2 /\
  forall q j, blk q = blk (SkipGram.syn0 e) ->
    let k := ofs q + j - ofs (SkipGram.syn0 e) in
    cell (heap s') q j
    = if decide (0 <= k < SkipGram.vectorLength e)
      then (fun x => x + default 0%Qc (acc !! Z.to_nat k))%Qc
           <$> cell (heap s2) q j
      else cell (heap s2) q j.
Proof.
  intros Hrun Hblk Hacc. unfold SkipGram.finish in Hrun.
  apply bind_Some in Hrun as ([] & s3 & Hadd & Hdel%delete_Some).
  injection Hdel as ->.
  apply update_loop_Some in Hadd as (h3 & [= ->] & Hlen & Hfr & Hup); [|done].
  split; [done|]. intros q j Hq k. simpl.
  rewrite (cell_ext h3) by (rewrite list_lookup_insert_ne; [done|congruence]).
  rewrite Hup. fold k.
  destruct (decide (0 <= k < SkipGram.vectorLength e)) as [Hk|Hk].
  - rewrite decide_True by (unfold k in Hk; lia).
    rewrite (row_cell _ _ _ _ _ Hacc) by done.
    destruct (lookup_lt_is_Some_2 acc (Z.to_nat k)) as [x ->].
    { rewrite (row_length _ _ _ _ Hacc). lia. }
    simpl. by destruct (cell (heap s2) q j).
  - rewrite decide_False by (unfold k in Hk; lia). done.
Qed.

(** C3 (as the code has it). For every SkipGram invocation with
    [ngRounds > 0]: negative-sampling iteration 0 targets [ngStarter] with
    [code = 1]; every later iteration advances
    [next_random = next_random * 25214903917 + 11], maps
    [(next_random >> 16) % negTableLength] through [negTable], replaces a
    candidate [<= 0] or [>= vocabSize] by an in-range fallback draw, and
    invokes NegativeSampling with [code = 0] unless the candidate equals
    [ngStarter], in which case the iteration ends without an invocation;
    after all rounds [neu1e] is added into the center row of [syn0]
    exactly once, the rounds themselves leaving [syn0] untouched. *)
Theorem C3_skipgram_rounds
    (s s' : state) (syn0 syn1 expTable syn1Neg negTable : ptr)
    (syn0Row vectorLength hsRounds ngRounds expLength vocabSize ngStarter
       negTableLength : Z)
    (idxSyn1 codes : list Z) (intArrays : list (list Z))
    (alpha seed : Qc) (reals tbl : list Qc) :
  let arguments := [syn0; syn1; expTable; syn1Neg; negTable] in
  let indexArguments :=
    [syn0Row; vectorLength; hsRounds; ngRounds; expLength; vocabSize;
     ngStarter; negTableLength] in
  let ints := idxSyn1 :: codes :: intArrays in
  let realArguments := alpha :: seed :: reals in
  let center := ptr_add syn0 (syn0Row * vectorLength) in
  let neu1e := Ptr (length (heap s)) 0 in
  let args := [center; syn1; expTable; neu1e] in
  let idxArgs := [vectorLength; expLength; 0] in
  let candidates :=
    draws tbl negTableLength vocabSize (Qtrunc seed) (Z.to_nat ngRounds) in
  0 < ngRounds -> 0 < vectorLength ->
  int_range (syn0Row * vectorLength) = true -> 0 <= Qtrunc seed < 2 ^ 64 ->
  0 < negTableLength -> int_range negTableLength = true ->
  2 <= vocabSize -> int_range vocabSize = true ->
  row (heap s) negTable negTableLength = Some tbl ->
  (blk syn0 < length (heap s))%nat -> (blk negTable < length (heap s))%nat ->
  blk syn0 <> blk syn1 -> blk syn0 <> blk syn1Neg ->
  blk negTable <> blk syn1 -> blk negTable <> blk syn1Neg ->
  run (SkipGram.executeAggregate arguments indexArguments ints realArguments) s
  = Some (tt, s') ->
  exists hs e st next_random s0 v s2 acc,
    (* the kernel invocations, in order *)
    calls s' = calls s ++ hs
               ++ ns_calls args idxArgs syn1Neg vectorLength ngStarter candidates /\
    Forall (fun c => call_kernel c = HS) hs /\
    (* every candidate is a row of the vocabulary *)
    length candidates = Z.to_nat ngRounds /\
    Forall (fun t => 0 < t < vocabSize) candidates /\
    (* the state the rounds end in *)
    run (SkipGram.prologue arguments indexArguments ints realArguments) s
    = Some ((e, st, next_random), s0) /\
    run (SkipGram.rounds e realArguments st next_random) s0 = Some (v, s2) /\
    ng_next_random v = nth_random (Qtrunc seed) (Z.to_nat ngRounds) /\
    row (heap s2) neu1e vectorLength = Some acc /\
    heap s2 !! blk syn0 = heap s !! blk syn0 /\
    (* the single add into the center row *)
    forall k,
      cell (heap s') syn0 k
      = if decide (syn0Row * vectorLength <= k
                   < syn0Row * vectorLength + vectorLength)
        then (fun x => x + default 0%Qc
                             (acc !! Z.to_nat (k - syn0Row * vectorLength)))%Qc
             <$> cell (heap s) syn0 k
        else cell (heap s) syn0 k.
Proof.
  intros arguments indexArguments ints realArguments center neu1e args idxArgs
    candidates Hn Hvl Hoff Hseed Hlen0 Hlen Hv2 Hv Hrow Hlt0 Hlt4
    H01 H03 H41 H43 Hrun.
  pose proof (skipgram_prologue_run s syn0 syn1 expTable syn1Neg negTable
    syn0Row vectorLength hsRounds ngRounds expLength vocabSize ngStarter
    negTableLength idxSyn1 codes intArrays alpha seed reals
    ltac:(lia) Hoff Hseed) as Hpro.
  simpl in Hpro.
  fold arguments indexArguments ints realArguments center neu1e args idxArgs
    in Hpro.
  set (e := SkipGram.Env _ _ _ _ _ _ _ _ _ _ _ _ _ _ _) in Hpro.
  set (s0 := State _ _) in Hpro.
  unfold run, SkipGram.executeAggregate in Hrun.
  rewrite (bind_run _ _ _ _ _ Hpro) in Hrun.
  apply bind_Some in Hrun as (v & s2 & Hrounds & Hfin).
  pose proof (structural_skipgram_rounds same_shape same_shape_store
                same_shape_log e _ _ _ _ _ _ Hrounds) as Hsh.
  pose proof Hrounds as Hrounds0. unfold SkipGram.rounds in Hrounds.
  apply bind_Some in Hrounds as ([args' idx'] & s1 & Hhs & Hng).
  simpl in Hhs, Hng.
  (* the log *)
  destruct (rounds_log _ _ _ _ _ _ _ _ _ _ _ _ _ _ _ neu1e tbl _ _ _ _ _
              Hhs Hng) as (hs & Hcalls & Hhsk & Hrange & Hnr); try done.
  { unfold s0. simpl. by rewrite row_app_l. }
  { simpl. lia. }
  (* the frames *)
  apply (hierarchic_rounds_effect _ _ _ _ _ _ _ _ neu1e) in Hhs
    as (_ & _ & _ & Hf2 & Ha & _); [|done].
  apply (negative_rounds_frame _ _ _ _ _ _ _ _ _ _ _ _ _ _ neu1e) in Hng as Hf3.
  2:{ destruct Ha as [_ Ha]. simpl in Ha. by rewrite Ha. }
  assert (Hsyn0 : heap s2 !! blk syn0 = heap s !! blk syn0).
  { destruct Hf3 as [_ Hf3]. destruct Hf2 as [_ Hf2].
    rewrite Hf3, Hf2; simpl.
    - by apply lookup_app_l.
    - rewrite !elem_of_cons, elem_of_nil. simpl. intros [?|[?|[]]]; [done|lia].
    - rewrite !elem_of_cons, elem_of_nil. simpl. intros [?|[?|[]]]; [done|lia]. }
  (* the accumulator is still allocated *)
  assert (Hacc : is_Some (row (heap s2) neu1e vectorLength)).
  { apply row_is_Some. intros j Hj. apply Hsh.
    unfold cell. simpl. rewrite bool_decide_true by lia.
    rewrite lookup_app_r, Nat.sub_diag by lia.
    simpl. apply lookup_lt_is_Some. rewrite length_replicate. lia. }
  destruct Hacc as [acc Hacc].
  apply (skipgram_finish_cells e _ _ acc) in Hfin as [Hcf Hcell];
    [|simpl; lia|done].
  exists hs, e, (args, idxArgs), (Qtrunc seed), s0, v, s2, acc.
  split; [by rewrite Hcf|]. split; [done|].
  split; [apply length_draws|]. split; [done|].
  split; [done|]. split; [done|]. split; [done|]. split; [done|].
  split; [done|].
  intros k. rewrite (Hcell syn0 k eq_refl). simpl.
  rewrite (cell_ext (heap s) (heap s2)) by done.
  replace (ofs syn0 + k - (ofs syn0 + syn0Row * vectorLength))
    with (k - syn0Row * vectorLength) by lia.
  destruct (decide (syn0Row * vectorLength <= k
                    < syn0Row * vectorLength + vectorLength)).
  - by rewrite decide_True by lia.
  - by rewrite decide_False by lia.
Qed.

(** ** The logs of SkipGram and CBOW *)

#[export] Instance same_calls_preorder : PreOrder same_calls.
Proof.
  split; [by intros s|].
  intros s1 s2 s3 H1 H2. unfold same_calls in *. congruence.
Qed.

Lemma scatter_calls e : preserves same_calls (CBOW.scatter e).
Proof.
  unfold CBOW.scatter, add_loop. apply preserves_for; [apply _|]. intros c [].
  apply preserves_bind; [apply _|..].
  { apply preserves_stateless; [apply _|solve_stateless]. }
  intros w. apply preserves_bind; [apply _|..].
  { apply preserves_stateless; [apply _|unfold imul; solve_stateless]. }
  intros off. apply structural_update_loop; [apply _|]. apply same_calls_store.
Qed.

Section invocation_logs.
Context (s s' : state) (syn0 syn1 expTable syn1Neg negTable : ptr).
Context (vectorLength hsRounds ngRounds expLength vocabSize ngStarter
           negTableLength : Z).
Context (idxSyn1 codes : list Z) (intArrays : list (list Z)).
Context (alpha seed : Qc) (reals tbl : list Qc).
Hypothesis rounds_pos : 0 < ngRounds.
Hypothesis vectorLength_pos : 0 < vectorLength.
Hypothesis seed_range : 0 <= Qtrunc seed < 2 ^ 64.
Hypothesis table_pos : 0 < negTableLength.
Hypothesis table_int : int_range negTableLength = true.
Hypothesis vocab_min : 2 <= vocabSize.
Hypothesis vocab_int : int_range vocabSize = true.
Hypothesis table_row : row (heap s) negTable negTableLength = Some tbl.
Hypothesis table_allocated : (blk negTable < length (heap s))%nat.
Hypothesis table_syn1 : blk negTable <> blk syn1.
Hypothesis table_syn1Neg : blk negTable <> blk syn1Neg.

Let arguments := [syn0; syn1; expTable; syn1Neg; negTable].
Let realArguments := alpha :: seed :: reals.
Let idxArgs := [vectorLength; expLength; 0].
Let candidates :=
  draws tbl negTableLength vocabSize (Qtrunc seed) (Z.to_nat ngRounds).

Lemma skipgram_log (syn0Row : Z) :
  int_range (syn0Row * vectorLength) = true ->
  SkipGram.executeAggregate arguments
    [syn0Row; vectorLength; hsRounds; ngRounds; expLength; vocabSize;
     ngStarter; negTableLength]
    (idxSyn1 :: codes :: intArrays) realArguments s = Some (tt, s') ->
  let args := [ptr_add syn0 (syn0Row * vectorLength); syn1; expTable;
               Ptr (length (heap s)) 0] in
  exists hs,
    calls s' = calls s ++ hs
               ++ ns_calls args idxArgs syn1Neg vectorLength ngStarter candidates /\
    Forall (fun c => call_kernel c = HS) hs /\
    Forall (fun t => 0 < t < vocabSize) candidates.
Proof.
  intros Hoff Hrun args.
  pose proof (skipgram_prologue_run s syn0 syn1 expTable syn1Neg negTable
    syn0Row vectorLength hsRounds ngRounds expLength vocabSize ngStarter
    negTableLength idxSyn1 codes intArrays alpha seed reals
    ltac:(lia) Hoff seed_range) as Hpro.
  simpl in Hpro. unfold SkipGram.executeAggregate in Hrun.
  rewrite (bind_run _ _ _ _ _ Hpro) in Hrun.
  apply bind_Some in Hrun as (v & s2 & Hrounds & Hfin).
  unfold SkipGram.rounds in Hrounds.
  apply bind_Some in Hrounds as (st & s1 & Hhs & Hng). simpl in Hhs, Hng.
  destruct (rounds_log _ _ _ _ _ _ _ _ _ _ _ _ _ _ _
              (Ptr (length (heap s)) 0) tbl _ _ _ _ _ Hhs Hng)
    as (hs & Hcalls & Hhsk & Hrange & _); try done.
  { simpl. by rewrite row_app_l. }
  { simpl. lia. }
  exists hs. split; [|done].
  unfold SkipGram.finish in Hfin.
  apply bind_Some in Hfin as ([] & s3 & Hadd & Hdel%delete_Some).
  injection Hdel as ->. simpl.
  apply (structural_update_loop same_calls) in Hadd.
  - unfold same_calls in Hadd. by rewrite Hadd.
  - apply same_calls_store.
Qed.

Lemma cbow_log (idxSyn0Length initialIdx : Z) (idxSyn0 : list Z) :
  CBOW.executeAggregate arguments
    [vectorLength; hsRounds; ngRounds; expLength; vocabSize; ngStarter;
     negTableLength; idxSyn0Length; initialIdx]
    (idxSyn0 :: idxSyn1 :: codes :: intArrays) realArguments s
  = Some (tt, s') ->
  let args := [Ptr (length (heap s)) 0; unassigned; expTable;
               Ptr (S (length (heap s))) 0; unassigned] in
  exists hs,
    calls s' = calls s ++ hs
               ++ ns_calls args idxArgs syn1Neg vectorLength ngStarter candidates /\
    Forall (fun c => call_kernel c = HS) hs /\
    Forall (fun t => 0 < t < vocabSize) candidates.
Proof.
  intros Hrun args.
  pose proof (cbow_prologue_run s syn0 syn1 expTable syn1Neg negTable
    vectorLength hsRounds ngRounds expLength vocabSize ngStarter
    negTableLength idxSyn0Length initialIdx idxSyn0 idxSyn1 codes intArrays
    alpha seed reals ltac:(lia) seed_range) as Hpro.
  simpl in Hpro. unfold CBOW.executeAggregate in Hrun.
  rewrite (bind_run _ _ _ _ _ Hpro) in Hrun.
  apply bind_Some in Hrun as ([] & s1 & Havg & Hrun).
  apply bind_Some in Hrun as (v & s2 & Hrounds & Hrun).
  apply bind_Some in Hrun as ([] & s3 & Hscatter & Hrun).
  apply bind_Some in Hrun as ([] & s4 & Hd1%delete_Some & Hd2%delete_Some).
  injection Hd1 as ->. injection Hd2 as ->. simpl.
  apply scatter_calls in Hscatter. unfold same_calls in Hscatter.
  rewrite Hscatter.
  apply average_context_effect in Havg as [Hc1 [_ Hf1]]. simpl in Hc1, Hf1.
  unfold CBOW.rounds in Hrounds.
  apply bind_Some in Hrounds as (st & s1' & Hhs & Hng). simpl in Hhs, Hng.
  destruct (rounds_log _ _ _ _ _ _ _ _ _ _ _ _ _ _ _
              (Ptr (S (length (heap s))) 0) tbl _ _ _ _ _ Hhs Hng)
    as (hs & Hcalls & Hhsk & Hrange & _); try done.
  { rewrite <- table_row. apply row_ext. rewrite Hf1.
    - by apply lookup_app_l.
    - rewrite !elem_of_cons, elem_of_nil. lia. }
  { simpl. lia. }
  exists hs. rewrite Hcalls, Hc1. done.
Qed.
End invocation_logs.

(** ** Drawn negatives *)

Lemma drawn_negatives_HS hs :
  Forall (fun c => call_kernel c = HS) hs -> drawn_negatives hs = [].
Proof.
  unfold drawn_negatives. induction 1 as [|c hs Hc _ IH]; [done|].
  rewrite filter_cons_False; [done|]. rewrite Hc. by intros [? _].
Qed.

Lemma negative_targets_ns_calls args idx syn1Neg vl ngStarter cands :
  (1 < length args)%nat -> (2 < length idx)%nat ->
  negative_targets (ns_calls args idx syn1Neg vl ngStarter cands)
  = map (fun t => Some (ptr_add syn1Neg (t * vl)))
        (filter (fun t => t <> ngStarter) cands).
Proof.
  intros Ha Hi. unfold negative_targets, drawn_negatives, ns_calls.
  rewrite filter_cons_False.
  2:{ unfold ns_call, call_code. simpl.
      rewrite list_lookup_insert_eq by done. by intros [_ ?]. }
  induction (filter (fun t => t <> ngStarter) cands) as [|t l IH]; [done|].
  simpl. rewrite filter_cons_True.
  2:{ unfold ns_call, call_code. simpl.
      by rewrite list_lookup_insert_eq by done. }
  simpl. rewrite IH. f_equal.
  unfold call_target, ns_call. simpl. by rewrite list_lookup_insert_eq.
Qed.

Lemma negative_targets_log s s' hs args idx syn1Neg vl ngStarter cands :
  calls s' = calls s ++ hs ++ ns_calls args idx syn1Neg vl ngStarter cands ->
  Forall (fun c => call_kernel c = HS) hs ->
  (1 < length args)%nat -> (2 < length idx)%nat ->
  negative_targets (new_calls s s')
  = map (fun t => Some (ptr_add syn1Neg (t * vl)))
        (filter (fun t => t <> ngStarter) cands).
Proof.
  intros Hc Hhs Ha Hi. unfold new_calls. rewrite Hc, drop_app_length.
  unfold negative_targets, drawn_negatives. rewrite list.filter_app.
  fold (drawn_negatives hs). rewrite (drawn_negatives_HS hs Hhs). simpl.
  by apply negative_targets_ns_calls.
Qed.

Lemma length_filter_split (x : Z) (l : list Z) :
  (length (filter (fun t => t <> x) l) + length (filter (fun t => t = x) l))%nat
  = length l.
Proof.
  induction l as [|t l IH]; [done|].
  destruct (decide (t = x)) as [->|Hne].
  - rewrite filter_cons_False by (by intros ?). rewrite filter_cons_True by done.
    simpl. lia.
  - rewrite filter_cons_True by done. rewrite filter_cons_False by done.
    simpl. lia.
Qed.

Lemma collisions_consume_rounds_intro log syn1Neg vl ngStarter ngRounds
    tbl len vocab seed :
  0 < vl ->
  let cands := draws tbl len vocab seed (Z.to_nat ngRounds) in
  negative_targets log
  = map (fun t => Some (ptr_add syn1Neg (t * vl)))
        (filter (fun t => t <> ngStarter) cands) ->
  collisions_consume_rounds log syn1Neg vl ngStarter ngRounds cands.
Proof.
  intros Hvl cands Ht. split; [apply length_draws|]. split; [done|]. split.
  - rewrite Ht. apply Forall_fmap, list.Forall_forall.
    intros t [Hne _]%list_elem_of_filter. simpl. intros [= Heq]. apply Hne. nia.
  - pose proof (length_filter_split ngStarter cands) as Hs.
    unfold cands in Hs at 3. rewrite length_draws in Hs.
    replace (length (drawn_negatives log)) with (length (negative_targets log))
      by apply length_map.
    rewrite Ht, length_map. done.
Qed.

(** ** Collisions with [ngStarter], and the determinism of the draws *)

Section negative_sampling.
(** What two invocations must share for their draws to agree. *)
Context (vectorLength ngRounds vocabSize ngStarter negTableLength : Z).
Context (syn1Neg : ptr) (seed : Qc) (tbl : list Qc).
Hypothesis rounds_pos : 0 < ngRounds.
Hypothesis vectorLength_pos : 0 < vectorLength.
Hypothesis seed_range : 0 <= Qtrunc seed < 2 ^ 64.
Hypothesis table_pos : 0 < negTableLength.
Hypothesis table_int : int_range negTableLength = true.
Hypothesis vocab_min : 2 <= vocabSize.
Hypothesis vocab_int : int_range vocabSize = true.

Let candidates :=
  draws tbl negTableLength vocabSize (Qtrunc seed) (Z.to_nat ngRounds).

(** The negative-sampling table of an invocation holds [tbl] and is a
    buffer of its own. *)
Let table_at (s : state) (syn1 negTable : ptr) : Prop :=
  row (heap s) negTable negTableLength = Some tbl /\
  (blk negTable < length (heap s))%nat /\
  blk negTable <> blk syn1 /\ blk negTable <> blk syn1Neg.

Let skipgram (s s' : state) (syn0 syn1 expTable negTable : ptr)
    (syn0Row hsRounds expLength : Z) (ints : list (list Z)) (alpha : Qc)
    (reals : list Qc) : Prop :=
  run (SkipGram.executeAggregate [syn0; syn1; expTable; syn1Neg; negTable]
         [syn0Row; vectorLength; hsRounds; ngRounds; expLength; vocabSize;
          ngStarter; negTableLength]
         ints (alpha :: seed :: reals)) s = Some (tt, s').

Let cbow (s s' : state) (syn0 syn1 expTable negTable : ptr)
    (hsRounds expLength idxSyn0Length initialIdx : Z) (ints : list (list Z))
    (alpha : Qc) (reals : list Qc) : Prop :=
  run (CBOW.executeAggregate [syn0; syn1; expTable; syn1Neg; negTable]
         [vectorLength; hsRounds; ngRounds; expLength; vocabSize; ngStarter;
          negTableLength; idxSyn0Length; initialIdx]
         ints (alpha :: seed :: reals)) s = Some (tt, s').

Lemma skipgram_negative_targets s s' syn0 syn1 expTable negTable syn0Row
    hsRounds expLength idxSyn1 codes intArrays alpha reals :
  table_at s syn1 negTable ->
  int_range (syn0Row * vectorLength) = true ->
  skipgram s s' syn0 syn1 expTable negTable syn0Row hsRounds expLength
    (idxSyn1 :: codes :: intArrays) alpha reals ->
  negative_targets (new_calls s s')
  = map (fun t => Some (ptr_add syn1Neg (t * vectorLength)))
        (filter (fun t => t <> ngStarter) candidates).
Proof.
  intros (Hrow & Hlt & H1 & H2) Hoff Hrun.
  destruct (skipgram_log s s' syn0 syn1 expTable syn1Neg negTable
              vectorLength hsRounds ngRounds expLength vocabSize ngStarter
              negTableLength idxSyn1 codes intArrays alpha seed reals tbl
              rounds_pos vectorLength_pos seed_range table_pos table_int
              vocab_min vocab_int Hrow Hlt H1 H2 syn0Row Hoff Hrun)
    as (hs & Hc & Hhs & _).
  apply (negative_targets_log _ _ _ _ _ _ _ _ _ Hc Hhs); simpl; lia.
Qed.

Lemma cbow_negative_targets s s' syn0 syn1 expTable negTable hsRounds
    expLength idxSyn0Length initialIdx idxSyn0 idxSyn1 codes intArrays
    alpha reals :
  table_at s syn1 negTable ->
  cbow s s' syn0 syn1 expTable negTable hsRounds expLength idxSyn0Length
    initialIdx (idxSyn0 :: idxSyn1 :: codes :: intArrays) alpha reals ->
  negative_targets (new_calls s s')
  = map (fun t => Some (ptr_add syn1Neg (t * vectorLength)))
        (filter (fun t => t <> ngStarter) candidates).
Proof.
  intros (Hrow & Hlt & H1 & H2) Hrun.
  destruct (cbow_log s s' syn0 syn1 expTable syn1Neg negTable
              vectorLength hsRounds ngRounds expLength vocabSize ngStarter
              negTableLength idxSyn1 codes intArrays alpha seed reals tbl
              rounds_pos vectorLength_pos seed_range table_pos table_int
              vocab_min vocab_int Hrow Hlt H1 H2 idxSyn0Length initialIdx
              idxSyn0 Hrun)
    as (hs & Hc & Hhs & _).
  apply (negative_targets_log _ _ _ _ _ _ _ _ _ Hc Hhs); simpl; lia.
Qed.

(** C5 (as the code has it). In SkipGram and in CBOW a drawn candidate
    equal to [ngStarter] is discarded: the negative-sampling kernel is
    never invoked on it.  The discarded candidate uses up its iteration
    of the loop: exactly [ngRounds] candidates are drawn, and the
    invocations on drawn negatives are [ngRounds] less the number of
    collisions. *)
Theorem C5_collisions_consume_rounds
    s s' syn0 syn1 expTable negTable syn0Row hsRounds expLength
    idxSyn0Length initialIdx idxSyn0 idxSyn1 codes intArrays alpha reals :
  table_at s syn1 negTable ->
  (int_range (syn0Row * vectorLength) = true ->
   skipgram s s' syn0 syn1 expTable negTable syn0Row hsRounds expLength
     (idxSyn1 :: codes :: intArrays) alpha reals ->
   collisions_consume_rounds (new_calls s s') syn1Neg vectorLength ngStarter
     ngRounds candidates) /\
  (cbow s s' syn0 syn1 expTable negTable hsRounds expLength idxSyn0Length
     initialIdx (idxSyn0 :: idxSyn1 :: codes :: intArrays) alpha reals ->
   collisions_consume_rounds (new_calls s s') syn1Neg vectorLength ngStarter
     ngRounds candidates).
Proof.
  intros Htable. split.
  - intros Hoff Hrun. apply collisions_consume_rounds_intro; [done|].
    by eapply skipgram_negative_targets.
  - intros Hrun. apply collisions_consume_rounds_intro; [done|].
    by eapply cbow_negative_targets.
Qed.

(** C8. The draws are deterministic: the random state advances by
    [next_random = next_random * 25214903917 + 11], a function of the
    previous state alone, and two invocations of SkipGram (or of CBOW)
    with the same seed and round count (and the same tables and vector
    length) invoke the kernel on the same sequence of drawn negative
    rows, whatever else differs between them: the matrices, the
    learning rate, the hierarchical-softmax rounds, the center word. *)
Theorem C8_draws_deterministic
    s1 s1' syn0_1 syn1_1 expTable_1 negTable_1 syn0Row_1 hsRounds_1
    expLength_1 idxSyn0Length_1 initialIdx_1 idxSyn0_1 idxSyn1_1 codes_1
    intArrays_1 alpha_1 reals_1
    s2 s2' syn0_2 syn1_2 expTable_2 negTable_2 syn0Row_2 hsRounds_2
    expLength_2 idxSyn0Length_2 initialIdx_2 idxSyn0_2 idxSyn1_2 codes_2
    intArrays_2 alpha_2 reals_2 :
  table_at s1 syn1_1 negTable_1 -> table_at s2 syn1_2 negTable_2 ->
  (* the state after k + 1 advances is a function of the state after k *)
  (forall k, nth_random (Qtrunc seed) (S k)
             = u64 (u64 (nth_random (Qtrunc seed) k * 25214903917) + 11)) /\
  (* two SkipGram invocations *)
  (int_range (syn0Row_1 * vectorLength) = true ->
   int_range (syn0Row_2 * vectorLength) = true ->
   skipgram s1 s1' syn0_1 syn1_1 expTable_1 negTable_1 syn0Row_1 hsRounds_1
     expLength_1 (idxSyn1_1 :: codes_1 :: intArrays_1) alpha_1 reals_1 ->
   skipgram s2 s2' syn0_2 syn1_2 expTable_2 negTable_2 syn0Row_2 hsRounds_2
     expLength_2 (idxSyn1_2 :: codes_2 :: intArrays_2) alpha_2 reals_2 ->
   negative_targets (new_calls s1 s1') = negative_targets (new_calls s2 s2')) /\
  (* two CBOW invocations *)
  (cbow s1 s1' syn0_1 syn1_1 expTable_1 negTable_1 hsRounds_1 expLength_1
     idxSyn0Length_1 initialIdx_1
     (idxSyn0_1 :: idxSyn1_1 :: codes_1 :: intArrays_1) alpha_1 reals_1 ->
   cbow s2 s2' syn0_2 syn1_2 expTable_2 negTable_2 hsRounds_2 expLength_2
     idxSyn0Length_2 initialIdx_2
     (idxSyn0_2 :: idxSyn1_2 :: codes_2 :: intArrays_2) alpha_2 reals_2 ->
   negative_targets (new_calls s1 s1') = negative_targets (new_calls s2 s2')).
Proof.
  intros Ht1 Ht2. split; [done|]. split.
  - intros Ho1 Ho2 Hr1 Hr2.
    rewrite (skipgram_negative_targets _ _ _ _ _ _ _ _ _ _ _ _ _ _ Ht1 Ho1 Hr1).
    by rewrite (skipgram_negative_targets _ _ _ _ _ _ _ _ _ _ _ _ _ _ Ht2 Ho2 Hr2).
  - intros Hr1 Hr2.
    rewrite (cbow_negative_targets _ _ _ _ _ _ _ _ _ _ _ _ _ _ _ _ Ht1 Hr1).
    by rewrite (cbow_negative_targets _ _ _ _ _ _ _ _ _ _ _ _ _ _ _ _ Ht2 Hr2).
Qed.
End negative_sampling.

(** ** Examples on the small model *)

Lemma C3_skipgram_rounds_witness :
  let s := State example_model [] in
  let args := [Ptr 0 0; Ptr 1 0; Ptr 2 0; Ptr 5 0] in
  let candidates := draws example_table 5 3 7 (Z.to_nat 3) in
  exists (s' : state) (hs : list call) (acc : list Qc),
    run (SkipGram.executeAggregate example_arguments [0; 2; 2; 3; 4; 3; 1; 5]
           [[1; 2]; [1; 0]] [q_ 1 10; q_ 7 1]) s = Some (tt, s') /\
    calls s' = hs ++ ns_calls args [2; 4; 0] (Ptr 3 0) 2 1 candidates /\
    Forall (fun c => call_kernel c = HS) hs /\
    Forall (fun t => 0 < t < 3) candidates /\
    forall k,
      cell (heap s') (Ptr 0 0) k
      = if decide (0 * 2 <= k < 0 * 2 + 2)
        then (fun x => x + default 0%Qc (acc !! Z.to_nat (k - 0 * 2)))%Qc
             <$> cell (heap s) (Ptr 0 0) k
        else cell (heap s) (Ptr 0 0) k.
Proof.
  intros s args candidates.
  assert (H1 : 0 < 3) by lia.
  assert (H2 : 0 < 2) by lia.
  assert (H3 : int_range (0 * 2) = true) by reflexivity.
  assert (H4 : 0 <= Qtrunc (q_ 7 1) < 2 ^ 64) by (by vm_compute).
  assert (H5 : 0 < 5) by lia.
  assert (H6 : int_range 5 = true) by reflexivity.
  assert (H7 : 2 <= 3) by lia.
  assert (H8 : int_range 3 = true) by reflexivity.
  assert (H9 : row (heap s) (Ptr 4 0) 5 = Some example_table) by reflexivity.
  assert (H10 : (blk (Ptr 0 0) < length (heap s))%nat) by (simpl; lia).
  assert (H11 : (blk (Ptr 4 0) < length (heap s))%nat) by (simpl; lia).
  assert (H12 : blk (Ptr 0 0) <> blk (Ptr 1 0)) by (simpl; lia).
  assert (H13 : blk (Ptr 0 0) <> blk (Ptr 3 0)) by (simpl; lia).
  assert (H14 : blk (Ptr 4 0) <> blk (Ptr 1 0)) by (simpl; lia).
  assert (H15 : blk (Ptr 4 0) <> blk (Ptr 3 0)) by (simpl; lia).
  assert (Hrun : exists s',
    run (SkipGram.executeAggregate example_arguments [0; 2; 2; 3; 4; 3; 1; 5]
           [[1; 2]; [1; 0]] [q_ 1 10; q_ 7 1]) s = Some (tt, s'))
    by (vm_compute; eexists; reflexivity).
  destruct Hrun as [s' Hrun].
  destruct (C3_skipgram_rounds s s' (Ptr 0 0) (Ptr 1 0) (Ptr 2 0) (Ptr 3 0)
              (Ptr 4 0) 0 2 2 3 4 3 1 5 [1; 2] [1; 0] [] (q_ 1 10) (q_ 7 1)
              [] example_table H1 H2 H3 H4 H5 H6 H7 H8 H9 H10 H11 H12 H13
              H14 H15 Hrun)
    as (hs & e & st & nr & s0 & v & s2 & acc & Hc & Hhs & _ & Hr & _ & _ & _
        & _ & _ & Hcell).
  exists s', hs, acc.
  split; [exact Hrun|]. split; [exact Hc|]. split; [exact Hhs|].
  split; [exact Hr|exact Hcell].
Defined.

(** The reading of C3 without the exception fails on the small model:
    with seed 7 the three draws are 2, 1 and 2, the second collides with
    [ngStarter = 1], and its iteration invokes nothing. *)
Lemma C3_counterexample :
  let s := State example_model [] in
  let args := [Ptr 0 0; Ptr 1 0; Ptr 2 0; Ptr 5 0] in
  let candidates := draws example_table 5 3 7 (Z.to_nat 3) in
  exists s',
    run (SkipGram.executeAggregate example_arguments [0; 2; 2; 3; 4; 3; 1; 5]
           [[1; 2]; [1; 0]] [q_ 1 10; q_ 7 1]) s = Some (tt, s') /\
    candidates = [2; 1; 2] /\
    ~ all_candidates_invoked (calls s') args [2; 4; 0] (Ptr 3 0) 2 1 candidates.
Proof.
  intros s args candidates. eexists.
  split; [vm_compute; reflexivity|]. split; [vm_compute; reflexivity|].
  unfold all_candidates_invoked. intros H.
  apply (f_equal length) in H. vm_compute in H. discriminate H.
Qed.

Lemma C5_collisions_consume_rounds_witness :
  let s := State example_model [] in
  let candidates := draws example_table 5 3 7 (Z.to_nat 3) in
  (exists s',
     run (SkipGram.executeAggregate example_arguments [0; 2; 2; 3; 4; 3; 1; 5]
            [[1; 2]; [1; 0]] [q_ 1 10; q_ 7 1]) s = Some (tt, s') /\
     collisions_consume_rounds (new_calls s s') (Ptr 3 0) 2 1 3 candidates) /\
  (exists s',
     run (CBOW.executeAggregate example_arguments [2; 2; 3; 4; 3; 1; 5; 3; 0]
            [[2; 0; 2]; [1; 2]; [1; 0]] [q_ 1 10; q_ 7 1]) s = Some (tt, s') /\
     collisions_consume_rounds (new_calls s s') (Ptr 3 0) 2 1 3 candidates).
Proof.
  intros s candidates.
  assert (H1 : 0 < 3) by lia.
  assert (H2 : 0 < 2) by lia.
  assert (H3 : int_range (0 * 2) = true) by reflexivity.
  assert (H4 : 0 <= Qtrunc (q_ 7 1) < 2 ^ 64) by (by vm_compute).
  assert (H5 : 0 < 5) by lia.
  assert (H6 : int_range 5 = true) by reflexivity.
  assert (H7 : 2 <= 3) by lia.
  assert (H8 : int_range 3 = true) by reflexivity.
  assert (H9 : row (heap s) (Ptr 4 0) 5 = Some example_table
               /\ (blk (Ptr 4 0) < length (heap s))%nat
               /\ blk (Ptr 4 0) <> blk (Ptr 1 0)
               /\ blk (Ptr 4 0) <> blk (Ptr 3 0)).
  { split; [reflexivity|]. simpl. lia. }
  assert (Hsg : exists s',
    run (SkipGram.executeAggregate example_arguments [0; 2; 2; 3; 4; 3; 1; 5]
           [[1; 2]; [1; 0]] [q_ 1 10; q_ 7 1]) s = Some (tt, s'))
    by (vm_compute; eexists; reflexivity).
  assert (Hcb : exists s',
    run (CBOW.executeAggregate example_arguments [2; 2; 3; 4; 3; 1; 5; 3; 0]
           [[2; 0; 2]; [1; 2]; [1; 0]] [q_ 1 10; q_ 7 1]) s = Some (tt, s'))
    by (vm_compute; eexists; reflexivity).
  destruct Hsg as [s1 Hsg]. destruct Hcb as [s2 Hcb]. split.
  - exists s1. split; [exact Hsg|].
    exact (proj1 (C5_collisions_consume_rounds 2 3 3 1 5 (Ptr 3 0) (q_ 7 1)
                    example_table H1 H2 H4 H5 H6 H7 H8 s s1 (Ptr 0 0) (Ptr 1 0)
                    (Ptr 2 0) (Ptr 4 0) 0 2 4 3 0 [2; 0; 2] [1; 2] [1; 0] []
                    (q_ 1 10) [] H9) H3 Hsg).
  - exists s2. split; [exact Hcb|].
    exact (proj2 (C5_collisions_consume_rounds 2 3 3 1 5 (Ptr 3 0) (q_ 7 1)
                    example_table H1 H2 H4 H5 H6 H7 H8 s s2 (Ptr 0 0) (Ptr 1 0)
                    (Ptr 2 0) (Ptr 4 0) 0 2 4 3 0 [2; 0; 2] [1; 2] [1; 0] []
                    (q_ 1 10) [] H9) Hcb).
Defined.

(** The reading of C5 in which a collision does not cost a round fails on
    the small model: CBOW with [ngRounds = 3] and seed 7 draws 2, 1 and 2;
    the draw of [ngStarter = 1] is discarded and not made up for, and
    only two negative rounds are run. *)
Lemma C5_counterexample :
  let s := State example_model [] in
  exists s',
    run (CBOW.executeAggregate example_arguments [2; 2; 3; 4; 3; 1; 5; 3; 0]
           [[2; 0; 2]; [1; 2]; [1; 0]] [q_ 1 10; q_ 7 1]) s = Some (tt, s') /\
    draws example_table 5 3 7 (Z.to_nat 3) = [2; 1; 2] /\
    length (drawn_negatives (new_calls s s')) = 2%nat /\
    ~ all_rounds_completed (new_calls s s') 3.
Proof.
  intros s. eexists.
  split; [vm_compute; reflexivity|]. split; [vm_compute; reflexivity|].
  split; [vm_compute; reflexivity|].
  unfold all_rounds_completed. intros H. vm_compute in H. discriminate H.
Qed.

Lemma C8_draws_deterministic_witness :
  let s1 := State example_model [] in
  let s2 := State example_model_2 [] in
  exists s1' s2',
    run (SkipGram.executeAggregate example_arguments [0; 2; 2; 3; 4; 3; 1; 5]
           [[1; 2]; [1; 0]] [q_ 1 10; q_ 7 1]) s1 = Some (tt, s1') /\
    run (SkipGram.executeAggregate example_arguments [1; 2; 0; 3; 4; 3; 1; 5]
           [[]; []] [q_ 1 2; q_ 7 1]) s2 = Some (tt, s2') /\
    negative_targets (new_calls s1 s1') = negative_targets (new_calls s2 s2').
Proof.
  intros s1 s2.
  assert (H1 : 0 < 3) by lia.
  assert (H2 : 0 < 2) by lia.
  assert (H3 : int_range (0 * 2) = true) by reflexivity.
  assert (H3' : int_range (1 * 2) = true) by reflexivity.
  assert (H4 : 0 <= Qtrunc (q_ 7 1) < 2 ^ 64) by (by vm_compute).
  assert (H5 : 0 < 5) by lia.
  assert (H6 : int_range 5 = true) by reflexivity.
  assert (H7 : 2 <= 3) by lia.
  assert (H8 : int_range 3 = true) by reflexivity.
  assert (H9 : row (heap s1) (Ptr 4 0) 5 = Some example_table
               /\ (blk (Ptr 4 0) < length (heap s1))%nat
               /\ blk (Ptr 4 0) <> blk (Ptr 1 0)
               /\ blk (Ptr 4 0) <> blk (Ptr 3 0)).
  { split; [reflexivity|]. simpl. lia. }
  assert (H9' : row (heap s2) (Ptr 4 0) 5 = Some example_table
               /\ (blk (Ptr 4 0) < length (heap s2))%nat
               /\ blk (Ptr 4 0) <> blk (Ptr 1 0)
               /\ blk (Ptr 4 0) <> blk (Ptr 3 0)).
  { split; [reflexivity|]. simpl. lia. }
  assert (Hr1 : exists s',
    run (SkipGram.executeAggregate example_arguments [0; 2; 2; 3; 4; 3; 1; 5]
           [[1; 2]; [1; 0]] [q_ 1 10; q_ 7 1]) s1 = Some (tt, s'))
    by (vm_compute; eexists; reflexivity).
  assert (Hr2 : exists s',
    run (SkipGram.executeAggregate example_arguments [1; 2; 0; 3; 4; 3; 1; 5]
           [[]; []] [q_ 1 2; q_ 7 1]) s2 = Some (tt, s'))
    by (vm_compute; eexists; reflexivity).
  destruct Hr1 as [s1' Hr1]. destruct Hr2 as [s2' Hr2].
  exists s1', s2'. split; [exact Hr1|]. split; [exact Hr2|].
  exact (proj1 (proj2 (C8_draws_deterministic 2 3 3 1 5 (Ptr 3 0) (q_ 7 1)
                         example_table H1 H2 H4 H5 H6 H7 H8
                         s1 s1' (Ptr 0 0) (Ptr 1 0) (Ptr 2 0) (Ptr 4 0) 0 2 4
                         0 0 [] [1; 2] [1; 0] [] (q_ 1 10) []
                         s2 s2' (Ptr 0 0) (Ptr 1 0) (Ptr 2 0) (Ptr 4 0) 1 0 4
                         0 0 [] [] [] [] (q_ 1 2) [] H9 H9'))
                H3 H3' Hr1 Hr2).
Defined.

(** The end-to-end scenario of the specification: rows [1,0,0,0] and
    [0,1,0,0], a table in which [dot = 0] reads [f = 1/2], [code = 1] and
    [alpha = 1/10] give [g = -1/20], [neu1e += g * [0,1,0,0]] and
    [syn1 += g * [1,0,0,0]]. *)
Example end_to_end_scenario :
  let e := [Qc_of_Z 1; Qc_of_Z 0; Qc_of_Z 0; Qc_of_Z 0] in
  let t := [Qc_of_Z 0; Qc_of_Z 1; Qc_of_Z 0; Qc_of_Z 0] in
  exists s',
    run (HierarchicSoftmax.executeAggregate
           [Ptr 0 0; Ptr 1 0; Ptr 2 0; Ptr 3 0] [4; 2; 1] [] [q_ 1 10])
        (State (example_heap e t) []) = Some (tt, s') /\
    map this <$> row (heap s') (Ptr 3 0) 4 = Some [0; - (1 # 20); 0; 0]%Q /\
    map this <$> row (heap s') (Ptr 1 0) 4 = Some [- (1 # 20); 1; 0; 0]%Q /\
    map this <$> row (heap s') (Ptr 0 0) 4 = Some [1; 0; 0; 0]%Q.
Proof.
  intros e t. eexists. split; [vm_compute; reflexivity|].
  repeat split; vm_compute; reflexivity.
Qed.

(** * Further properties *)

(** ** The [dot] loop fails exactly on a cell that is not allocated *)

Lemma dot_loop_Some a b n s r :
  dot_loop a b n s = Some r ->
  is_Some (row (heap s) a n) /\ is_Some (row (heap s) b n).
Proof.
  intros Hrun. destruct r as [d s'].
  unfold dot_loop, for_ in Hrun.
  pose (I := fun (i : Z) (_ : Qc) (s1 : state) =>
    s1 = s /\ forall j, 0 <= j < i ->
      is_Some (cell (heap s) a j) /\ is_Some (cell (heap s) b j)).
  assert (HI : I (0 + Z.of_nat (Z.to_nat n)) d s').
  { eapply (for_from_inv _ I); [|split; [done|intros; lia]|exact Hrun].
    intros i v s0 v1 s1 [-> Hi] Hb.
    apply bind_Some in Hb as (u & ? & (? & Hu & [= <- ->])%load_Some & Hb).
    apply bind_Some in Hb as (w & ? & (? & Hw & [= <- ->])%load_Some & Hb).
    injection Hb as <- <-. split; [done|]. intros j Hj.
    destruct (decide (j = i)) as [->|]; [by rewrite Hu, Hw; eauto|].
    apply Hi. lia. }
  destruct HI as [_ HI].
  split; apply row_is_Some; intros j Hj; apply HI; lia.
Qed.

(** ** Dot *)

(** X1. [Dot] stores the dot product of the two rows, accumulated in
    the order of the loop, in [vecZ[0]] and changes no other cell; as
    the store follows every read, this also holds when [vecZ] points
    into one of the rows. *)
Theorem Dot_stores_the_dot_product
    (s : state) (vecX vecY vecZ : ptr) (vectorLength : Z)
    (arguments : list ptr) (indexArguments : list Z)
    (intArrays : list (list Z)) (realArguments : list Qc) (x y : list Qc) :
  row (heap s) vecX vectorLength = Some x ->
  row (heap s) vecY vectorLength = Some y ->
  is_Some (cell (heap s) vecZ 0) ->
  exists s',
    run (Dot.executeAggregate (vecX :: vecY :: vecZ :: arguments)
           (vectorLength :: indexArguments) intArrays realArguments) s
    = Some (tt, s') /\
    calls s' = calls s /\
    forall q j,
      cell (heap s') q j
      = if decide (blk q = blk vecZ /\ ofs q + j = ofs vecZ + 0)
        then Some (dot_product x y)
        else cell (heap s) q j.
Proof.
  intros Hx Hy Hz.
  destruct (set_cell_is_Some (heap s) vecZ 0 (dot_product x y) Hz) as [h' Hset].
  exists (State h' (calls s)). split; [|split; [done|]].
  - unfold run, Dot.executeAggregate. do 4 run_at.
    run_with (dot_loop_run s vecX vecY vectorLength x y Hx Hy).
    apply store_Some. eauto.
  - intros q j. simpl. by apply cell_set_cell.
Qed.

Lemma Dot_stores_the_dot_product_witness :
  let s := State example_model [] in
  exists s',
    run (Dot.executeAggregate [Ptr 0 2; Ptr 1 2; Ptr 0 3] [3] [] []) s
    = Some (tt, s') /\
    calls s' = calls s /\
    forall q j,
      cell (heap s') q j
      = if decide (blk q = blk (Ptr 0 3) /\ ofs q + j = ofs (Ptr 0 3) + 0)
        then Some (dot_product [q_ 0 1; q_ 1 1; q_ 1 1] [q_ 1 1; q_ 0 1; q_ 1 2])
        else cell (heap s) q j.
Proof.
  intros s.
  apply (Dot_stores_the_dot_product s (Ptr 0 2) (Ptr 1 2) (Ptr 0 3) 3 [] [] [] []
           [q_ 0 1; q_ 1 1; q_ 1 1] [q_ 1 1; q_ 0 1; q_ 1 2]);
    [reflexivity | reflexivity | by eexists].
Defined.

(** X2. [Dot] has defined behaviour exactly when the [vectorLength]
    cells of both rows and the cell [vecZ[0]] are allocated; with
    [vectorLength <= 0] no cell of the rows is read. *)
Theorem Dot_defined_iff
    (s : state) (vecX vecY vecZ : ptr) (vectorLength : Z)
    (arguments : list ptr) (indexArguments : list Z)
    (intArrays : list (list Z)) (realArguments : list Qc) :
  is_Some (run (Dot.executeAggregate (vecX :: vecY :: vecZ :: arguments)
                  (vectorLength :: indexArguments) intArrays realArguments) s)
  <-> (forall j, 0 <= j < vectorLength ->
         is_Some (cell (heap s) vecX j) /\ is_Some (cell (heap s) vecY j)) /\
      is_Some (cell (heap s) vecZ 0).
Proof.
  unfold run, Dot.executeAggregate. do 4 run_at. split.
  - intros [r Hrun].
    apply bind_Some in Hrun as (d & s1 & Hdot & Hst).
    pose proof (stateless_dot_loop _ _ _ _ _ _ Hdot) as ->.
    apply dot_loop_Some in Hdot as [[x Hx] [y Hy]].
    apply store_Some in Hst as (h & Hset & _). split.
    + intros j Hj.
      rewrite (row_cell _ _ _ _ _ Hx), (row_cell _ _ _ _ _ Hy) by done.
      split; apply lookup_lt_is_Some.
      * rewrite (row_length _ _ _ _ Hx). lia.
      * rewrite (row_length _ _ _ _ Hy). lia.
    + unfold set_cell, cell in *. case_bool_decide; [|done].
      destruct (heap s !! blk vecZ) as [[d0|]|]; try done.
      case_bool_decide; [|done]. by apply lookup_lt_is_Some.
  - intros [Hrows Hz].
    destruct (row_is_Some (heap s) vecX vectorLength) as [x Hx];
      [intros; by apply Hrows|].
    destruct (row_is_Some (heap s) vecY vectorLength) as [y Hy];
      [intros; by apply Hrows|].
    run_with (dot_loop_run s vecX vecY vectorLength x y Hx Hy).
    destruct (set_cell_is_Some (heap s) vecZ 0 (dot_product x y) Hz) as [h' Hset].
    exists (tt, State h' (calls s)). apply store_Some. eauto.
Qed.


(** ** Update loops on rows that may overlap *)

(** When the row read is not behind the row written, every read sees the
    value the cell had before the loop. *)
Lemma update_from_ahead f x_ y : blk x_ <> blk y \/ ofs y <= ofs x_ ->
  forall (k : nat) i s,
  (forall j, i <= j < i + Z.of_nat k ->
     is_Some (cell (heap s) x_ j) /\ is_Some (cell (heap s) y j)) ->
  exists h',
    for_from k i
      (fun x _ => u <- load x_ x ;; v <- load y x ;; store y x (f u v)) tt s
    = Some (tt, State h' (calls s)) /\
    updated f (heap s) x_ y i (i + Z.of_nat k) h'.
Proof.
  intros Hblk k. induction k as [|k IH]; intros i s Hv.
  - exists (heap s). split; [by destruct s|].
    repeat split; try done. intros q j. rewrite decide_False by lia. done.
  - destruct (Hv i) as [[u Hu] [v Hy]]; [lia|].
    destruct (set_cell_is_Some (heap s) y i (f u v)) as [h1 Hset]; [by eexists|].
    pose proof (fun q j => cell_set_cell _ _ _ _ _ q j Hset) as Hc1.
    pose proof (set_cell_frame _ _ _ _ _ Hset) as [Hlen1 Hfr1].
    destruct (IH (i + 1) (State h1 (calls s))) as (h' & Hrun & Hlen & Hfr & Hc).
    { intros j Hj. simpl. rewrite !Hc1.
      rewrite decide_False by (destruct Hblk; [tauto|lia]).
      rewrite decide_False by lia.
      apply Hv. lia. }
    exists h'. split.
    { simpl. run_with (load_run _ _ _ _ Hu). run_with (load_run _ _ _ _ Hy).
      erewrite bind_run; [exact Hrun|].
      apply store_Some. eauto. }
    simpl in *. split; [congruence|]. split.
    { intros b Hb. rewrite Hfr, Hfr1; done. }
    intros q j. rewrite Hc, !Hc1.
    repeat case_decide; try (exfalso; lia); try done.
    rewrite (cell_addr _ y i q j) by lia.
    replace (ofs q + j - ofs y) with i by lia.
    by rewrite Hu, Hy.
Qed.

Lemma update_loop_ahead f x_ y n s :
  blk x_ <> blk y \/ ofs y <= ofs x_ ->
  is_Some (row (heap s) x_ n) -> is_Some (row (heap s) y n) ->
  exists h',
    update_loop f x_ y n s = Some (tt, State h' (calls s)) /\
    updated f (heap s) x_ y 0 (Z.max 0 n) h'.
Proof.
  intros Hblk [X HX] [Y HY].
  destruct (update_from_ahead f x_ y Hblk (Z.to_nat n) 0 s) as (h' & Hrun & Hupd).
  { intros j Hj. rewrite (row_cell _ _ _ _ _ HX), (row_cell _ _ _ _ _ HY) by lia.
    split; apply lookup_lt_is_Some.
    - rewrite (row_length _ _ _ _ HX). lia.
    - rewrite (row_length _ _ _ _ HY). lia. }
  exists h'. split; [done|].
  replace (Z.max 0 n) with (0 + Z.of_nat (Z.to_nat n)) by lia. done.
Qed.

(** An update loop fails exactly on a cell that is not allocated,
    however the two rows overlap. *)
Lemma cell_set_cell_is_Some h p i v h' q j :
  set_cell h p i v = Some h' -> is_Some (cell h' q j) <-> is_Some (cell h q j).
Proof.
  intros Hset. rewrite (cell_set_cell _ _ _ _ _ q j Hset).
  case_decide as Hq; [|done]. destruct Hq as [Hb Ho].
  rewrite (cell_addr h p i q j Hb Ho).
  assert (is_Some (cell h p i)) as Hp.
  { unfold set_cell, cell in *. case_bool_decide; [|done].
    destruct (h !! blk p) as [[d|]|]; try done.
    case_bool_decide; [|done]. by apply lookup_lt_is_Some. }
  split; [done|by eexists].
Qed.

Lemma update_from_defined f x_ y : forall (k : nat) i s,
  is_Some (for_from k i
             (fun x _ => u <- load x_ x ;; v <- load y x ;; store y x (f u v))
             tt s)
  <-> forall j, i <= j < i + Z.of_nat k ->
        is_Some (cell (heap s) x_ j) /\ is_Some (cell (heap s) y j).
Proof.
  induction k as [|k IH]; intros i s; simpl.
  - split; [intros _ j Hj; lia|by eexists].
  - split.
    + intros [r Hrun].
      apply bind_Some in Hrun as ([] & s1 & Hb & Hrest).
      apply bind_Some in Hb as (u & ? & (? & Hu & [= <- ->])%load_Some & Hb).
      apply bind_Some in Hb as (v & ? & (? & Hv & [= <- ->])%load_Some & Hb).
      apply store_Some in Hb as (h1 & Hset & [= ->]).
      intros j Hj. destruct (decide (j = i)) as [->|Hne].
      * rewrite Hu, Hv. split; by eexists.
      * destruct (proj1 (IH (i + 1) (State h1 (calls s))) (ex_intro _ r Hrest) j)
          as [Hx Hy]; [lia|]. simpl in Hx, Hy.
        rewrite (cell_set_cell_is_Some _ _ _ _ _ _ _ Hset) in Hx.
        by rewrite (cell_set_cell_is_Some _ _ _ _ _ _ _ Hset) in Hy.
    + intros Hc. destruct (Hc i) as [[u Hu] [v Hv]]; [lia|].
      destruct (set_cell_is_Some (heap s) y i (f u v)) as [h1 Hset]; [by eexists|].
      destruct (proj2 (IH (i + 1) (State h1 (calls s)))) as [r Hr].
      { intros j Hj. simpl.
        rewrite !(cell_set_cell_is_Some _ _ _ _ _ _ _ Hset). apply Hc. lia. }
      exists r. run_with (load_run _ _ _ _ Hu). run_with (load_run _ _ _ _ Hv).
      erewrite bind_run; [exact Hr|]. apply store_Some. eauto.
Qed.

(** ** Loops whose body is only known to behave inside the range *)
Lemma preserves_for_range (P : state -> state -> Prop) `{!PreOrder P} {St}
    (body : Z -> St -> M St) : forall (n : nat) i x,
  (forall j v, i <= j < i + Z.of_nat n -> preserves P (body j v)) ->
  preserves P (for_from n i body x).
Proof.
  induction n as [|n IH]; intros i x Hb; simpl.
  - by apply preserves_ret.
  - apply preserves_bind; [done|apply Hb; lia|].
    intros v. apply IH. intros j w Hj. apply Hb. lia.
Qed.

(** ** Footprints *)

#[export] Instance writes_only_preorder rs : PreOrder (writes_only rs).
Proof.
  split.
  - by intros s q j _.
  - intros s1 s2 s3 H1 H2 q j Hq. by rewrite H2, H1.
Qed.

Lemma writes_only_store rs p i v r :
  r ∈ rs -> in_row r p i -> preserves (writes_only rs) (store p i v).
Proof.
  intros Hr [Hb Ho] s [] s' (h & Hset & [= ->])%store_Some q j Hq. simpl.
  rewrite (cell_set_cell _ _ _ _ _ q j Hset).
  case_decide as Hqp; [|done]. destruct Hqp as [Hb' Ho'].
  destruct (Hq r Hr). split; [congruence|lia].
Qed.

Lemma writes_only_log rs c : preserves (writes_only rs) (log_call c).
Proof. by intros s [] s' [= <-] q j _. Qed.

Lemma writes_only_update_loop rs f x_ y n :
  (y, n) ∈ rs -> preserves (writes_only rs) (update_loop f x_ y n).
Proof.
  intros Hin. unfold update_loop, for_.
  apply preserves_for_range; [apply _|]. intros j [] Hj.
  apply preserves_bind; [apply _|..].
  { apply preserves_stateless; [apply _|solve_stateless]. }
  intros u. apply preserves_bind; [apply _|..].
  { apply preserves_stateless; [apply _|solve_stateless]. }
  intros v. apply (writes_only_store rs y j _ (y, n)); [done|].
  split; simpl; [done|lia].
Qed.

#[export] Instance same_length_preorder : PreOrder same_length.
Proof. split; [by intros s|]. unfold same_length. intros s1 s2 s3. congruence. Qed.

Lemma same_length_store p i v : preserves same_length (store p i v).
Proof.
  intros s [] s' (h & Hset & [= ->])%store_Some.
  by destruct (set_cell_frame _ _ _ _ _ Hset).
Qed.

Lemma same_length_log c : preserves same_length (log_call c).
Proof. by intros s [] s' [= <-]. Qed.

(** ** Axpy *)

(** X3. [Axpy] on a row [vecX] that does not start behind [vecY] in the
    same buffer (another buffer, the same row, or a row further on):
    [vecY[i]] becomes [alpha * vecX[i] + vecY[i]] for the values the rows
    had before the call, and nothing else changes. *)
Theorem Axpy_updates_vecY
    (s : state) (vecX vecY : ptr) (vectorLength : Z) (alpha : Qc)
    (arguments : list ptr) (indexArguments : list Z)
    (intArrays : list (list Z)) (realArguments : list Qc) (x y : list Qc) :
  blk vecX <> blk vecY \/ ofs vecY <= ofs vecX ->
  row (heap s) vecX vectorLength = Some x ->
  row (heap s) vecY vectorLength = Some y ->
  exists s',
    run (Axpy.executeAggregate (vecX :: vecY :: arguments)
           (vectorLength :: indexArguments) intArrays (alpha :: realArguments)) s
    = Some (tt, s') /\
    calls s' = calls s /\
    row (heap s') vecY vectorLength
    = Some (zip_with (fun u v => alpha * u + v)%Qc x y) /\
    writes_only [(vecY, vectorLength)] s s'.
Proof.
  intros Hal Hx Hy.
  destruct (update_loop_ahead (fun u v => alpha * u + v)%Qc vecX vecY
              vectorLength s Hal) as (h' & Hrun & Hupd); [by eexists..|].
  exists (State h' (calls s)). split; [|split; [done|split]].
  - unfold run, Axpy.executeAggregate. by do 4 run_at.
  - simpl. by eapply updated_row_target.
  - by eapply writes_only_update_loop; [constructor|exact Hrun].
Qed.

Lemma Axpy_updates_vecY_witness :
  let s := State example_model [] in
  exists s',
    run (Axpy.executeAggregate [Ptr 0 2; Ptr 0 0] [3] [] [q_ 1 2]) s
    = Some (tt, s') /\
    calls s' = calls s /\
    row (heap s') (Ptr 0 0) 3
    = Some (zip_with (fun u v => q_ 1 2 * u + v)%Qc
              [q_ 0 1; q_ 1 1; q_ 1 1] [q_ 1 1; q_ 0 1; q_ 0 1]) /\
    writes_only [(Ptr 0 0, 3)] s s'.
Proof.
  intros s.
  apply (Axpy_updates_vecY s (Ptr 0 2) (Ptr 0 0) 3 (q_ 1 2) [] [] [] []
           [q_ 0 1; q_ 1 1; q_ 1 1] [q_ 1 1; q_ 0 1; q_ 0 1]);
    [right; simpl; lia | reflexivity | reflexivity].
Defined.

(** X4. [Axpy] on a row [vecX] that does not start behind [vecY] in the
    same buffer (another buffer, the same row, or a row further on), so
    that no iteration of the loop reads a cell an earlier one wrote: the
    call has defined behaviour exactly when the [vectorLength] cells of
    both rows are allocated; with [vectorLength <= 0] it always has. *)
Theorem Axpy_defined_iff
    (s : state) (vecX vecY : ptr) (vectorLength : Z) (alpha : Qc)
    (arguments : list ptr) (indexArguments : list Z)
    (intArrays : list (list Z)) (realArguments : list Qc) :
  blk vecX <> blk vecY \/ ofs vecY <= ofs vecX ->
  is_Some (run (Axpy.executeAggregate (vecX :: vecY :: arguments)
                  (vectorLength :: indexArguments) intArrays
                  (alpha :: realArguments)) s)
  <-> forall j, 0 <= j < vectorLength ->
        is_Some (cell (heap s) vecX j) /\ is_Some (cell (heap s) vecY j).
Proof.
  intros _. unfold run, Axpy.executeAggregate. do 4 run_at.
  unfold axpy_loop, update_loop, for_. rewrite update_from_defined.
  split; intros H j Hj; apply H; lia.
Qed.

Lemma Axpy_defined_iff_witness :
  let s := State example_model [] in
  is_Some (run (Axpy.executeAggregate [Ptr 0 2; Ptr 0 0] [3] [] [q_ 1 2]) s)
  <-> forall j, 0 <= j < 3 ->
        is_Some (cell (heap s) (Ptr 0 2) j) /\
        is_Some (cell (heap s) (Ptr 0 0) j).
Proof.
  intros s.
  apply (Axpy_defined_iff s (Ptr 0 2) (Ptr 0 0) 3 (q_ 1 2) [] [] [] []).
  right; simpl; lia.
Defined.

(** X5. Whatever the two rows are, and however they overlap, [Axpy]
    writes no cell outside [vecY[0 .. vectorLength)]: every other cell
    keeps its value, and no block is allocated or freed. *)
Theorem Axpy_footprint
    (s s' : state) (vecX vecY : ptr) (vectorLength : Z) (alpha : Qc)
    (arguments : list ptr) (indexArguments : list Z)
    (intArrays : list (list Z)) (realArguments : list Qc) :
  run (Axpy.executeAggregate (vecX :: vecY :: arguments)
         (vectorLength :: indexArguments) intArrays (alpha :: realArguments)) s
  = Some (tt, s') ->
  writes_only [(vecY, vectorLength)] s s' /\ same_shape s s' /\
  length (heap s') = length (heap s) /\ calls s' = calls s.
Proof.
  unfold run, Axpy.executeAggregate. do 4 run_at. intros Hrun.
  split; [|split; [|split]].
  - by eapply writes_only_update_loop; [constructor|exact Hrun].
  - by apply (structural_update_loop same_shape same_shape_store) in Hrun.
  - by apply (structural_update_loop same_length same_length_store) in Hrun.
  - by apply (structural_update_loop same_calls same_calls_store) in Hrun.
Qed.

Lemma Axpy_footprint_witness :
  let s := State example_model [] in
  exists s',
    run (Axpy.executeAggregate [Ptr 0 0; Ptr 0 1] [3] [] [q_ 1 2]) s
    = Some (tt, s') /\
    writes_only [(Ptr 0 1, 3)] s s' /\ same_shape s s' /\
    length (heap s') = length (heap s) /\ calls s' = calls s.
Proof.
  intros s.
  assert (Hrun : exists s',
    run (Axpy.executeAggregate [Ptr 0 0; Ptr 0 1] [3] [] [q_ 1 2]) s
    = Some (tt, s')) by (vm_compute; eexists; reflexivity).
  destruct Hrun as [s' Hrun]. exists s'. split; [exact Hrun|].
  exact (Axpy_footprint s s' (Ptr 0 0) (Ptr 0 1) 3 (q_ 1 2) [] [] [] [] Hrun).
Defined.

(** ** The footprint of the two kernels *)

Ltac footprint_step :=
  match goal with
  | |- preserves _ (bind _ _) => apply preserves_bind; [apply _| |intros ?]
  | |- preserves _ (if ?b then _ else _) => destruct b
  | |- preserves _ (match ?o with Some _ => _ | None => _ end) => destruct o
  | |- preserves _ (ret _) => apply preserves_ret; apply _
  | |- preserves _ (axpy_loop _ _ _ _) =>
      apply writes_only_update_loop; rewrite !elem_of_cons; tauto
  | |- preserves _ _ =>
      apply preserves_stateless;
      [apply _ | first [apply stateless_exp_index | apply stateless_gradient
                       | apply stateless_dot_loop | solve_stateless]]
  end.

(** X6. Either kernel, whatever its rows are and however they overlap,
    writes no cell outside the target row [arguments[1]] and the
    accumulator [arguments[3]], both of [vectorLength] cells: the
    embedding row, the table and every other cell keep their values, no
    block is allocated or freed, and the log grows by the one entry of
    this invocation. *)
Theorem kernel_footprint
    (k : kernel) (s s' : state) (syn0 target expTable neu1e : ptr)
    (vectorLength expLength code : Z) (alpha : Qc)
    (arguments : list ptr) (indexArguments : list Z)
    (intArrays : list (list Z)) (realArguments : list Qc) :
  let args := syn0 :: target :: expTable :: neu1e :: arguments in
  let idxArgs := vectorLength :: expLength :: code :: indexArguments in
  run (match k with
       | HS => HierarchicSoftmax.executeAggregate
       | NS => NegativeSampling.executeAggregate
       end args idxArgs intArrays (alpha :: realArguments)) s = Some (tt, s') ->
  writes_only [(target, vectorLength); (neu1e, vectorLength)] s s' /\
  same_shape s s' /\ length (heap s') = length (heap s) /\
  calls s' = calls s ++ [Call k args idxArgs].
Proof.
  intros args idxArgs Hrun. unfold run in Hrun.
  split; [|split; [|split]].
  - destruct k;
      unfold HierarchicSoftmax.executeAggregate,
        NegativeSampling.executeAggregate in Hrun;
      apply bind_Some in Hrun as ([] & s1 & [= Hs1] & Hrun);
      revert Hrun; do 8 run_at; intros Hrun;
      (transitivity s1; [by rewrite <- Hs1|]);
      revert Hrun;
      match goal with
      | |- ?c ?s = _ -> _ =>
          assert (Hp : preserves
                         (writes_only [(target, vectorLength);
                                       (neu1e, vectorLength)]) c)
            by repeat footprint_step
      end;
      apply Hp.
  - destruct k.
    + by apply (structural_HS same_shape same_shape_store same_shape_log) in Hrun.
    + by apply (structural_NS same_shape same_shape_store same_shape_log) in Hrun.
  - destruct k.
    + by apply (structural_HS same_length same_length_store same_length_log)
        in Hrun.
    + by apply (structural_NS same_length same_length_store same_length_log)
        in Hrun.
  - by destruct (kernel_effect k _ _ _ _ _ _ Hrun) as (? & ? & _ & _ & ? & _).
Qed.

Lemma kernel_footprint_witness :
  let e := [Qc_of_Z 1; Qc_of_Z 0; Qc_of_Z 0; Qc_of_Z 0] in
  let t := [Qc_of_Z 0; Qc_of_Z 1; Qc_of_Z 0; Qc_of_Z 0] in
  let alpha := (Qc_of_Z 1 / Qc_of_Z 10)%Qc in
  let s := State (example_heap e t) [] in
  let args := [Ptr 0 0; Ptr 1 0; Ptr 2 0; Ptr 3 0] in
  exists s',
    run (NegativeSampling.executeAggregate args [4; 2; 1] [] [alpha]) s
    = Some (tt, s') /\
    writes_only [(Ptr 1 0, 4); (Ptr 3 0, 4)] s s' /\
    same_shape s s' /\ length (heap s') = length (heap s) /\
    calls s' = calls s ++ [Call NS args [4; 2; 1]].
Proof.
  intros e t alpha s args.
  assert (Hrun : exists s',
    run (NegativeSampling.executeAggregate args [4; 2; 1] [] [alpha]) s
    = Some (tt, s')) by (vm_compute; eexists; reflexivity).
  destruct Hrun as [s' Hrun]. exists s'. split; [exact Hrun|].
  exact (kernel_footprint NS s s' (Ptr 0 0) (Ptr 1 0) (Ptr 2 0) (Ptr 3 0)
           4 2 1 alpha [] [] [] [] Hrun).
Defined.

(** ** Rounds keep what the kernels keep *)

Section rounds_of_kernels.
Context (P : state -> state -> Prop) `{!PreOrder P} (reals : list Qc).
Hypothesis P_HS : forall a i ia,
  preserves P (HierarchicSoftmax.executeAggregate a i ia reals).
Hypothesis P_NS : forall a i ia,
  preserves P (NegativeSampling.executeAggregate a i ia reals).

Ltac lift_step :=
  match goal with
  | |- preserves _ (bind _ _) => apply preserves_bind; [apply _| |intros ?]
  | |- preserves _ (if ?b then _ else _) => destruct b
  | |- preserves _ (ret _) => apply preserves_ret; apply _
  | |- preserves _ (for_ _ _ _) => apply preserves_for; [apply _|intros ? ?]
  | |- preserves _ (let '(_, _) := ?x in _) => destruct x
  | |- preserves _ (HierarchicSoftmax.executeAggregate _ _ _ _) => apply P_HS
  | |- preserves _ (NegativeSampling.executeAggregate _ _ _ _) => apply P_NS
  | |- preserves _ _ =>
      apply preserves_stateless;
      [apply _ | first [apply stateless_draw_target
                       | unfold iadd, isub, imul; solve_stateless]]
  end.

Lemma lift_hierarchic_rounds hsRounds vl syn1 idxSyn1 codes st :
  preserves P (hierarchic_rounds hsRounds vl syn1 idxSyn1 codes reals st).
Proof. unfold hierarchic_rounds. repeat lift_step. Qed.

Lemma lift_negative_rounds ngRounds ngStarter vl len vocab syn1Neg negTable
    st seed :
  preserves P (negative_rounds ngRounds ngStarter vl len vocab syn1Neg
                 negTable reals st seed).
Proof. unfold negative_rounds, negative_call. repeat lift_step. Qed.
End rounds_of_kernels.

(** ** A learning rate of zero *)

#[export] Instance heap_kept_preorder : PreOrder heap_kept.
Proof. split; [by intros s|]. unfold heap_kept. intros s1 s2 s3. congruence. Qed.

(** A loop that stores back what it read. *)
Lemma heap_kept_update_loop f x_ y n :
  (forall s i u v, 0 <= i < n ->
     cell (heap s) x_ i = Some u -> cell (heap s) y i = Some v -> f u v = v) ->
  preserves heap_kept (update_loop f x_ y n).
Proof.
  intros Hf. unfold update_loop, for_.
  apply preserves_for_range; [apply _|]. intros j [] Hj s [] s' Hb.
  apply bind_Some in Hb as (u & ? & (? & Hu & [= <- ->])%load_Some & Hb).
  apply bind_Some in Hb as (v & ? & (? & Hv & [= <- ->])%load_Some & Hb).
  apply store_Some in Hb as (h & Hset & [= ->]).
  rewrite (Hf s j u v) in Hset by (done || lia).
  rewrite (set_cell_same _ _ _ _ Hv) in Hset. by injection Hset as <-.
Qed.

Lemma heap_kept_axpy_zero g x_ y n :
  g = 0%Qc -> preserves heap_kept (axpy_loop g x_ y n).
Proof.
  intros ->. apply heap_kept_update_loop. intros _ _ u v _ _ _. ring.
Qed.

Lemma heap_kept_log c : preserves heap_kept (log_call c).
Proof. by intros s [] s' [= <-]. Qed.

Lemma gradient_zero_rate dot code expLength expTable s og s' :
  NegativeSampling.gradient dot code expLength expTable 0 s = Some (og, s') ->
  og = None \/ og = Some 0%Qc.
Proof.
  unfold NegativeSampling.gradient. intros H.
  repeat case_bool_decide.
  - apply bind_Some in H as (c & ? & _ & [= <- _]). right. f_equal. ring.
  - apply bind_Some in H as (c & ? & _ & [= <- _]). right. f_equal. ring.
  - apply bind_Some in H as (idx & ? & _ & H).
    case_bool_decide; [injection H as <- _; by left|].
    apply bind_Some in H as (f & ? & _ & [= <- _]). right. f_equal. ring.
Qed.

Lemma kernel_zero_rate (k : kernel) arguments indexArguments intArrays reals :
  preserves heap_kept
    (match k with
     | HS => HierarchicSoftmax.executeAggregate
     | NS => NegativeSampling.executeAggregate
     end arguments indexArguments intArrays (0%Qc :: reals)).
Proof.
  intros s [] s' H.
  destruct k; unfold HierarchicSoftmax.executeAggregate,
    NegativeSampling.executeAggregate in H;
    apply bind_Some in H as ([] & s1 & [= Hs1] & H); subst s1;
    invert_at H vectorLength Hvl; invert_at H expLength HL;
    invert_at H code Hcode; invert_at H syn0 H0; invert_at H syn1 H1;
    invert_at H expTable Ht; invert_at H neu1e He; invert_at H alpha Ha;
    injection Ha as <-;
    apply bind_Some in H as (dot & s1 & Hdot & H);
    apply stateless_dot_loop in Hdot as ->.
  - revert H.
    match goal with
    | |- ?c ?s = _ -> _ => assert (Hp : preserves heap_kept c)
    end; [|intros H%Hp; exact H].
    repeat match goal with
    | |- preserves _ (bind _ _) => apply preserves_bind; [apply _| |intros ?]
    | |- preserves _ (if ?b then _ else _) => destruct b
    | |- preserves _ (ret _) => apply preserves_ret; apply _
    | |- preserves _ (axpy_loop _ _ _ _) => apply heap_kept_axpy_zero; ring
    | |- preserves _ _ =>
        apply preserves_stateless;
        [apply _ | first [apply stateless_exp_index | solve_stateless]]
    end.
  - apply bind_Some in H as (og & s1 & Hg & H).
    pose proof (stateless_gradient _ _ _ _ _ _ _ _ Hg) as ->.
    apply gradient_zero_rate in Hg as [->| ->]; [by injection H as <-|].
    apply bind_Some in H as ([] & s1 & H1' & H2').
    apply (heap_kept_axpy_zero 0%Qc) in H1', H2'; try done.
    unfold heap_kept in *. simpl in *. congruence.
Qed.

(** A loop that stores back what it read leaves the heap as it is. *)
Lemma update_loop_kept f x_ y n s0 s' :
  (forall i u v, cell (heap s0) x_ i = Some u -> cell (heap s0) y i = Some v ->
     f u v = v) ->
  update_loop f x_ y n s0 = Some (tt, s') -> s' = s0.
Proof.
  intros Hf Hrun. unfold update_loop, for_ in Hrun.
  pose (I := fun (_ : Z) (_ : unit) (s1 : state) => s1 = s0).
  refine (for_from_inv _ I _ _ _ _ _ _ _ eq_refl Hrun).
  intros i [] s [] s1 -> Hb.
  apply bind_Some in Hb as (u & ? & (? & Hu & [= <- ->])%load_Some & Hb).
  apply bind_Some in Hb as (v & ? & (? & Hv & [= <- ->])%load_Some & Hb).
  apply store_Some in Hb as (h & Hset & [= ->]).
  rewrite (Hf i u v Hu Hv), (set_cell_same _ _ _ _ Hv) in Hset.
  injection Hset as <-. by destruct s0.
Qed.

Lemma cell_fresh_zero (h : heap_t) n blocks i u :
  cell (h ++ Some (replicate n 0%Qc) :: blocks) (Ptr (length h) 0) i = Some u ->
  u = 0%Qc.
Proof.
  unfold cell. cbn [blk ofs]. case_bool_decide; [|done].
  rewrite (lookup_app_r h), Nat.sub_diag by lia. cbn [lookup list_lookup].
  by intros [-> _]%lookup_replicate.
Qed.

Lemma skipgram_prologue_Some (s : state)
    (syn0 syn1 expTable syn1Neg negTable : ptr)
    (syn0Row vectorLength hsRounds ngRounds expLength vocabSize ngStarter
       negTableLength : Z)
    (idxSyn1 codes : list Z) (intArrays : list (list Z))
    (alpha seed : Qc) (reals : list Qc) :
  is_Some (SkipGram.prologue [syn0; syn1; expTable; syn1Neg; negTable]
             [syn0Row; vectorLength; hsRounds; ngRounds; expLength; vocabSize;
              ngStarter; negTableLength]
             (idxSyn1 :: codes :: intArrays) (alpha :: seed :: reals) s) ->
  0 <= vectorLength /\ int_range (syn0Row * vectorLength) = true /\
  0 <= Qtrunc seed < 2 ^ 64.
Proof.
  intros [r H]. revert H. unfold SkipGram.prologue. do 8 run_at. intros H.
  apply bind_Some in H as (p & s0 & Hnew & H).
  unfold new_zeroed in Hnew. case_bool_decide as Hvl; [|done]. clear Hnew.
  revert H. run_at. intros H.
  apply bind_Some in H as (off & ? & [Hoff _]%checked_Some & H).
  revert H. do 7 run_at. intros H.
  apply bind_Some in H as (nr & ? & Hu & _).
  unfold to_u64 in Hu. case_bool_decide; done.
Qed.

Lemma cbow_prologue_Some (s : state) (syn0 syn1 expTable syn1Neg negTable : ptr)
    (vectorLength hsRounds ngRounds expLength vocabSize ngStarter
       negTableLength idxSyn0Length initialIdx : Z)
    (idxSyn0 idxSyn1 codes : list Z) (intArrays : list (list Z))
    (alpha seed : Qc) (reals : list Qc) :
  is_Some (CBOW.prologue [syn0; syn1; expTable; syn1Neg; negTable]
             [vectorLength; hsRounds; ngRounds; expLength; vocabSize; ngStarter;
              negTableLength; idxSyn0Length; initialIdx]
             (idxSyn0 :: idxSyn1 :: codes :: intArrays)
             (alpha :: seed :: reals) s) ->
  0 <= vectorLength /\ 0 <= Qtrunc seed < 2 ^ 64.
Proof.
  intros [r H]. revert H. unfold CBOW.prologue. do 12 run_at. intros H.
  apply bind_Some in H as (p & s0 & Hnew & H).
  unfold new_zeroed in Hnew. case_bool_decide as Hvl; [|done]. clear Hnew.
  apply bind_Some in H as (p1 & s1 & _ & H).
  revert H. do 6 run_at. intros H.
  apply bind_Some in H as (nr & ? & Hu & _).
  unfold to_u64 in Hu. case_bool_decide; done.
Qed.

(** X7. With a learning rate [alpha = 0] a SkipGram invocation changes
    no cell of the caller, whatever the rounds, the rows and the tables
    are: every gradient is zero, every store writes back the value it
    read, and the heap ends as it began but for the accumulator, which
    was allocated and is deleted again. *)
Theorem SkipGram_zero_rate
    (s s' : state) (syn0 syn1 expTable syn1Neg negTable : ptr)
    (syn0Row vectorLength hsRounds ngRounds expLength vocabSize ngStarter
       negTableLength : Z)
    (idxSyn1 codes : list Z) (intArrays : list (list Z))
    (seed : Qc) (reals : list Qc) :
  run (SkipGram.executeAggregate
         [syn0; syn1; expTable; syn1Neg; negTable]
         [syn0Row; vectorLength; hsRounds; ngRounds; expLength; vocabSize;
          ngStarter; negTableLength]
         (idxSyn1 :: codes :: intArrays) (0%Qc :: seed :: reals)) s
  = Some (tt, s') ->
  heap s' = heap s ++ [None].
Proof.
  unfold run, SkipGram.executeAggregate. intros Hrun.
  destruct (skipgram_prologue_Some s syn0 syn1 expTable syn1Neg negTable
    syn0Row vectorLength hsRounds ngRounds expLength vocabSize ngStarter
    negTableLength idxSyn1 codes intArrays 0%Qc seed reals)
    as (Hvl & Hoff & Hseed).
  { apply bind_Some in Hrun as (? & ? & -> & _). by eexists. }
  pose proof (skipgram_prologue_run s syn0 syn1 expTable syn1Neg negTable
    syn0Row vectorLength hsRounds ngRounds expLength vocabSize ngStarter
    negTableLength idxSyn1 codes intArrays 0%Qc seed reals Hvl Hoff Hseed)
    as Hpro.
  simpl in Hpro. rewrite (bind_run _ _ _ _ _ Hpro) in Hrun.
  apply bind_Some in Hrun as (v & s2 & Hrounds & Hfin).
  assert (Hk : heap_kept
    (State (heap s ++ [Some (replicate (Z.to_nat vectorLength) 0%Qc)]) (calls s))
    s2).
  { unfold SkipGram.rounds in Hrounds.
    apply bind_Some in Hrounds as (st & s1 & Hhs & Hng).
    apply (lift_hierarchic_rounds heap_kept) in Hhs;
      [|intros; apply (kernel_zero_rate HS)].
    apply (lift_negative_rounds heap_kept) in Hng;
      [|intros; apply (kernel_zero_rate NS)].
    by etrans. }
  unfold heap_kept in Hk. simpl in Hk.
  unfold SkipGram.finish in Hfin. simpl in Hfin.
  apply bind_Some in Hfin as ([] & s3 & Hadd & Hdel%delete_Some).
  injection Hdel as ->. simpl.
  apply update_loop_kept in Hadd as ->.
  - rewrite Hk, insert_app_r_alt, Nat.sub_diag by lia. done.
  - intros i u w Hu _. rewrite Hk in Hu.
    apply cell_fresh_zero in Hu as ->. apply Qcplus_0_r.
Qed.

Lemma SkipGram_zero_rate_witness :
  let s := State example_model [] in
  exists s',
    run (SkipGram.executeAggregate example_arguments [0; 2; 2; 3; 4; 3; 1; 5]
           [[1; 2]; [1; 0]] [0%Qc; q_ 7 1]) s = Some (tt, s') /\
    heap s' = heap s ++ [None].
Proof.
  intros s.
  assert (Hrun : exists s',
    run (SkipGram.executeAggregate example_arguments [0; 2; 2; 3; 4; 3; 1; 5]
           [[1; 2]; [1; 0]] [0%Qc; q_ 7 1]) s = Some (tt, s'))
    by (vm_compute; eexists; reflexivity).
  destruct Hrun as [s' Hrun]. exists s'. split; [exact Hrun|].
  exact (SkipGram_zero_rate s s' (Ptr 0 0) (Ptr 1 0) (Ptr 2 0) (Ptr 3 0)
           (Ptr 4 0) 0 2 2 3 4 3 1 5 [1; 2] [1; 0] [] (q_ 7 1) [] Hrun).
Defined.

(** X8. With a learning rate [alpha = 0] a CBOW invocation changes no
    cell of the caller either: the averaged context is built in a
    buffer of its own, every gradient is zero, the scatter adds zero to
    every context row, and both buffers are deleted again. *)
Theorem CBOW_zero_rate
    (s s' : state) (syn0 syn1 expTable syn1Neg negTable : ptr)
    (vectorLength hsRounds ngRounds expLength vocabSize ngStarter
       negTableLength idxSyn0Length initialIdx : Z)
    (idxSyn0 idxSyn1 codes : list Z) (intArrays : list (list Z))
    (seed : Qc) (reals : list Qc) :
  run (CBOW.executeAggregate
         [syn0; syn1; expTable; syn1Neg; negTable]
         [vectorLength; hsRounds; ngRounds; expLength; vocabSize; ngStarter;
          negTableLength; idxSyn0Length; initialIdx]
         (idxSyn0 :: idxSyn1 :: codes :: intArrays) (0%Qc :: seed :: reals)) s
  = Some (tt, s') ->
  heap s' = heap s ++ [None; None].
Proof.
  unfold run, CBOW.executeAggregate. intros Hrun.
  destruct (cbow_prologue_Some s syn0 syn1 expTable syn1Neg negTable
    vectorLength hsRounds ngRounds expLength vocabSize ngStarter
    negTableLength idxSyn0Length initialIdx idxSyn0 idxSyn1 codes intArrays
    0%Qc seed reals) as (Hvl & Hseed).
  { apply bind_Some in Hrun as (? & ? & -> & _). by eexists. }
  pose proof (cbow_prologue_run s syn0 syn1 expTable syn1Neg negTable
    vectorLength hsRounds ngRounds expLength vocabSize ngStarter
    negTableLength idxSyn0Length initialIdx idxSyn0 idxSyn1 codes intArrays
    0%Qc seed reals Hvl Hseed) as Hpro.
  simpl in Hpro. rewrite (bind_run _ _ _ _ _ Hpro) in Hrun.
  set (zeros := Some (replicate (Z.to_nat vectorLength) 0%Qc)) in *.
  apply bind_Some in Hrun as ([] & s1 & Havg & Hrun).
  apply bind_Some in Hrun as (v & s2 & Hrounds & Hrun).
  apply bind_Some in Hrun as ([] & s3 & Hscatter & Hrun).
  apply bind_Some in Hrun as ([] & s4 & Hd1%delete_Some & Hd2%delete_Some).
  injection Hd1 as ->. injection Hd2 as ->. simpl.
  (* the averaging writes the block of neu1 only *)
  apply average_context_effect in Havg as [_ [Hlen1 Hfr1]]. simpl in Hlen1, Hfr1.
  (* the rounds keep the heap *)
  assert (Hk : heap s2 = heap s1).
  { unfold CBOW.rounds in Hrounds.
    apply bind_Some in Hrounds as (st & s1' & Hhs & Hng).
    apply (lift_hierarchic_rounds heap_kept) in Hhs;
      [|intros; apply (kernel_zero_rate HS)].
    apply (lift_negative_rounds heap_kept) in Hng;
      [|intros; apply (kernel_zero_rate NS)].
    unfold heap_kept in *. congruence. }
  (* the accumulator is still zero *)
  assert (Hzero : forall i u,
    cell (heap s2) (Ptr (S (length (heap s))) 0) i = Some u -> u = 0%Qc).
  { intros i u. rewrite Hk. unfold cell. cbn [blk ofs].
    rewrite Hfr1 by (rewrite elem_of_cons, elem_of_nil; lia).
    change (heap s ++ [zeros; zeros]) with (heap s ++ [zeros] ++ [zeros]).
    rewrite app_assoc.
    replace (S (length (heap s))) with (length (heap s ++ [zeros]))
      by (rewrite length_app; simpl; lia).
    rewrite (lookup_app_r (heap s ++ [zeros])), Nat.sub_diag by lia.
    cbn [lookup list_lookup]. case_bool_decide; [|done].
    by intros [-> _]%lookup_replicate. }
  (* the scatter adds zero *)
  assert (Hs3 : s3 = s2).
  { unfold CBOW.scatter, for_ in Hscatter. simpl in Hscatter.
    pose (I := fun (_ : Z) (_ : unit) (s0 : state) => s0 = s2).
    refine (for_from_inv _ I _ _ _ _ _ _ _ eq_refl Hscatter).
    intros c [] s0 [] s0' -> Hb.
    apply bind_Some in Hb as (w & ? & ->%stateless_at & Hb).
    apply bind_Some in Hb as (off & ? & ->%stateless_checked & Hb).
    apply update_loop_kept in Hb; [done|].
    intros i u x Hu _. apply Hzero in Hu as ->. apply Qcplus_0_r. }
  subst s3. rewrite Hk.
  apply list_eq. intros b.
  destruct (decide (b = S (length (heap s)))) as [->|Hb1].
  { rewrite list_lookup_insert_eq by (rewrite length_insert, Hlen1, length_app; simpl; lia).
    rewrite lookup_app_r by lia.
    by replace (S (length (heap s)) - length (heap s))%nat with 1%nat by lia. }
  rewrite list_lookup_insert_ne by done.
  destruct (decide (b = length (heap s))) as [->|Hb0].
  { rewrite list_lookup_insert_eq by (rewrite Hlen1, length_app; simpl; lia).
    by rewrite lookup_app_r, Nat.sub_diag by lia. }
  rewrite list_lookup_insert_ne by done.
  rewrite Hfr1 by (rewrite elem_of_cons, elem_of_nil; lia).
  destruct (decide (b < length (heap s))%nat).
  - by rewrite !lookup_app_l by lia.
  - rewrite !lookup_ge_None_2; [done|rewrite length_app; simpl; lia..].
Qed.

Lemma CBOW_zero_rate_witness :
  let s := State example_model [] in
  exists s',
    run (CBOW.executeAggregate example_arguments [2; 2; 3; 4; 3; 1; 5; 3; 0]
           [[2; 0; 2]; [1; 2]; [1; 0]] [0%Qc; q_ 12345 1]) s = Some (tt, s') /\
    heap s' = heap s ++ [None; None].
Proof.
  intros s.
  assert (Hrun : exists s',
    run (CBOW.executeAggregate example_arguments [2; 2; 3; 4; 3; 1; 5; 3; 0]
           [[2; 0; 2]; [1; 2]; [1; 0]] [0%Qc; q_ 12345 1]) s = Some (tt, s'))
    by (vm_compute; eexists; reflexivity).
  destruct Hrun as [s' Hrun]. exists s'. split; [exact Hrun|].
  exact (CBOW_zero_rate s s' (Ptr 0 0) (Ptr 1 0) (Ptr 2 0) (Ptr 3 0)
           (Ptr 4 0) 2 2 3 4 3 1 5 3 0 [2; 0; 2] [1; 2] [1; 0] []
           (q_ 12345 1) [] Hrun).
Defined.

(** ** What an invocation does to the memory of the caller *)

Lemma frame_mono bs bs' s s' :
  (forall b, b ∈ bs -> b ∈ bs') -> frame bs s s' -> frame bs' s s'.
Proof. intros Hsub [Hlen Hfr]. split; [done|]. intros b Hb. apply Hfr. auto. Qed.

Lemma rounds_frame hsRounds ngRounds ngStarter vl len vocab syn1 syn1Neg
    negTable idxSyn1 codes reals args0 idx0 seed neu1e s st s1 v s2 :
  hierarchic_rounds hsRounds vl syn1 idxSyn1 codes reals (args0, idx0) s
    = Some (st, s1) ->
  negative_rounds ngRounds ngStarter vl len vocab syn1Neg negTable reals
    st seed s1 = Some (v, s2) ->
  args0 !! 3%nat = Some neu1e ->
  frame [blk syn1; blk syn1Neg; blk neu1e] s s2 /\ same_shape s s2.
Proof.
  intros Hhs Hng Hne. split.
  - apply (hierarchic_rounds_effect _ _ _ _ _ _ _ _ neu1e) in Hhs
      as (_ & _ & _ & Hf1 & Ha & _); [|done].
    destruct st as [args idx].
    apply (negative_rounds_frame _ _ _ _ _ _ _ _ _ _ _ _ _ _ neu1e) in Hng
      as Hf2.
    2:{ destruct Ha as [_ Ha]. simpl in Ha. by rewrite Ha. }
    transitivity s1; (eapply frame_mono; [|eassumption]);
      intros b; rewrite !elem_of_cons, !elem_of_nil; tauto.
  - transitivity s1.
    + by apply (structural_hierarchic_rounds same_shape same_shape_store
                  same_shape_log) in Hhs.
    + by apply (structural_negative_rounds same_shape same_shape_store
                  same_shape_log) in Hng.
Qed.

Lemma scatter_frame e : preserves (frame [blk (CBOW.syn0 e)]) (CBOW.scatter e).
Proof.
  unfold CBOW.scatter.
  apply preserves_for; [apply _|]. intros c [].
  apply preserves_bind; [apply _|..].
  { apply preserves_stateless; [apply _|solve_stateless]. }
  intros w. apply preserves_bind; [apply _|..].
  { apply preserves_stateless; [apply _|unfold imul; solve_stateless]. }
  intros off s [] s' Hrun.
  apply (effect_update_loop [blk (CBOW.syn0 e)]) in Hrun as [_ Hf]; [done|].
  simpl. constructor.
Qed.

(** X9. A SkipGram invocation that returns has written no block other
    than those of [syn0], [syn1] and [syn1Neg]: the tables and every
    other buffer of the caller are as before; no cell of the caller was
    freed or allocated; and the one block the invocation allocated, the
    accumulator, is deleted at the end. *)
Theorem SkipGram_memory
    (s s' : state) (syn0 syn1 expTable syn1Neg negTable : ptr)
    (syn0Row vectorLength hsRounds ngRounds expLength vocabSize ngStarter
       negTableLength : Z)
    (idxSyn1 codes : list Z) (intArrays : list (list Z))
    (alpha seed : Qc) (reals : list Qc) :
  run (SkipGram.executeAggregate
         [syn0; syn1; expTable; syn1Neg; negTable]
         [syn0Row; vectorLength; hsRounds; ngRounds; expLength; vocabSize;
          ngStarter; negTableLength]
         (idxSyn1 :: codes :: intArrays) (alpha :: seed :: reals)) s
  = Some (tt, s') ->
  length (heap s') = S (length (heap s)) /\
  heap s' !! length (heap s) = Some None /\
  (forall b, (b < length (heap s))%nat ->
     b ∉ [blk syn0; blk syn1; blk syn1Neg] -> heap s' !! b = heap s !! b) /\
  (forall q j, (blk q < length (heap s))%nat ->
     is_Some (cell (heap s') q j) <-> is_Some (cell (heap s) q j)).
Proof.
  unfold run, SkipGram.executeAggregate. intros Hrun.
  destruct (skipgram_prologue_Some s syn0 syn1 expTable syn1Neg negTable
    syn0Row vectorLength hsRounds ngRounds expLength vocabSize ngStarter
    negTableLength idxSyn1 codes intArrays alpha seed reals)
    as (Hvl & Hoff & Hseed).
  { apply bind_Some in Hrun as (? & ? & -> & _). by eexists. }
  pose proof (skipgram_prologue_run s syn0 syn1 expTable syn1Neg negTable
    syn0Row vectorLength hsRounds ngRounds expLength vocabSize ngStarter
    negTableLength idxSyn1 codes intArrays alpha seed reals Hvl Hoff Hseed)
    as Hpro.
  simpl in Hpro. rewrite (bind_run _ _ _ _ _ Hpro) in Hrun.
  set (s0 := State _ _) in Hrun.
  apply bind_Some in Hrun as (v & s2 & Hrounds & Hfin).
  unfold SkipGram.rounds in Hrounds. simpl in Hrounds.
  apply bind_Some in Hrounds as (st & s1 & Hhs & Hng).
  destruct (rounds_frame _ _ _ _ _ _ _ _ _ _ _ _ _ _ _
              (Ptr (length (heap s)) 0) _ _ _ _ _ Hhs Hng eq_refl)
    as [[Hlen2 Hf2] Hsh2].
  unfold SkipGram.finish in Hfin. simpl in Hfin.
  apply bind_Some in Hfin as ([] & s3 & Hadd & Hdel%delete_Some).
  injection Hdel as ->. simpl.
  pose proof (structural_update_loop same_shape same_shape_store _ _ _ _ _ _ _
                Hadd) as Hsh3.
  apply (effect_update_loop [blk syn0]) in Hadd as [_ [Hlen3 Hf3]];
    [|simpl; constructor].
  simpl in Hlen2, Hf2.
  assert (Hlen : length (heap s3) = S (length (heap s))).
  { rewrite Hlen3, Hlen2, length_app. simpl. lia. }
  split; [by rewrite length_insert|].
  split; [apply list_lookup_insert_eq; lia|]. split.
  - intros b Hb Hnin. rewrite !elem_of_cons, elem_of_nil in Hnin.
    rewrite list_lookup_insert_ne by lia.
    rewrite Hf3 by (rewrite elem_of_cons, elem_of_nil; tauto).
    rewrite Hf2 by (rewrite !elem_of_cons, elem_of_nil; simpl; lia).
    by apply lookup_app_l.
  - intros q j Hq.
    rewrite (cell_ext (heap s3)) by (apply list_lookup_insert_ne; lia).
    rewrite (Hsh3 q j), (Hsh2 q j).
    by rewrite (cell_ext (heap s) (heap s0)) by by apply lookup_app_l.
Qed.

Lemma SkipGram_memory_witness :
  let s := State example_model [] in
  exists s',
    run (SkipGram.executeAggregate example_arguments [0; 2; 2; 3; 4; 3; 1; 5]
           [[1; 2]; [1; 0]] [q_ 1 10; q_ 7 1]) s = Some (tt, s') /\
    length (heap s') = S (length (heap s)) /\
    heap s' !! length (heap s) = Some None /\
    (forall b, (b < length (heap s))%nat ->
       b ∉ [blk (Ptr 0 0); blk (Ptr 1 0); blk (Ptr 3 0)] ->
       heap s' !! b = heap s !! b) /\
    (forall q j, (blk q < length (heap s))%nat ->
       is_Some (cell (heap s') q j) <-> is_Some (cell (heap s) q j)).
Proof.
  intros s.
  assert (Hrun : exists s',
    run (SkipGram.executeAggregate example_arguments [0; 2; 2; 3; 4; 3; 1; 5]
           [[1; 2]; [1; 0]] [q_ 1 10; q_ 7 1]) s = Some (tt, s'))
    by (vm_compute; eexists; reflexivity).
  destruct Hrun as [s' Hrun]. exists s'. split; [exact Hrun|].
  exact (SkipGram_memory s s' (Ptr 0 0) (Ptr 1 0) (Ptr 2 0) (Ptr 3 0)
           (Ptr 4 0) 0 2 2 3 4 3 1 5 [1; 2] [1; 0] [] (q_ 1 10) (q_ 7 1) []
           Hrun).
Defined.

(** X10. The buffers of [T] across a CBOW invocation that returns: no
    block of the caller other than those of [syn0], [syn1] and [syn1Neg]
    is written; no cell of the caller is freed or allocated; and the two
    working vectors [neu1] and [neu1e] of lines 593-594, the two blocks
    that follow the caller's, are deleted on return (lines 674-675).
    Nothing is stated about the [int] array [idxArgs] of line 606, which
    is not a block of the heap here and which the source does not
    release. *)
Theorem CBOW_memory
    (s s' : state) (syn0 syn1 expTable syn1Neg negTable : ptr)
    (vectorLength hsRounds ngRounds expLength vocabSize ngStarter
       negTableLength idxSyn0Length initialIdx : Z)
    (idxSyn0 idxSyn1 codes : list Z) (intArrays : list (list Z))
    (alpha seed : Qc) (reals : list Qc) :
  run (CBOW.executeAggregate
         [syn0; syn1; expTable; syn1Neg; negTable]
         [vectorLength; hsRounds; ngRounds; expLength; vocabSize; ngStarter;
          negTableLength; idxSyn0Length; initialIdx]
         (idxSyn0 :: idxSyn1 :: codes :: intArrays) (alpha :: seed :: reals)) s
  = Some (tt, s') ->
  heap s' !! length (heap s) = Some None /\
  heap s' !! S (length (heap s)) = Some None /\
  (forall b, (b < length (heap s))%nat ->
     b ∉ [blk syn0; blk syn1; blk syn1Neg] -> heap s' !! b = heap s !! b) /\
  (forall q j, (blk q < length (heap s))%nat ->
     is_Some (cell (heap s') q j) <-> is_Some (cell (heap s) q j)).
Proof.
  unfold run, CBOW.executeAggregate. intros Hrun.
  destruct (cbow_prologue_Some s syn0 syn1 expTable syn1Neg negTable
    vectorLength hsRounds ngRounds expLength vocabSize ngStarter
    negTableLength idxSyn0Length initialIdx idxSyn0 idxSyn1 codes intArrays
    alpha seed reals) as (Hvl & Hseed).
  { apply bind_Some in Hrun as (? & ? & -> & _). by eexists. }
  pose proof (cbow_prologue_run s syn0 syn1 expTable syn1Neg negTable
    vectorLength hsRounds ngRounds expLength vocabSize ngStarter
    negTableLength idxSyn0Length initialIdx idxSyn0 idxSyn1 codes intArrays
    alpha seed reals Hvl Hseed) as Hpro.
  simpl in Hpro. rewrite (bind_run _ _ _ _ _ Hpro) in Hrun.
  set (s0 := State _ _) in Hrun.
  apply bind_Some in Hrun as ([] & s1 & Havg & Hrun).
  apply bind_Some in Hrun as (v & s2 & Hrounds & Hrun).
  apply bind_Some in Hrun as ([] & s3 & Hscatter & Hrun).
  apply bind_Some in Hrun as ([] & s4 & Hd1%delete_Some & Hd2%delete_Some).
  injection Hd1 as ->. injection Hd2 as ->. simpl.
  pose proof (structural_average_context same_shape same_shape_store
                _ _ _ _ Havg) as Hsh1.
  apply average_context_effect in Havg as [_ [Hlen1 Hf1]]. simpl in Hlen1, Hf1.
  unfold CBOW.rounds in Hrounds. simpl in Hrounds.
  apply bind_Some in Hrounds as (st & s1' & Hhs & Hng).
  destruct (rounds_frame _ _ _ _ _ _ _ _ _ _ _ _ _ _ _
              (Ptr (S (length (heap s))) 0) _ _ _ _ _ Hhs Hng eq_refl)
    as [[Hlen2 Hf2] Hsh2].
  simpl in Hf2.
  assert (Hsh3 : same_shape s2 s3).
  { revert Hscatter. unfold CBOW.scatter.
    apply preserves_for; [apply _|]. intros c [].
    apply preserves_bind; [apply _|..].
    { apply preserves_stateless; [apply _|solve_stateless]. }
    intros w. apply preserves_bind; [apply _|..].
    { apply preserves_stateless; [apply _|unfold imul; solve_stateless]. }
    intros off. apply structural_update_loop; [apply _|apply same_shape_store]. }
  apply scatter_frame in Hscatter as [Hlen3 Hf3]. simpl in Hf3.
  assert (Hlen : length (heap s3) = S (S (length (heap s)))).
  { rewrite Hlen3, Hlen2, Hlen1. unfold s0. simpl. rewrite length_app. simpl. lia. }
  split.
  { rewrite list_lookup_insert_ne by lia.
    apply list_lookup_insert_eq. lia. }
  split.
  { apply list_lookup_insert_eq. rewrite length_insert. lia. }
  split.
  - intros b Hb Hnin. rewrite !elem_of_cons, elem_of_nil in Hnin.
    rewrite !list_lookup_insert_ne by lia.
    rewrite Hf3 by (rewrite elem_of_cons, elem_of_nil; tauto).
    rewrite Hf2 by (rewrite !elem_of_cons, elem_of_nil; lia).
    rewrite Hf1 by (rewrite !elem_of_cons, elem_of_nil; lia).
    by apply lookup_app_l.
  - intros q j Hq.
    rewrite (cell_ext (heap s3)) by (rewrite !list_lookup_insert_ne by lia; done).
    rewrite (Hsh3 q j), (Hsh2 q j), (Hsh1 q j).
    by rewrite (cell_ext (heap s) (heap s0)) by by apply lookup_app_l.
Qed.

Lemma CBOW_memory_witness :
  let s := State example_model [] in
  exists s',
    run (CBOW.executeAggregate example_arguments [2; 2; 3; 4; 3; 1; 5; 3; 0]
           [[2; 0; 2]; [1; 2]; [1; 0]] [q_ 1 10; q_ 12345 1]) s
    = Some (tt, s') /\
    heap s' !! length (heap s) = Some None /\
    heap s' !! S (length (heap s)) = Some None /\
    (forall b, (b < length (heap s))%nat ->
       b ∉ [blk (Ptr 0 0); blk (Ptr 1 0); blk (Ptr 3 0)] ->
       heap s' !! b = heap s !! b) /\
    (forall q j, (blk q < length (heap s))%nat ->
       is_Some (cell (heap s') q j) <-> is_Some (cell (heap s) q j)).
Proof.
  intros s.
  assert (Hrun : exists s',
    run (CBOW.executeAggregate example_arguments [2; 2; 3; 4; 3; 1; 5; 3; 0]
           [[2; 0; 2]; [1; 2]; [1; 0]] [q_ 1 10; q_ 12345 1]) s
    = Some (tt, s')) by (vm_compute; eexists; reflexivity).
  destruct Hrun as [s' Hrun]. exists s'. split; [exact Hrun|].
  exact (CBOW_memory s s' (Ptr 0 0) (Ptr 1 0) (Ptr 2 0) (Ptr 3 0)
           (Ptr 4 0) 2 2 3 4 3 1 5 3 0 [2; 0; 2] [1; 2] [1; 0] []
           (q_ 1 10) (q_ 12345 1) [] Hrun).
Defined.

(** ** Drawing a negative candidate *)

(** X11. Whatever the table of negatives holds, a candidate that is
    drawn is a row index from 1 to [vocabSize - 1]: a table entry
    [<= 0] or [>= vocabSize] is replaced by
    [next_random % (vocabSize - 1) + 1], which lies in that range.  The
    draw changes nothing. *)
Theorem draw_target_in_range
    (negTable : ptr) (negTableLength vocabSize next_random : Z)
    (s s' : state) (target : Z) :
  2 <= vocabSize -> int_range vocabSize = true -> 0 <= next_random < 2 ^ 64 ->
  run (draw_target negTable negTableLength vocabSize next_random) s
  = Some (target, s') ->
  0 < target < vocabSize /\ s' = s.
Proof.
  intros Hv2 Hv Hr Hrun. unfold run in Hrun.
  pose proof (stateless_draw_target _ _ _ _ _ _ _ Hrun) as ->.
  split; [|done].
  apply int_range_spec in Hv. unfold INT_MIN, INT_MAX in Hv.
  unfold draw_target in Hrun.
  apply bind_Some in Hrun as (i & ? & [_ [= -> ->]]%umod_Some & Hrun).
  apply bind_Some in Hrun as (v & ? & (? & Hc & [= <- ->])%load_Some & Hrun).
  apply bind_Some in Hrun as (t0 & ? & [Ht0 [= -> ->]]%checked_Some & Hrun).
  destruct (bool_decide (Qtrunc v <= 0) || bool_decide (vocabSize <= Qtrunc v))
    eqn:Hb.
  - apply bind_Some in Hrun as (d & ? & [_ [= -> ->]]%checked_Some & Hrun).
    apply bind_Some in Hrun as (m & ? & [_ [= -> ->]]%umod_Some & Hrun).
    injection Hrun as <-.
    rewrite (u64_small (vocabSize - 1)) by lia.
    assert (0 <= next_random mod (vocabSize - 1) < vocabSize - 1)
      by (apply Z.mod_pos_bound; lia).
    rewrite u64_small, to_int32_small by (unfold INT_MIN, INT_MAX; lia). lia.
  - apply orb_false_iff in Hb. rewrite !bool_decide_eq_false in Hb.
    injection Hrun as <-. lia.
Qed.

Lemma draw_target_in_range_witness :
  let s := State example_model [] in
  exists target,
    run (draw_target (Ptr 4 0) 5 3 (next_random_step 7)) s = Some (target, s) /\
    0 < target < 3.
Proof.
  intros s.
  assert (H1 : 2 <= 3) by lia.
  assert (H2 : int_range 3 = true) by reflexivity.
  assert (H3 : 0 <= next_random_step 7 < 2 ^ 64) by (by vm_compute).
  assert (Hrun : exists target,
    run (draw_target (Ptr 4 0) 5 3 (next_random_step 7)) s = Some (target, s))
    by (vm_compute; eexists; reflexivity).
  destruct Hrun as [target Hrun]. exists target. split; [exact Hrun|].
  exact (proj1 (draw_target_in_range (Ptr 4 0) 5 3 (next_random_step 7) s s
                  target H1 H2 H3 Hrun)).
Defined.

(** X12. With [negTableLength > 0] the index
    [(next_random >> 16) % negTableLength] lies within the table: on a
    table of [negTableLength] allocated entries, each of them a value
    that converts to [int], the draw has defined behaviour, and its
    result is the table entry, or the fallback where the entry is out of
    range. *)
Theorem draw_target_defined
    (negTable : ptr) (negTableLength vocabSize next_random : Z)
    (s : state) (tbl : list Qc) :
  0 < negTableLength -> int_range negTableLength = true ->
  2 <= vocabSize -> int_range vocabSize = true -> 0 <= next_random < 2 ^ 64 ->
  row (heap s) negTable negTableLength = Some tbl ->
  Forall (fun v => int_range (Qtrunc v) = true) tbl ->
  let i := Z.shiftr next_random 16 mod negTableLength in
  0 <= i < negTableLength /\
  run (draw_target negTable negTableLength vocabSize next_random) s
  = Some (draw_spec tbl negTableLength vocabSize next_random, s).
Proof.
  intros Hlen0 Hlen Hv2 Hv Hr Hrow Hint i.
  assert (Hi : 0 <= i < negTableLength) by (apply Z.mod_pos_bound; lia).
  split; [done|].
  apply int_range_spec in Hlen, Hv. unfold INT_MIN, INT_MAX in *.
  destruct (lookup_lt_is_Some_2 tbl (Z.to_nat i)) as [v Hv0].
  { rewrite (row_length _ _ _ _ Hrow). lia. }
  pose proof (row_cell _ _ _ _ i Hrow Hi) as Hc. rewrite Hv0 in Hc.
  assert (Hvi : int_range (Qtrunc v) = true).
  { rewrite list.Forall_forall in Hint. apply Hint.
    by eapply list_elem_of_lookup_2. }
  unfold run, draw_target, draw_spec. fold i. rewrite Hv0. simpl.
  rewrite (u64_small negTableLength) by lia.
  erewrite bind_run by (apply umod_Some; split; [lia|reflexivity]).
  fold i. run_with (load_run _ _ _ _ Hc).
  unfold to_int. run_with (checked_run _ s Hvi).
  destruct (bool_decide (Qtrunc v <= 0) || bool_decide (vocabSize <= Qtrunc v))
    eqn:Hb.
  - apply orb_true_iff in Hb. rewrite !bool_decide_eq_true in Hb.
    rewrite bool_decide_true by done.
    unfold isub.
    erewrite bind_run
      by (apply checked_run, int_range_spec; unfold INT_MIN, INT_MAX; lia).
    rewrite (u64_small (vocabSize - 1)) by lia.
    erewrite bind_run by (apply umod_Some; split; [lia|reflexivity]).
    assert (0 <= next_random mod (vocabSize - 1) < vocabSize - 1)
      by (apply Z.mod_pos_bound; lia).
    rewrite u64_small, to_int32_small by (unfold INT_MIN, INT_MAX; lia). done.
  - apply orb_false_iff in Hb. rewrite !bool_decide_eq_false in Hb.
    rewrite bool_decide_false by tauto. done.
Qed.

Lemma draw_target_defined_witness :
  let s := State example_model [] in
  let i := Z.shiftr (next_random_step 7) 16 mod 5 in
  0 <= i < 5 /\
  run (draw_target (Ptr 4 0) 5 3 (next_random_step 7)) s
  = Some (draw_spec example_table 5 3 (next_random_step 7), s).
Proof.
  intros s.
  assert (H1 : 0 < 5) by lia.
  assert (H2 : int_range 5 = true) by reflexivity.
  assert (H3 : 2 <= 3) by lia.
  assert (H4 : int_range 3 = true) by reflexivity.
  assert (H5 : 0 <= next_random_step 7 < 2 ^ 64) by (by vm_compute).
  assert (H6 : row (heap s) (Ptr 4 0) 5 = Some example_table) by reflexivity.
  assert (H7 : Forall (fun v => int_range (Qtrunc v) = true) example_table)
    by (repeat constructor).
  exact (draw_target_defined (Ptr 4 0) 5 3 (next_random_step 7) s example_table
           H1 H2 H3 H4 H5 H6 H7).
Defined.

(** ** Inputs without defined behaviour *)

Lemma draw_target_division_by_zero negTable len vocab r s :
  vocab = 1 \/ len = 0 -> draw_target negTable len vocab r s = None.
Proof.
  intros Hz. destruct (draw_target negTable len vocab r s) as [[t s']|] eqn:Hrun;
    [exfalso|done].
  unfold draw_target in Hrun.
  apply bind_Some in Hrun as (i & ? & [Hlen [= -> ->]]%umod_Some & Hrun).
  destruct Hz as [->| ->]; [|done].
  apply bind_Some in Hrun as (v & ? & (? & Hc & [= <- ->])%load_Some & Hrun).
  apply bind_Some in Hrun as (t0 & ? & [Ht0 [= -> ->]]%checked_Some & Hrun).
  destruct (bool_decide (Qtrunc v <= 0) || bool_decide (1 <= Qtrunc v)) eqn:Hb.
  - apply bind_Some in Hrun as (d & ? & [_ [= -> ->]]%checked_Some & Hrun).
    by apply bind_Some in Hrun as (m & ? & [Hd _]%umod_Some & _).
  - apply orb_false_iff in Hb. rewrite !bool_decide_eq_false in Hb. lia.
Qed.

Lemma negative_rounds_division_by_zero ngRounds ngStarter vl len vocab syn1Neg
    negTable reals st seed s :
  0 < ngRounds -> vocab = 1 \/ len = 0 ->
  negative_rounds ngRounds ngStarter vl len vocab syn1Neg negTable reals
    st seed s = None.
Proof.
  intros Hn Hz.
  destruct (negative_rounds _ _ _ _ _ _ _ _ _ _ s) as [[v s']|] eqn:Hrun;
    [exfalso|done].
  unfold negative_rounds in Hrun. rewrite bool_decide_true in Hrun by done.
  apply bind_Some in Hrun as (n & ? & [_ [= -> ->]]%checked_Some & Hrun).
  unfold for_ in Hrun.
  destruct (Z.to_nat (ngRounds + 1)) as [|[|k]] eqn:Hk; [lia..|].
  simpl in Hrun.
  apply bind_Some in Hrun as (v0 & s0 & _ & Hrun).
  apply bind_Some in Hrun as (v1 & s1 & Hb & _).
  try rewrite bool_decide_false in Hb by done.
  apply bind_Some in Hb as (t & s2 & Hdraw & _).
  by rewrite draw_target_division_by_zero in Hdraw.
Qed.

(** X13. With [ngRounds > 0], a vocabulary of one row ([vocabSize = 1])
    or an empty table of negatives ([negTableLength = 0]) leaves both
    orchestrators without defined behaviour: the first draw divides by
    zero, in [next_random % (vocabSize - 1)] or in
    [(next_random >> 16) % negTableLength]. *)
Theorem negative_sampling_division_by_zero
    (s : state) (arguments : list ptr) (intArrays : list (list Z))
    (realArguments : list Qc)
    (syn0Row vectorLength hsRounds ngRounds expLength vocabSize ngStarter
       negTableLength idxSyn0Length initialIdx : Z) :
  0 < ngRounds -> vocabSize = 1 \/ negTableLength = 0 ->
  run (SkipGram.executeAggregate arguments
         [syn0Row; vectorLength; hsRounds; ngRounds; expLength; vocabSize;
          ngStarter; negTableLength] intArrays realArguments) s = None /\
  run (CBOW.executeAggregate arguments
         [vectorLength; hsRounds; ngRounds; expLength; vocabSize; ngStarter;
          negTableLength; idxSyn0Length; initialIdx] intArrays realArguments) s
  = None.
Proof.
  intros Hn Hz. unfold run. split.
  - destruct (SkipGram.executeAggregate _ _ _ _ s) as [r|] eqn:Hrun; [exfalso|done].
    unfold SkipGram.executeAggregate in Hrun.
    apply bind_Some in Hrun as ([[e st] nr] & s0 & Hpro & Hrun).
    apply bind_Some in Hrun as (v & s2 & Hrounds & _).
    unfold SkipGram.rounds in Hrounds.
    apply bind_Some in Hrounds as (st' & s1 & _ & Hng).
    assert (He : SkipGram.ngRounds e = ngRounds /\
                 SkipGram.vocabSize e = vocabSize /\
                 SkipGram.negTableLength e = negTableLength).
    { revert Hpro. unfold SkipGram.prologue. do 8 run_at. intros Hpro.
      repeat (apply bind_Some in Hpro as (? & ? & _ & Hpro)).
      by injection Hpro as <- _ _ _. }
    destruct He as (Hng' & Hv & Hl). rewrite Hng', Hv, Hl in Hng.
    by rewrite negative_rounds_division_by_zero in Hng.
  - destruct (CBOW.executeAggregate _ _ _ _ s) as [r|] eqn:Hrun; [exfalso|done].
    unfold CBOW.executeAggregate in Hrun.
    apply bind_Some in Hrun as ([[e st] nr] & s0 & Hpro & Hrun).
    apply bind_Some in Hrun as ([] & s1 & _ & Hrun).
    apply bind_Some in Hrun as (v & s2 & Hrounds & _).
    unfold CBOW.rounds in Hrounds.
    apply bind_Some in Hrounds as (st' & s1' & _ & Hng).
    assert (He : CBOW.ngRounds e = ngRounds /\
                 CBOW.vocabSize e = vocabSize /\
                 CBOW.negTableLength e = negTableLength).
    { revert Hpro. unfold CBOW.prologue. do 9 run_at. intros Hpro.
      repeat (apply bind_Some in Hpro as (? & ? & _ & Hpro)).
      by injection Hpro as <- _ _. }
    destruct He as (Hng' & Hv & Hl). rewrite Hng', Hv, Hl in Hng.
    by rewrite negative_rounds_division_by_zero in Hng.
Qed.

Lemma negative_sampling_division_by_zero_witness :
  let s := State example_model [] in
  run (SkipGram.executeAggregate example_arguments [0; 2; 2; 3; 4; 1; 1; 5]
         [[2; 0; 2]; [1; 2]; [1; 0]] [q_ 1 10; q_ 7 1]) s = None /\
  run (CBOW.executeAggregate example_arguments [2; 2; 3; 4; 1; 1; 5; 3; 0]
         [[2; 0; 2]; [1; 2]; [1; 0]] [q_ 1 10; q_ 7 1]) s = None.
Proof.
  intros s.
  assert (H1 : 0 < 3) by lia.
  assert (H2 : 1 = 1 \/ 5 = 0) by (left; reflexivity).
  exact (negative_sampling_division_by_zero s example_arguments
           [[2; 0; 2]; [1; 2]; [1; 0]] [q_ 1 10; q_ 7 1] 0 2 2 3 4 1 1 5 3 0
           H1 H2).
Defined.

(** ** The order of the rounds *)

#[export] Instance logs_only_preorder k : PreOrder (logs_only k).
Proof.
  split.
  - intros s. exists []. by rewrite app_nil_r.
  - intros s1 s2 s3 (l1 & H1 & F1) (l2 & H2 & F2). exists (l1 ++ l2).
    split; [by rewrite H2, H1, app_assoc|by apply Forall_app].
Qed.

Lemma logs_only_kernel k a i ia r :
  preserves (logs_only k)
    (match k with
     | HS => HierarchicSoftmax.executeAggregate
     | NS => NegativeSampling.executeAggregate
     end a i ia r).
Proof.
  intros s [] s' H.
  apply kernel_effect in H as (? & ? & _ & _ & Hc & _).
  eexists. split; [exact Hc|]. by constructor.
Qed.

Lemma hierarchic_rounds_log hsRounds vl syn1 idxSyn1 codes reals
    args0 idx0 s st' s' :
  hierarchic_rounds hsRounds vl syn1 idxSyn1 codes reals (args0, idx0) s
    = Some (st', s') ->
  calls s' = calls s ++ hs_calls args0 idx0 syn1 vl hsRounds idxSyn1 codes /\
  length (hs_calls args0 idx0 syn1 vl hsRounds idxSyn1 codes)
  = Z.to_nat hsRounds.
Proof.
  intros Hrun. unfold hierarchic_rounds in Hrun. unfold hs_calls.
  case_bool_decide as Hpos.
  2:{ injection Hrun as <- <-. replace (Z.to_nat hsRounds) with 0%nat by lia.
      simpl. by rewrite app_nil_r. }
  set (I := fun (i : Z) (st : list ptr * list Z) (s1 : state) =>
    0 <= i /\
    calls s1 = calls s ++ zip_with (hs_call args0 idx0 syn1 vl)
                            (take (Z.to_nat i) idxSyn1) (take (Z.to_nat i) codes) /\
    length (take (Z.to_nat i) idxSyn1) = Z.to_nat i /\
    length (take (Z.to_nat i) codes) = Z.to_nat i /\
    agree_except 1 args0 st.1 /\ agree_except 2 idx0 st.2).
  unfold for_ in Hrun.
  assert (HI : I (0 + Z.of_nat (Z.to_nat hsRounds)) st' s').
  { refine (for_from_inv _ I _ _ _ _ _ _ _ _ Hrun).
    2:{ split; [done|]. simpl. rewrite app_nil_r.
        repeat split; try done; apply agree_except_refl. }
    clear Hrun. intros i [args idx] s1 [args1 idx1] s2
      (Hi & Hc & Hl1 & Hl2 & Ha & Hx) Hb. simpl in Ha, Hx.
    apply bind_Some in Hb as (n & ? & (_ & ? & Hn & [= <- ->])%at_Some & Hb).
    apply bind_Some in Hb as (off & ? & [_ [= -> ->]]%checked_Some & Hb).
    apply bind_Some in Hb as (c & ? & (_ & ? & Hcd & [= <- ->])%at_Some & Hb).
    apply bind_Some in Hb as ([] & s3 & Hk & [= <- <- <-]).
    apply (kernel_effect HS) in Hk as (? & ? & _ & _ & Hk & _).
    unfold I. cbn [fst snd].
    replace (Z.to_nat (i + 1)) with (S (Z.to_nat i)) by lia.
    rewrite (take_S_r _ _ _ Hn), (take_S_r _ _ _ Hcd).
    split; [lia|]. split.
    - rewrite Hk, Hc, <- app_assoc. f_equal.
      rewrite zip_with_app by congruence. f_equal. simpl. unfold hs_call.
      by rewrite (agree_except_eq _ _ _ _ Ha), (agree_except_eq _ _ _ _ Hx).
    - rewrite !length_app, Hl1, Hl2. simpl.
      repeat split; try lia; by apply agree_except_insert. }
  destruct HI as (_ & Hc & Hl1 & Hl2 & _).
  rewrite Z.add_0_l, Nat2Z.id in Hc, Hl1, Hl2.
  split; [done|]. rewrite length_zip_with. lia.
Qed.

Lemma rounds_order hsRounds ngRounds ngStarter vl len vocab syn1 syn1Neg
    negTable idxSyn1 codes reals args0 idx0 seed s st s1 v s2 :
  hierarchic_rounds hsRounds vl syn1 idxSyn1 codes reals (args0, idx0) s
    = Some (st, s1) ->
  negative_rounds ngRounds ngStarter vl len vocab syn1Neg negTable reals
    st seed s1 = Some (v, s2) ->
  let hs := hs_calls args0 idx0 syn1 vl hsRounds idxSyn1 codes in
  exists ns,
    calls s2 = calls s ++ hs ++ ns /\
    length hs = Z.to_nat hsRounds /\
    Forall (fun c => call_kernel c = NS) ns.
Proof.
  intros Hhs Hng hs.
  apply hierarchic_rounds_log in Hhs as [Hc1 Hlen].
  apply (lift_negative_rounds (logs_only NS)) in Hng as (ns & Hc2 & Hns);
    [|intros; apply (logs_only_kernel NS)].
  exists ns. split; [|done]. by rewrite Hc2, Hc1, <- app_assoc.
Qed.

(** X14. A SkipGram invocation that returns has run all its
    hierarchical-softmax rounds before any negative-sampling round: one
    kernel call for each [r < hsRounds], in that order, on row
    [idxSyn1[r]] of [syn1] with code [codes[r]], always with the center
    row of [syn0] as embedding and the same accumulator; every later
    call is a negative-sampling call. *)
Theorem SkipGram_rounds_order
    (s s' : state) (syn0 syn1 expTable syn1Neg negTable : ptr)
    (syn0Row vectorLength hsRounds ngRounds expLength vocabSize ngStarter
       negTableLength : Z)
    (idxSyn1 codes : list Z) (intArrays : list (list Z))
    (alpha seed : Qc) (reals : list Qc) :
  run (SkipGram.executeAggregate
         [syn0; syn1; expTable; syn1Neg; negTable]
         [syn0Row; vectorLength; hsRounds; ngRounds; expLength; vocabSize;
          ngStarter; negTableLength]
         (idxSyn1 :: codes :: intArrays) (alpha :: seed :: reals)) s
  = Some (tt, s') ->
  let args := [ptr_add syn0 (syn0Row * vectorLength); syn1; expTable;
               Ptr (length (heap s)) 0] in
  let hs := hs_calls args [vectorLength; expLength; 0] syn1 vectorLength
              hsRounds idxSyn1 codes in
  exists ns,
    new_calls s s' = hs ++ ns /\
    length hs = Z.to_nat hsRounds /\
    Forall (fun c => call_kernel c = NS) ns.
Proof.
  intros Hrun args hs. unfold run, SkipGram.executeAggregate in Hrun.
  destruct (skipgram_prologue_Some s syn0 syn1 expTable syn1Neg negTable
    syn0Row vectorLength hsRounds ngRounds expLength vocabSize ngStarter
    negTableLength idxSyn1 codes intArrays alpha seed reals)
    as (Hvl & Hoff & Hseed).
  { apply bind_Some in Hrun as (? & ? & -> & _). by eexists. }
  pose proof (skipgram_prologue_run s syn0 syn1 expTable syn1Neg negTable
    syn0Row vectorLength hsRounds ngRounds expLength vocabSize ngStarter
    negTableLength idxSyn1 codes intArrays alpha seed reals Hvl Hoff Hseed)
    as Hpro.
  simpl in Hpro. rewrite (bind_run _ _ _ _ _ Hpro) in Hrun.
  apply bind_Some in Hrun as (v & s2 & Hrounds & Hfin).
  unfold SkipGram.rounds in Hrounds. simpl in Hrounds.
  apply bind_Some in Hrounds as (st & s1 & Hhs & Hng).
  destruct (rounds_order _ _ _ _ _ _ _ _ _ _ _ _ _ _ _ _ _ _ _ _ Hhs Hng)
    as (ns & Hc & Hlen & Hns).
  unfold SkipGram.finish in Hfin. simpl in Hfin.
  apply bind_Some in Hfin as ([] & s3 & Hadd & Hdel%delete_Some).
  injection Hdel as ->.
  apply (structural_update_loop same_calls same_calls_store) in Hadd.
  exists ns. split; [|done].
  unfold new_calls. simpl. rewrite Hadd, Hc. simpl.
  by rewrite drop_app_length.
Qed.

Lemma SkipGram_rounds_order_witness :
  let s := State example_model [] in
  let args := [Ptr 0 0; Ptr 1 0; Ptr 2 0; Ptr 5 0] in
  let hs := hs_calls args [2; 4; 0] (Ptr 1 0) 2 2 [1; 2] [1; 0] in
  exists s' ns,
    run (SkipGram.executeAggregate example_arguments [0; 2; 2; 3; 4; 3; 1; 5]
           [[1; 2]; [1; 0]] [q_ 1 10; q_ 7 1]) s = Some (tt, s') /\
    new_calls s s' = hs ++ ns /\
    length hs = Z.to_nat 2 /\
    Forall (fun c => call_kernel c = NS) ns.
Proof.
  intros s args hs.
  assert (Hrun : exists s',
    run (SkipGram.executeAggregate example_arguments [0; 2; 2; 3; 4; 3; 1; 5]
           [[1; 2]; [1; 0]] [q_ 1 10; q_ 7 1]) s = Some (tt, s'))
    by (vm_compute; eexists; reflexivity).
  destruct Hrun as [s' Hrun].
  destruct (SkipGram_rounds_order s s' (Ptr 0 0) (Ptr 1 0) (Ptr 2 0) (Ptr 3 0)
              (Ptr 4 0) 0 2 2 3 4 3 1 5 [1; 2] [1; 0] [] (q_ 1 10) (q_ 7 1) []
              Hrun) as (ns & H).
  exists s', ns. split; [exact Hrun|exact H].
Defined.

(** X15. A CBOW invocation that returns has run all its
    hierarchical-softmax rounds before any negative-sampling round: one
    kernel call for each [i < hsRounds], in that order, on row
    [idxSyn1[i]] of [syn1] with code [codes[i]], always with the
    averaged context [neu1] as embedding and the same accumulator; every
    later call is a negative-sampling call. *)
Theorem CBOW_rounds_order
    (s s' : state) (syn0 syn1 expTable syn1Neg negTable : ptr)
    (vectorLength hsRounds ngRounds expLength vocabSize ngStarter
       negTableLength idxSyn0Length initialIdx : Z)
    (idxSyn0 idxSyn1 codes : list Z) (intArrays : list (list Z))
    (alpha seed : Qc) (reals : list Qc) :
  run (CBOW.executeAggregate
         [syn0; syn1; expTable; syn1Neg; negTable]
         [vectorLength; hsRounds; ngRounds; expLength; vocabSize; ngStarter;
          negTableLength; idxSyn0Length; initialIdx]
         (idxSyn0 :: idxSyn1 :: codes :: intArrays) (alpha :: seed :: reals)) s
  = Some (tt, s') ->
  let args := [Ptr (length (heap s)) 0; unassigned; expTable;
               Ptr (S (length (heap s))) 0; unassigned] in
  let hs := hs_calls args [vectorLength; expLength; 0] syn1 vectorLength
              hsRounds idxSyn1 codes in
  exists ns,
    new_calls s s' = hs ++ ns /\
    length hs = Z.to_nat hsRounds /\
    Forall (fun c => call_kernel c = NS) ns.
Proof.
  intros Hrun args hs. unfold run, CBOW.executeAggregate in Hrun.
  destruct (cbow_prologue_Some s syn0 syn1 expTable syn1Neg negTable
    vectorLength hsRounds ngRounds expLength vocabSize ngStarter
    negTableLength idxSyn0Length initialIdx idxSyn0 idxSyn1 codes intArrays
    alpha seed reals) as (Hvl & Hseed).
  { apply bind_Some in Hrun as (? & ? & -> & _). by eexists. }
  pose proof (cbow_prologue_run s syn0 syn1 expTable syn1Neg negTable
    vectorLength hsRounds ngRounds expLength vocabSize ngStarter
    negTableLength idxSyn0Length initialIdx idxSyn0 idxSyn1 codes intArrays
    alpha seed reals Hvl Hseed) as Hpro.
  simpl in Hpro. rewrite (bind_run _ _ _ _ _ Hpro) in Hrun.
  apply bind_Some in Hrun as ([] & s1 & Havg & Hrun).
  apply bind_Some in Hrun as (v & s2 & Hrounds & Hrun).
  apply bind_Some in Hrun as ([] & s3 & Hscatter & Hrun).
  apply bind_Some in Hrun as ([] & s4 & Hd1%delete_Some & Hd2%delete_Some).
  injection Hd1 as ->. injection Hd2 as ->.
  apply average_context_effect in Havg as [Hc1 _]. simpl in Hc1.
  apply scatter_calls in Hscatter. unfold same_calls in Hscatter.
  unfold CBOW.rounds in Hrounds. simpl in Hrounds.
  apply bind_Some in Hrounds as (st & s1' & Hhs & Hng).
  destruct (rounds_order _ _ _ _ _ _ _ _ _ _ _ _ _ _ _ _ _ _ _ _ Hhs Hng)
    as (ns & Hc & Hlen & Hns).
  exists ns. split; [|done].
  unfold new_calls. simpl. rewrite Hscatter, Hc, Hc1.
  by rewrite drop_app_length.
Qed.

Lemma CBOW_rounds_order_witness :
  let s := State example_model [] in
  let args := [Ptr 5 0; unassigned; Ptr 2 0; Ptr 6 0; unassigned] in
  let hs := hs_calls args [2; 4; 0] (Ptr 1 0) 2 2 [1; 2] [1; 0] in
  exists s' ns,
    run (CBOW.executeAggregate example_arguments [2; 2; 3; 4; 3; 1; 5; 3; 0]
           [[2; 0; 2]; [1; 2]; [1; 0]] [q_ 1 10; q_ 12345 1]) s
    = Some (tt, s') /\
    new_calls s s' = hs ++ ns /\
    length hs = Z.to_nat 2 /\
    Forall (fun c => call_kernel c = NS) ns.
Proof.
  intros s args hs.
  assert (Hrun : exists s',
    run (CBOW.executeAggregate example_arguments [2; 2; 3; 4; 3; 1; 5; 3; 0]
           [[2; 0; 2]; [1; 2]; [1; 0]] [q_ 1 10; q_ 12345 1]) s
    = Some (tt, s')) by (vm_compute; eexists; reflexivity).
  destruct Hrun as [s' Hrun].
  destruct (CBOW_rounds_order s s' (Ptr 0 0) (Ptr 1 0) (Ptr 2 0) (Ptr 3 0)
              (Ptr 4 0) 2 2 3 4 3 1 5 3 0 [2; 0; 2] [1; 2] [1; 0] []
              (q_ 1 10) (q_ 12345 1) [] Hrun) as (ns & H).
  exists s', ns. split; [exact Hrun|exact H].
Defined.

(** ** One hierarchical-softmax round of SkipGram *)

Lemma cell_block h p j : is_Some (cell h p j) -> exists d, h !! blk p = Some (Some d).
Proof.
  unfold cell. case_bool_decide; [|by intros []].
  destruct (h !! blk p) as [[d|]|]; try by intros []. eauto.
Qed.

Lemma row_block h p n : 0 < n -> is_Some (row h p n) ->
  exists d, h !! blk p = Some (Some d).
Proof.
  intros Hn [l Hl]. apply (cell_block h p 0).
  rewrite (row_cell _ _ _ _ 0 Hl) by lia. apply lookup_lt_is_Some.
  rewrite (row_length _ _ _ _ Hl). lia.
Qed.

Lemma row_insert_ne (h : heap_t) b x p n :
  b <> blk p -> row (<[b := x]> h) p n = row h p n.
Proof. intros Hb. apply row_ext. by apply list_lookup_insert_ne. Qed.

Lemma zip_with_accumulated (g : Qc) (e t : list Qc) n :
  length e = n -> length t = n ->
  zip_with (fun u v => v + u)%Qc
    (zip_with (fun ai ti => ai + g * ti)%Qc (replicate n 0%Qc) t) e
  = zip_with (fun ei ti => ei + g * ti)%Qc e t.
Proof.
  intros He Ht. apply list_eq. intros i. rewrite !lookup_zip_with.
  destruct (decide (i < n)%nat) as [Hi|Hi].
  - rewrite lookup_replicate_2 by done.
    destruct (lookup_lt_is_Some_2 e i) as [x ->]; [lia|].
    destruct (lookup_lt_is_Some_2 t i) as [y ->]; [lia|].
    simpl. f_equal. ring.
  - rewrite (lookup_ge_None_2 e), (lookup_ge_None_2 t) by lia.
    rewrite (lookup_ge_None_2 (replicate n 0%Qc)) by (rewrite length_replicate; lia).
    done.
Qed.

(** X16. SkipGram with one hierarchical-softmax round and no negative
    sampling, on a center row [e] of [syn0] and the row [t] of [syn1]
    that [idxSyn1[0]] names: the invocation returns, and either the
    caller's memory is as before (the kernel returned early), or, for one
    entry [f] of [expTable] and [g = (1 - code - f) * alpha], the center
    row has become [e + g * t] and the row of [syn1] has become
    [t + g * e], each from the value the other row had before the call.
    Which of the two it is, and which entry, is not part of the
    statement. *)
Theorem SkipGram_single_hierarchic_round
    (s : state) (syn0 syn1 expTable syn1Neg negTable : ptr)
    (syn0Row vectorLength expLength vocabSize ngStarter negTableLength : Z)
    (n code : Z) (idxSyn1 codes : list Z) (intArrays : list (list Z))
    (alpha seed : Qc) (reals : list Qc) (e t tbl : list Qc) :
  let center := ptr_add syn0 (syn0Row * vectorLength) in
  let target := ptr_add syn1 (n * vectorLength) in
  0 < vectorLength ->
  int_range (syn0Row * vectorLength) = true ->
  int_range (n * vectorLength) = true ->
  int_range expLength = true -> int_range (1 - code) = true ->
  0 <= Qtrunc seed < 2 ^ 64 ->
  blk syn0 <> blk syn1 ->
  row (heap s) center vectorLength = Some e ->
  row (heap s) target vectorLength = Some t ->
  row (heap s) expTable expLength = Some tbl ->
  exists s',
    run (SkipGram.executeAggregate
           [syn0; syn1; expTable; syn1Neg; negTable]
           [syn0Row; vectorLength; 1; 0; expLength; vocabSize; ngStarter;
            negTableLength]
           ((n :: idxSyn1) :: (code :: codes) :: intArrays)
           (alpha :: seed :: reals)) s
    = Some (tt, s') /\
    (heap s' = heap s ++ [None] \/
     exists idx f,
       0 <= idx < expLength /\ tbl !! Z.to_nat idx = Some f /\
       let g := ((Qc_of_Z (1 - code) - f) * alpha)%Qc in
       row (heap s') center vectorLength
       = Some (zip_with (fun ei ti => ei + g * ti)%Qc e t) /\
       row (heap s') target vectorLength
       = Some (zip_with (fun ti ei => ti + g * ei)%Qc t e)).
Proof.
  intros center target Hvl Hoff Hoff1 HL Hcode Hseed H01 Re Rt Rtbl.
  set (zeros := replicate (Z.to_nat vectorLength) 0%Qc).
  set (acc := Ptr (length (heap s)) 0).
  set (s0 := State (heap s ++ [Some zeros]) (calls s)).
  assert (Hb0 : (blk syn0 < length (heap s))%nat)
    by (apply (row_is_Some_blk _ center vectorLength); [done|by eexists]).
  assert (Hb1 : (blk syn1 < length (heap s))%nat)
    by (apply (row_is_Some_blk _ target vectorLength); [done|by eexists]).
  assert (Hbt : (blk expTable < length (heap s))%nat \/ expLength <= 0).
  { destruct (Z_lt_le_dec 0 expLength); [left|by right].
    apply (row_is_Some_blk _ expTable expLength); [done|by eexists]. }
  assert (Re0 : row (heap s0) center vectorLength = Some e)
    by (unfold s0; simpl; by rewrite row_app_l).
  assert (Rt0 : row (heap s0) target vectorLength = Some t)
    by (unfold s0; simpl; by rewrite row_app_l).
  assert (Ra0 : row (heap s0) acc vectorLength = Some zeros) by apply row_fresh.
  assert (Rtbl0 : row (heap s0) expTable expLength = Some tbl).
  { rewrite <- Rtbl. destruct Hbt.
    - unfold s0. simpl. by rewrite row_app_l.
    - unfold row. by replace (Z.to_nat expLength) with 0%nat by lia. }
  destruct (HS_run s0 center target expTable acc vectorLength expLength code
              alpha [] (seed :: reals) e t zeros tbl)
    as (h1 & Hk & Hpost & Hidx); simpl; try done; try lia.
  set (og := hs_gradient (dot_product e t) expLength code tbl alpha) in *.
  assert (Hog : forall g, og = Some g ->
    exists f, tbl !! Z.to_nat (exp_bucket (dot_product e t) expLength) = Some f /\
              g = ((Qc_of_Z (1 - code) - f) * alpha)%Qc).
  { intros g Hg.
    destruct (lookup_lt_is_Some_2 tbl
                (Z.to_nat (exp_bucket (dot_product e t) expLength))) as [f Hf].
    { rewrite (row_length _ _ _ _ Rtbl).
      assert (Hin := Hidx ltac:(by rewrite Hg)). lia. }
    exists f. split; [done|]. revert Hg. unfold og, hs_gradient.
    repeat case_match; try done. rewrite Hf. simpl. congruence. }
  (* the state after the rounds *)
  set (s1 := State h1 (calls s0 ++
    [Call HS [center; target; expTable; acc] [vectorLength; expLength; code]])).
  assert (Hfinish : forall s',
    SkipGram.finish
      (SkipGram.Env syn0Row vectorLength 1 0 expLength vocabSize ngStarter
         negTableLength acc center syn1 syn1Neg negTable (n :: idxSyn1)
         (code :: codes)) s1 = Some (tt, s') ->
    SkipGram.executeAggregate
      [syn0; syn1; expTable; syn1Neg; negTable]
      [syn0Row; vectorLength; 1; 0; expLength; vocabSize; ngStarter;
       negTableLength]
      ((n :: idxSyn1) :: (code :: codes) :: intArrays)
      (alpha :: seed :: reals) s = Some (tt, s')).
  { intros s' Hfin. unfold SkipGram.executeAggregate.
    run_with (skipgram_prologue_run s syn0 syn1 expTable syn1Neg negTable
      syn0Row vectorLength 1 0 expLength vocabSize ngStarter negTableLength
      (n :: idxSyn1) (code :: codes) intArrays alpha seed reals
      ltac:(lia) Hoff Hseed).
    cbn zeta. fold center acc zeros s0.
    unfold SkipGram.rounds, hierarchic_rounds, negative_rounds, for_. simpl.
    rewrite !bind_assoc. run_at. unfold imul. run_checked. run_at.
    fold target. run_with Hk. rewrite !bind_ret. exact Hfin. }
  destruct og as [g|].
  - destruct (Hog g eq_refl) as (f & Hf & Hg).
    destruct (kernel_post_rows g (heap s0) center target acc vectorLength h1
                e t zeros) as (Re1 & Ra1 & Rt1); simpl; try done; try lia.
    destruct (update_loop_run (fun u v => v + u)%Qc acc center vectorLength s1)
      as (h2 & Hadd & Hupd);
      [simpl; lia | exists (zip_with (fun ai ti => ai + g * ti)%Qc zeros t);
                    exact Ra1
      | exists e; exact Re1 |].
    pose proof (updated_row_target _ _ _ _ _ _ _ _ Hupd Ra1 Re1) as Re2.
    pose proof (updated_row_other _ _ _ _ _ _ _ target vectorLength Hupd
                  ltac:(simpl; lia)) as Rt2.
    unfold s1 in Rt2. cbn [heap] in Rt2. rewrite Rt1 in Rt2.
    pose proof (updated_row_other _ _ _ _ _ _ _ acc vectorLength Hupd
                  ltac:(simpl; lia)) as Ra2.
    unfold s1 in Ra2. cbn [heap] in Ra2. rewrite Ra1 in Ra2.
    destruct (row_block h2 acc vectorLength Hvl) as [d Hd]; [by eexists|].
    eexists. split.
    + apply Hfinish. unfold SkipGram.finish. simpl. fold add_loop.
      unfold add_loop. run_with Hadd.
      unfold delete. simpl. simpl in Hd. rewrite Hd. reflexivity.
    + right. exists (exp_bucket (dot_product e t) expLength), f.
      split; [by apply Hidx|]. split; [exact Hf|].
      cbn zeta. rewrite <- Hg.
      simpl. rewrite !row_insert_ne by (simpl; lia).
      split; [|done]. rewrite Re2. f_equal.
      apply zip_with_accumulated.
      * rewrite (row_length _ _ _ _ Re). done.
      * rewrite (row_length _ _ _ _ Rt). done.
  - simpl in Hpost. subst h1.
    exists (State (heap s ++ [None]) (calls s1)). split; [|by left].
    apply Hfinish. unfold SkipGram.finish. simpl.
    erewrite bind_run.
    2:{ apply add_loop_zero; simpl; [exact Ra0|by eexists]. }
    exact (delete_last (heap s) _ s1 eq_refl).
Qed.

Lemma SkipGram_single_hierarchic_round_witness :
  let s := State example_model [] in
  let e := [q_ 1 1; q_ 0 1] in
  let t := [q_ 1 1; q_ 0 1] in
  let tbl := [q_ 1 10; q_ 3 10; q_ 7 10; q_ 9 10] in
  exists s',
    run (SkipGram.executeAggregate example_arguments [0; 2; 1; 0; 4; 3; 1; 5]
           [[1; 2]; [1; 0]] [q_ 1 10; q_ 7 1]) s = Some (tt, s') /\
    (heap s' = heap s ++ [None] \/
     exists idx f,
       0 <= idx < 4 /\ tbl !! Z.to_nat idx = Some f /\
       let g := ((Qc_of_Z (1 - 1) - f) * q_ 1 10)%Qc in
       row (heap s') (ptr_add (Ptr 0 0) (0 * 2)) 2
       = Some (zip_with (fun ei ti => ei + g * ti)%Qc e t) /\
       row (heap s') (ptr_add (Ptr 1 0) (1 * 2)) 2
       = Some (zip_with (fun ti ei => ti + g * ei)%Qc t e)).
Proof.
  intros s e t tbl.
  apply (SkipGram_single_hierarchic_round s (Ptr 0 0) (Ptr 1 0) (Ptr 2 0)
           (Ptr 3 0) (Ptr 4 0) 0 2 4 3 1 5 1 1 [2] [0] [] (q_ 1 10) (q_ 7 1)
           [] e t tbl);
    [lia | reflexivity | reflexivity | reflexivity | reflexivity
    | by vm_compute | simpl; lia | reflexivity | reflexivity | reflexivity].
Defined.

(** ** The averaged context of CBOW *)

Lemma for_from_inv_range {St} (body : Z -> St -> M St)
    (I : Z -> St -> state -> Prop) : forall (k : nat) lo,
  (forall i v s v1 s1, lo <= i < lo + Z.of_nat k ->
     I i v s -> body i v s = Some (v1, s1) -> I (i + 1) v1 s1) ->
  forall v s v' s',
    I lo v s -> for_from k lo body v s = Some (v', s') ->
    I (lo + Z.of_nat k) v' s'.
Proof.
  induction k as [|k IH]; intros lo Hstep v s v' s' HI Hrun.
  - injection Hrun as <- <-. by rewrite Z.add_0_r.
  - simpl in Hrun. apply bind_Some in Hrun as (v1 & s1 & Hb & Hrest).
    replace (lo + Z.of_nat (S k)) with (lo + 1 + Z.of_nat k) by lia.
    eapply IH; [|by eapply (Hstep lo); [lia|..]|done].
    intros i w s2 w1 s3 Hi. apply Hstep. lia.
Qed.

Lemma context_sum_snoc h syn0 vl ws w i :
  context_sum h syn0 vl (ws ++ [w]) i
  = (context_sum h syn0 vl ws i + default 0%Qc (cell h syn0 (w * vl + i)))%Qc.
Proof. unfold context_sum. by rewrite foldl_app. Qed.

(** X17. In a CBOW invocation with a window of [idxSyn0Length > 0]
    words, the rounds start from an embedding [neu1] whose element [i]
    is the sum of the elements [i] of the context rows of [syn0], a row
    listed twice counting twice, divided by [idxSyn0Length]; up to there
    nothing but [neu1] has been written. *)
Theorem CBOW_average_context
    (s s' : state) (syn0 syn1 expTable syn1Neg negTable : ptr)
    (vectorLength hsRounds ngRounds expLength vocabSize ngStarter
       negTableLength idxSyn0Length initialIdx : Z)
    (idxSyn0 idxSyn1 codes : list Z) (intArrays : list (list Z))
    (alpha seed : Qc) (reals : list Qc) :
  let arguments := [syn0; syn1; expTable; syn1Neg; negTable] in
  let indexArguments :=
    [vectorLength; hsRounds; ngRounds; expLength; vocabSize; ngStarter;
     negTableLength; idxSyn0Length; initialIdx] in
  let ints := idxSyn0 :: idxSyn1 :: codes :: intArrays in
  let realArguments := alpha :: seed :: reals in
  let context := take (Z.to_nat idxSyn0Length) idxSyn0 in
  0 < idxSyn0Length -> (blk syn0 < length (heap s))%nat ->
  run (CBOW.executeAggregate arguments indexArguments ints realArguments) s
  = Some (tt, s') ->
  exists e idxArgs next_random s0 s1,
    run (CBOW.prologue arguments indexArguments ints realArguments) s
    = Some ((e, idxArgs, next_random), s0) /\
    run (CBOW.average_context e) s0 = Some (tt, s1) /\
    run (CBOW.rounds e realArguments idxArgs next_random ;;
         CBOW.scatter e ;; delete (CBOW.neu1 e) ;; delete (CBOW.neu1e e)) s1
    = Some (tt, s') /\
    length context = Z.to_nat idxSyn0Length /\
    (forall i, 0 <= i < vectorLength ->
       cell (heap s1) (CBOW.neu1 e) i
       = Some (context_sum (heap s) syn0 vectorLength context i
               / Qc_of_Z idxSyn0Length)%Qc) /\
    (forall b, b <> blk (CBOW.neu1 e) -> heap s1 !! b = heap s0 !! b).
Proof.
  intros arguments indexArguments ints realArguments context Hlen Hb0 Hrun.
  unfold run in *. unfold CBOW.executeAggregate in Hrun.
  destruct (cbow_prologue_Some s syn0 syn1 expTable syn1Neg negTable
    vectorLength hsRounds ngRounds expLength vocabSize ngStarter
    negTableLength idxSyn0Length initialIdx idxSyn0 idxSyn1 codes intArrays
    alpha seed reals) as (Hvl & Hseed).
  { apply bind_Some in Hrun as (? & ? & Hp & _). eexists. exact Hp. }
  pose proof (cbow_prologue_run s syn0 syn1 expTable syn1Neg negTable
    vectorLength hsRounds ngRounds expLength vocabSize ngStarter
    negTableLength idxSyn0Length initialIdx idxSyn0 idxSyn1 codes intArrays
    alpha seed reals Hvl Hseed) as Hpro.
  cbn zeta in Hpro. fold arguments indexArguments ints realArguments in Hpro.
  rewrite (bind_run _ _ _ _ _ Hpro) in Hrun.
  apply bind_Some in Hrun as ([] & s1 & Havg & Hrest).
  eexists _, _, _, _, s1. split; [exact Hpro|]. split; [exact Havg|].
  split; [exact Hrest|]. clear Hrest Hpro. cbn [CBOW.neu1].
  set (zeros := Some (replicate (Z.to_nat vectorLength) 0%Qc)) in *.
  set (neu1 := Ptr (length (heap s)) 0) in *.
  set (s0 := State (heap s ++ [zeros; zeros]) (calls s)) in *.
  unfold CBOW.average_context in Havg. simpl in Havg.
  rewrite bool_decide_true in Havg by done.
  apply bind_Some in Havg as ([] & s2 & Hsum & Hdiv).
  (* the sums *)
  set (I1 := fun (c : Z) (_ : unit) (sx : state) =>
    0 <= c /\
    length (take (Z.to_nat c) idxSyn0) = Z.to_nat c /\
    (forall b, b <> length (heap s) -> heap sx !! b = heap s0 !! b) /\
    forall i, 0 <= i < vectorLength ->
      cell (heap sx) neu1 i
      = Some (context_sum (heap s) syn0 vectorLength
                (take (Z.to_nat c) idxSyn0) i)).
  assert (H1 : I1 (0 + Z.of_nat (Z.to_nat idxSyn0Length)) tt s2).
  { unfold for_ in Hsum. refine (for_from_inv _ I1 _ _ _ _ _ _ _ _ Hsum).
    2:{ split; [done|]. split; [done|]. split; [done|]. intros i Hi.
        unfold cell, neu1, s0. cbn [blk ofs heap].
        rewrite bool_decide_true by lia.
        rewrite (lookup_app_r (heap s)), Nat.sub_diag by lia.
        cbn [lookup list_lookup]. apply lookup_replicate_2. lia. }
    clear Hsum Hdiv. intros c [] sx [] sy (Hc & Hl & Hfr & Hcells) Hb.
    apply bind_Some in Hb as (w & ? & (_ & ? & Hw & [= <- ->])%at_Some & Hb).
    apply bind_Some in Hb as (off & ? & [_ [= -> ->]]%checked_Some & Hb).
    assert (Hblk : blk (ptr_add syn0 (w * vectorLength)) <> blk neu1)
      by (simpl; lia).
    pose proof (update_from_valid _ _ _ Hblk _ _ _ _ Hb) as Hval.
    apply update_loop_Some in Hb as (h' & [= ->] & Hlen' & Hfr' & Hup); [|done].
    unfold I1. cbn [heap].
    replace (Z.to_nat (c + 1)) with (S (Z.to_nat c)) by lia.
    rewrite (take_S_r _ _ _ Hw).
    split; [lia|]. split; [rewrite length_app, Hl; simpl; lia|]. split.
    { intros b Hb. rewrite Hfr' by (simpl; lia). by apply Hfr. }
    intros i Hi. rewrite Hup, decide_True by (simpl; lia).
    replace (ofs neu1 + i - ofs neu1) with i by lia.
    destruct (Hval i) as [[u Hu] _]; [lia|].
    rewrite Hu, (Hcells i Hi), context_sum_snoc. do 2 f_equal.
    rewrite (cell_addr (heap s) (ptr_add syn0 (w * vectorLength)) i syn0)
      by (simpl; lia).
    rewrite <- (cell_ext (heap s) (heap s0))
      by (unfold s0; simpl; by rewrite lookup_app_l).
    rewrite <- (cell_ext (heap s0) (heap sx)) by (apply Hfr; simpl; lia).
    by rewrite Hu. }
  destruct H1 as (_ & Hl & Hfr1 & Hsums).
  rewrite Z.add_0_l, Nat2Z.id in Hl, Hsums.
  fold context in Hl, Hsums.
  (* the division *)
  set (I2 := fun (i : Z) (_ : unit) (sx : state) =>
    (forall b, b <> length (heap s) -> heap sx !! b = heap s0 !! b) /\
    forall j, 0 <= j < vectorLength ->
      cell (heap sx) neu1 j
      = Some (if decide (j < i)
              then (context_sum (heap s) syn0 vectorLength context j
                    / Qc_of_Z idxSyn0Length)%Qc
              else context_sum (heap s) syn0 vectorLength context j)).
  assert (H2 : I2 (0 + Z.of_nat (Z.to_nat vectorLength)) tt s1).
  { unfold for_ in Hdiv.
    refine (for_from_inv_range _ I2 _ _ _ _ _ _ _ _ Hdiv).
    2:{ split; [done|]. intros j Hj. rewrite decide_False by lia.
        by apply Hsums. }
    clear Hdiv. intros i [] sx [] sy Hi (Hfr & Hcells) Hb.
    apply bind_Some in Hb as (u & ? & (? & Hu & [= <- ->])%load_Some & Hb).
    apply bind_Some in Hb as (q & ? & Hq & Hb).
    unfold fdiv in Hq. case_bool_decide; [done|]. injection Hq as <- <-.
    apply store_Some in Hb as (h' & Hset & [= ->]).
    destruct (set_cell_frame _ _ _ _ _ Hset) as [_ Hfr'].
    split.
    { intros b Hb. cbn [heap]. rewrite Hfr' by (simpl; lia). by apply Hfr. }
    intros j Hj. cbn [heap]. rewrite (cell_set_cell _ _ _ _ _ neu1 j Hset).
    rewrite Hcells, decide_False in Hu by lia. injection Hu as <-.
    destruct (decide (j = i)) as [->|Hne].
    - rewrite decide_True by done. by rewrite decide_True by lia.
    - rewrite decide_False by lia. rewrite Hcells by done.
      destruct (decide (j < i)); [by rewrite decide_True by lia|].
      by rewrite decide_False by lia. }
  destruct H2 as (Hfr2 & Hmeans).
  split; [done|]. split.
  - intros i Hi. rewrite Hmeans by done. by rewrite decide_True by lia.
  - intros b Hb. by apply Hfr2.
Qed.

Lemma CBOW_average_context_witness :
  let s := State example_model [] in
  let context := take (Z.to_nat 3) [2; 0; 2] in
  exists s' e s1,
    run (CBOW.executeAggregate example_arguments [2; 2; 3; 4; 3; 1; 5; 3; 0]
           [[2; 0; 2]; [1; 2]; [1; 0]] [q_ 1 10; q_ 12345 1]) s
    = Some (tt, s') /\
    length context = Z.to_nat 3 /\
    (forall i, 0 <= i < 2 ->
       cell (heap s1) (CBOW.neu1 e) i
       = Some (context_sum (heap s) (Ptr 0 0) 2 context i / Qc_of_Z 3)%Qc).
Proof.
  intros s context.
  assert (H1 : 0 < 3) by lia.
  assert (H2 : (blk (Ptr 0 0) < length (heap s))%nat) by (simpl; lia).
  assert (Hrun : exists s',
    run (CBOW.executeAggregate example_arguments [2; 2; 3; 4; 3; 1; 5; 3; 0]
           [[2; 0; 2]; [1; 2]; [1; 0]] [q_ 1 10; q_ 12345 1]) s
    = Some (tt, s')) by (vm_compute; eexists; reflexivity).
  destruct Hrun as [s' Hrun].
  destruct (CBOW_average_context s s' (Ptr 0 0) (Ptr 1 0) (Ptr 2 0) (Ptr 3 0)
              (Ptr 4 0) 2 2 3 4 3 1 5 3 0 [2; 0; 2] [1; 2] [1; 0] []
              (q_ 1 10) (q_ 12345 1) [] H1 H2 Hrun)
    as (e & idxArgs & nr & s0 & s1 & _ & _ & _ & Hl & Hc & _).
  exists s', e, s1. split; [exact Hrun|]. split; [exact Hl|exact Hc].
Defined.

(** ** The kernels where the table is not consulted *)

(** X18. With an empty table ([expLength <= 0]) the hierarchical-softmax
    kernel never updates and never reads [expTable], which may point
    anywhere: the bucket index of a dot product within [-6, 6) is then
    at least [expLength], so the kernel returns at line 66, and outside
    that range it returns at line 60. *)
Theorem HierarchicSoftmax_empty_table
    (s : state) (syn0 syn1 expTable neu1e : ptr)
    (vectorLength expLength code : Z) (alpha : Qc)
    (intArrays : list (list Z)) (reals : list Qc) :
  expLength <= 0 -> int_range expLength = true ->
  is_Some (row (heap s) syn0 vectorLength) ->
  is_Some (row (heap s) syn1 vectorLength) ->
  let args := [syn0; syn1; expTable; neu1e] in
  let idxArgs := [vectorLength; expLength; code] in
  run (HierarchicSoftmax.executeAggregate args idxArgs intArrays
         (alpha :: reals)) s
  = Some (tt, State (heap s) (calls s ++ [Call HS args idxArgs])).
Proof.
  intros HL0 HL [e R0] [t R1] args idxArgs.
  unfold run, HierarchicSoftmax.executeAggregate.
  run_with (log_call_run (Call HS args idxArgs) s).
  set (s1 := State (heap s) (calls s ++ _)).
  do 8 run_at.
  run_with (dot_loop_run s1 syn0 syn1 vectorLength e t R0 R1).
  set (dot := dot_product e t).
  destruct (bool_decide (dot < - HS_MAX_EXP)%Qc || bool_decide (HS_MAX_EXP <= dot)%Qc)
    eqn:Hsat; [done|].
  apply orb_false_iff in Hsat as [Hlo Hhi].
  apply bool_decide_eq_false in Hlo, Hhi.
  apply Qcnot_lt_le in Hlo. apply Qcnot_le_lt in Hhi.
  destruct (exp_index_run dot expLength s1 Hlo (Qclt_le_weak _ _ Hhi) HL)
    as (i & Hi & Hskip & _).
  run_with Hi. rewrite bool_decide_true; [done|].
  apply Hskip. rewrite exp_bucket_scaled. apply Qfloor_lower.
  by apply (exp_scaled_bounds dot expLength Hlo (Qclt_le_weak _ _ Hhi)).
Qed.

Lemma HierarchicSoftmax_empty_table_witness :
  let s := State example_model [] in
  let args := [Ptr 0 0; Ptr 1 0; Ptr 9 0; Ptr 3 0] in
  let idxArgs := [2; 0; 1] in
  run (HierarchicSoftmax.executeAggregate args idxArgs [] [q_ 1 10]) s
  = Some (tt, State (heap s) (calls s ++ [Call HS args idxArgs])).
Proof.
  intros s.
  apply (HierarchicSoftmax_empty_table s (Ptr 0 0) (Ptr 1 0) (Ptr 9 0) (Ptr 3 0)
           2 0 1 (q_ 1 10) [] []);
    [lia | reflexivity | by eexists | by eexists].
Defined.

(** X19. Where the dot product is saturated, above 6 or below -6, the
    negative-sampling kernel updates without consulting the table:
    whatever [expTable] and [expLength] are, it applies
    [g = (code - 1) * alpha] above 6 and [g = code * alpha] below -6. *)
Theorem NegativeSampling_saturated
    (s : state) (syn0 syn1Neg expTable neu1e : ptr)
    (vectorLength expLength code : Z) (alpha : Qc)
    (intArrays : list (list Z)) (reals : list Qc) (e t a : list Qc) :
  blk syn0 <> blk syn1Neg -> blk syn0 <> blk neu1e -> blk syn1Neg <> blk neu1e ->
  int_range (code - 1) = true -> int_range code = true ->
  row (heap s) syn0 vectorLength = Some e ->
  row (heap s) syn1Neg vectorLength = Some t ->
  row (heap s) neu1e vectorLength = Some a ->
  let dot := dot_product e t in
  (HS_MAX_EXP < dot)%Qc \/ (dot < - HS_MAX_EXP)%Qc ->
  let g := (if bool_decide (HS_MAX_EXP < dot)%Qc
            then Qc_of_Z (code - 1) * alpha
            else Qc_of_Z code * alpha)%Qc in
  exists s',
    run (NegativeSampling.executeAggregate [syn0; syn1Neg; expTable; neu1e]
           [vectorLength; expLength; code] intArrays (alpha :: reals)) s
    = Some (tt, s') /\
    row (heap s') syn0 vectorLength = Some e /\
    rows_updated g (heap s') syn1Neg neu1e vectorLength e t a.
Proof.
  intros H01 H0e H1e Hc1 Hc0 R0 R1 Re dot Hsat g.
  set (args := [syn0; syn1Neg; expTable; neu1e]).
  set (idxArgs := [vectorLength; expLength; code]).
  set (s1 := State (heap s) (calls s ++ [Call NS args idxArgs])).
  destruct (axpy_pair_run g syn0 syn1Neg neu1e vectorLength s1)
    as (h' & Hax & Hpost); [done..|by eexists|by eexists|by eexists|].
  exists (State h' (calls s1)). split.
  - unfold run, NegativeSampling.executeAggregate.
    run_with (log_call_run (Call NS args idxArgs) s). fold s1.
    do 8 run_at.
    run_with (dot_loop_run s1 syn0 syn1Neg vectorLength e t R0 R1).
    fold dot. unfold NegativeSampling.gradient, g in *.
    case_bool_decide as Hhi.
    + unfold isub. run_with (checked_run (code - 1) s1 Hc1).
      rewrite bind_ret. exact Hax.
    + destruct Hsat as [?|Hlo]; [done|].
      rewrite bool_decide_true by done.
      unfold isub. rewrite Z.sub_0_r. run_with (checked_run code s1 Hc0).
      rewrite bind_ret. exact Hax.
  - by apply (kernel_post_rows g (heap s) syn0 syn1Neg neu1e vectorLength h').
Qed.

Lemma NegativeSampling_saturated_witness :
  let e := [Qc_of_Z 7; Qc_of_Z 0; Qc_of_Z 0; Qc_of_Z 0] in
  let t := [Qc_of_Z 1; Qc_of_Z 1; Qc_of_Z 0; Qc_of_Z 0] in
  let a := replicate 4 0%Qc in
  let s := State (example_heap e t) [] in
  let g := (if bool_decide (HS_MAX_EXP < dot_product e t)%Qc
            then Qc_of_Z (0 - 1) * q_ 1 10
            else Qc_of_Z 0 * q_ 1 10)%Qc in
  exists s',
    run (NegativeSampling.executeAggregate [Ptr 0 0; Ptr 1 0; Ptr 9 0; Ptr 3 0]
           [4; (-5); 0] [] [q_ 1 10]) s = Some (tt, s') /\
    row (heap s') (Ptr 0 0) 4 = Some e /\
    rows_updated g (heap s') (Ptr 1 0) (Ptr 3 0) 4 e t a.
Proof.
  intros e t a s.
  apply (NegativeSampling_saturated s (Ptr 0 0) (Ptr 1 0) (Ptr 9 0) (Ptr 3 0)
           4 (-5) 0 (q_ 1 10) [] [] e t a);
    [simpl; lia | simpl; lia | simpl; lia | reflexivity | reflexivity
    | reflexivity | reflexivity | reflexivity | left; by vm_compute].
Defined.

(** ** The random state *)

(** X20. The update [next_random * 25214903917 + 11] of the 64-bit
    random state is a bijection of the states: the multiplier is odd, so
    the step can be undone, no two states have the same successor, and
    every state has a predecessor. *)
Theorem next_random_step_invertible (r : Z) :
  0 <= r < 2 ^ 64 ->
  previous_random_step (next_random_step r) = r /\
  next_random_step (previous_random_step r) = r.
Proof.
  intros Hr. unfold previous_random_step, next_random_step, u64.
  assert (Hinv : (25214903917 * 8868678245928342373) mod 2 ^ 64 = 1)
    by reflexivity.
  split.
  - rewrite Zplus_mod_idemp_l.
    rewrite <- Zmult_mod_idemp_l, Zminus_mod_idemp_l, Zmult_mod_idemp_l.
    replace ((r * 25214903917 + 11 - 11) * 8868678245928342373)
      with (r * (25214903917 * 8868678245928342373)) by ring.
    rewrite <- Zmult_mod_idemp_r, Hinv, Z.mul_1_r. by apply Z.mod_small.
  - rewrite Zplus_mod_idemp_l.
    rewrite <- Zplus_mod_idemp_l, Zmult_mod_idemp_l.
    replace ((r - 11) * 8868678245928342373 * 25214903917)
      with ((r - 11) * (25214903917 * 8868678245928342373)) by ring.
    rewrite <- Zmult_mod_idemp_r, Hinv, Z.mul_1_r.
    rewrite Zplus_mod_idemp_l.
    replace (r - 11 + 11) with r by ring. by apply Z.mod_small.
Qed.

Lemma next_random_step_invertible_witness :
  previous_random_step (next_random_step 7) = 7 /\
  next_random_step (previous_random_step 7) = 7.
Proof. apply (next_random_step_invertible 7). lia. Defined.

(** ** The strided loop of one thread *)

Lemma mod_same_window x k b :
  0 < b -> x <= k < x + b -> k mod b = x mod b -> k = x.
Proof.
  intros Hb Hk Hm.
  assert (H0 : (k - x) mod b = 0).
  { rewrite Zminus_mod, Hm, Z.sub_diag. by apply Z.mod_0_l, Z.neq_sym, Z.lt_neq. }
  rewrite Z.mod_small in H0 by lia. lia.
Qed.

Lemma stride_from f x_ y bdim n :
  blk x_ <> blk y -> 0 < bdim -> n + bdim <= 2 ^ 31 ->
  forall (fuel : nat) x s,
  0 <= x -> (Z.to_nat (n - x) < fuel)%nat ->
  (forall k, x <= k < n ->
     is_Some (cell (heap s) x_ k) /\ is_Some (cell (heap s) y k)) ->
  exists h',
    for_stride fuel x bdim n
      (fun x => u <- load x_ x ;; v <- load y x ;; store y x (f u v)) s
    = Some (tt, State h' (calls s)) /\
    strided f (heap s) x_ y [x mod bdim] bdim x n h'.
Proof.
  intros Hblk Hb Hn fuel. induction fuel as [|fuel IH]; intros x s Hx Hfuel Hv;
    [lia|].
  simpl. case_bool_decide as Hlt.
  2:{ exists (heap s). split; [by destruct s|].
      repeat split; try done. intros q j. rewrite decide_False by lia. done. }
  destruct (Hv x) as [[u Hu] [v Hy]]; [lia|].
  destruct (set_cell_is_Some (heap s) y x (f u v)) as [h1 Hset]; [by eexists|].
  pose proof (fun q j => cell_set_cell _ _ _ _ _ q j Hset) as Hc1.
  pose proof (set_cell_frame _ _ _ _ _ Hset) as [Hlen1 Hfr1].
  rewrite to_int32_small by (unfold INT_MIN, INT_MAX; lia).
  destruct (IH (x + bdim) (State h1 (calls s))) as (h' & Hrun & Hlen & Hfr & Hc);
    [lia|lia|..].
  { intros k Hk. simpl.
    rewrite !(cell_set_cell_is_Some _ _ _ _ _ _ _ Hset). apply Hv. lia. }
  assert (Hmod : (x + bdim) mod bdim = x mod bdim).
  { rewrite <- (Z.mul_1_l bdim) at 1. by rewrite Z_mod_plus_full. }
  rewrite Hmod in Hc.
  exists h'. split.
  { run_with (load_run _ _ _ _ Hu). run_with (load_run _ _ _ _ Hy).
    erewrite bind_run; [exact Hrun|]. apply store_Some. eauto. }
  simpl in *. split; [congruence|]. split.
  { intros b Hb'. rewrite Hfr, Hfr1; done. }
  intros q j. rewrite Hc, !Hc1. set (k := ofs q + j - ofs y).
  destruct (decide (blk q = blk y /\ x + bdim <= k < n /\ k mod bdim ∈ [x mod bdim]))
    as [(Hq & Hk & Hin)|Hout].
  - assert (H1 : blk q = blk y /\ x <= k < n /\ k mod bdim ∈ [x mod bdim])
      by (split; [done|split; [lia|done]]).
    assert (H2 : ~ (blk x_ = blk y /\ ofs x_ + k = ofs y + x)) by tauto.
    assert (H3 : ~ (blk q = blk y /\ ofs q + j = ofs y + x))
      by (unfold k in Hk; lia).
    by rewrite (decide_True _ _ H1), (decide_False _ _ H2), (decide_False _ _ H3).
  - destruct (decide (blk q = blk y /\ ofs q + j = ofs y + x)) as [[Hq Hj]|Hne].
    + assert (k = x) as Hkx by (unfold k; lia).
      assert (H1 : blk q = blk y /\ x <= k < n /\ k mod bdim ∈ [x mod bdim]).
      { split; [done|]. rewrite Hkx. split; [lia|constructor]. }
      rewrite (decide_True _ _ H1).
      rewrite Hkx, (cell_addr _ y x q j) by lia. by rewrite Hu, Hy.
    + rewrite decide_False; [done|].
      intros (Hq & Hk & Hin). rewrite elem_of_cons, elem_of_nil in Hin.
      destruct Hin as [Hin|[]].
      destruct (decide (k < x + bdim)) as [Hw|Hw].
      * apply Hne. split; [done|].
        assert (k = x) by (apply (mod_same_window x k bdim); [done|lia|done]).
        unfold k in *. lia.
      * apply Hout. split; [done|]. split; [lia|].
        rewrite elem_of_cons. by left.
Qed.

Lemma strided_ext f h x_ y ts ts' bdim lo n h' :
  (forall z, z ∈ ts <-> z ∈ ts') ->
  strided f h x_ y ts bdim lo n h' -> strided f h x_ y ts' bdim lo n h'.
Proof.
  intros Hts (Hlen & Hfr & Hc). split; [done|]. split; [done|].
  intros q j. rewrite Hc.
  destruct (decide (blk q = blk y /\ lo <= ofs q + j - ofs y < n /\
                    (ofs q + j - ofs y) mod bdim ∈ ts)) as [H|H].
  - rewrite decide_True; [done|]. by rewrite <- Hts.
  - rewrite decide_False; [done|]. by rewrite <- Hts.
Qed.

Lemma strided_nil f h x_ y bdim lo n : strided f h x_ y [] bdim lo n h.
Proof.
  split; [done|]. split; [done|]. intros q j.
  rewrite decide_False; [done|]. intros (_ & _ & Hin). by apply elem_of_nil in Hin.
Qed.

(** ** The threads of a block, one after the other *)

Lemma run_threads_ext (k1 k2 : Z -> M unit) :
  (forall t s, k1 t s = k2 t s) ->
  forall ts s, run_threads ts k1 s = run_threads ts k2 s.
Proof.
  intros Hk ts. induction ts as [|t ts IH]; intros s; [done|].
  simpl. unfold bind. rewrite Hk. destruct (k2 t s) as [[[] s1]|]; [apply IH|done].
Qed.

Lemma run_threads_strided f x_ y bdim n fuel h0 :
  blk x_ <> blk y -> 0 < bdim -> n + bdim <= 2 ^ 31 ->
  (Z.to_nat n < fuel)%nat ->
  (forall k, 0 <= k < n -> is_Some (cell h0 x_ k) /\ is_Some (cell h0 y k)) ->
  forall ts done s1,
    Forall (fun t => 0 <= t < bdim) ts -> NoDup ts ->
    (forall t, t ∈ ts -> t ∉ done) ->
    strided f h0 x_ y done bdim 0 n (heap s1) ->
    exists h',
      run_threads ts
        (fun t => for_stride fuel t bdim n
                    (fun x => u <- load x_ x ;; v <- load y x ;;
                              store y x (f u v))) s1
      = Some (tt, State h' (calls s1)) /\
      strided f h0 x_ y (ts ++ done) bdim 0 n h'.
Proof.
  intros Hblk Hb Hn Hfuel Hv ts.
  induction ts as [|t ts IH]; intros done s1 Hran Hnd Hdisj Hs1.
  { exists (heap s1). split; [by destruct s1|done]. }
  apply list.Forall_cons in Hran as [Ht Hran]. apply list.NoDup_cons in Hnd as [Htn Hnd].
  destruct Hs1 as (Hlen1 & Hfr1 & Hc1).
  assert (Hx1 : forall k, cell (heap s1) x_ k = cell h0 x_ k).
  { intros k. rewrite Hc1. by rewrite decide_False by tauto. }
  destruct (stride_from f x_ y bdim n Hblk Hb Hn fuel t s1)
    as (h2 & Hrun & Hlen2 & Hfr2 & Hc2); [lia|lia|..].
  { intros k Hk. rewrite Hx1. split; [apply Hv; lia|].
    rewrite Hc1. destruct (Hv k) as [[u Hu] [v Hy]]; [lia|].
    replace (ofs y + k - ofs y) with k by lia.
    case_decide; [|by eexists]. rewrite Hu, Hy. by eexists. }
  rewrite (Z.mod_small t bdim) in Hc2 by done.
  destruct (IH (t :: done) (State h2 (calls s1))) as (h' & Hrest & Hfin);
    [done|done|..].
  { intros t' Ht' [->|Hin]%elem_of_cons; [done|].
    eapply Hdisj; [|exact Hin]. rewrite elem_of_cons. by right. }
  { simpl. split; [congruence|]. split.
    { intros b Hb'. by rewrite Hfr2, Hfr1. }
    intros q j. rewrite Hc2. set (k := ofs q + j - ofs y).
    destruct (decide (blk q = blk y /\ t <= k < n /\ k mod bdim ∈ [t]))
      as [(Hq & Hk & Hin)|Hout].
    - rewrite elem_of_cons, elem_of_nil in Hin. destruct Hin as [Hin|[]].
      rewrite decide_True.
      2:{ split; [done|]. split; [lia|]. rewrite elem_of_cons. by left. }
      rewrite Hx1, Hc1. fold k. rewrite decide_False; [done|].
      intros (_ & _ & Hd). rewrite Hin in Hd.
      eapply Hdisj; [|exact Hd]. rewrite elem_of_cons. by left.
    - rewrite Hc1. fold k.
      destruct (decide (blk q = blk y /\ 0 <= k < n /\ k mod bdim ∈ done))
        as [(Hq & Hk & Hin)|Hnd'].
      + rewrite decide_True; [done|]. split; [done|]. split; [done|].
        rewrite elem_of_cons. by right.
      + rewrite decide_False; [done|].
        intros (Hq & Hk & [Hin|Hin]%elem_of_cons); [|tauto].
        apply Hout. split; [done|]. split.
        * pose proof (Z.mod_le k bdim ltac:(lia) Hb). lia.
        * rewrite Hin. constructor. }
  exists h'. split.
  - simpl. by run_with Hrun.
  - eapply strided_ext; [|exact Hfin]. intros z.
    rewrite !elem_of_app, !elem_of_cons. tauto.
Qed.

(** ** Axpy on the device *)

Lemma Axpy_cuda_eq fuel t bdim vecX vecY vl alpha arguments indexArguments
    intArrays realArguments s :
  Axpy.executeAggregateCuda fuel t bdim (vecX :: vecY :: arguments)
    (vl :: indexArguments) intArrays (alpha :: realArguments) s
  = for_stride fuel t bdim vl
      (fun x => u <- load vecX x ;; v <- load vecY x ;;
                store vecY x (alpha * u + v)%Qc) s.
Proof. unfold Axpy.executeAggregateCuda. by do 4 run_at. Qed.

(** X21. One thread of the device path of [Axpy], in a block of
    [blockDim] threads and with enough fuel, on rows in different
    buffers: thread [threadIdx] returns, and it has written exactly the
    cells [vecY[k]], [0 <= k < vectorLength], with
    [k mod blockDim = threadIdx], each becoming
    [alpha * vecX[k] + vecY[k]].  So no two threads of a block write the
    same cell, and none reads a cell another one writes. *)
Theorem Axpy_cuda_thread
    (s : state) (vecX vecY : ptr) (vectorLength : Z) (alpha : Qc)
    (arguments : list ptr) (indexArguments : list Z)
    (intArrays : list (list Z)) (realArguments : list Qc)
    (fuel : nat) (threadIdx blockDim : Z) :
  blk vecX <> blk vecY ->
  0 <= threadIdx < blockDim -> vectorLength + blockDim <= 2 ^ 31 ->
  (Z.to_nat vectorLength < fuel)%nat ->
  is_Some (row (heap s) vecX vectorLength) ->
  is_Some (row (heap s) vecY vectorLength) ->
  exists s',
    run (Axpy.executeAggregateCuda fuel threadIdx blockDim
           (vecX :: vecY :: arguments) (vectorLength :: indexArguments)
           intArrays (alpha :: realArguments)) s = Some (tt, s') /\
    calls s' = calls s /\
    strided (fun u v => alpha * u + v)%Qc (heap s) vecX vecY [threadIdx]
      blockDim 0 vectorLength (heap s').
Proof.
  intros Hblk Ht Hn Hfuel [X HX] [Y HY].
  destruct (stride_from (fun u v => alpha * u + v)%Qc vecX vecY blockDim
              vectorLength Hblk ltac:(lia) Hn fuel threadIdx s)
    as (h' & Hrun & Hlen & Hfr & Hc); [lia|lia|..].
  { intros k Hk.
    rewrite (row_cell _ _ _ _ _ HX), (row_cell _ _ _ _ _ HY) by lia.
    split; apply lookup_lt_is_Some.
    - rewrite (row_length _ _ _ _ HX). lia.
    - rewrite (row_length _ _ _ _ HY). lia. }
  rewrite (Z.mod_small threadIdx blockDim) in Hc by done.
  exists (State h' (calls s)). split; [|split; [done|]].
  - unfold run. by rewrite Axpy_cuda_eq.
  - simpl. split; [done|]. split; [done|]. intros q j. rewrite Hc.
    set (k := ofs q + j - ofs vecY).
    destruct (decide (blk q = blk vecY /\ threadIdx <= k < vectorLength /\
                      k mod blockDim ∈ [threadIdx])) as [H|H].
    + rewrite decide_True; [done|]. destruct H as (? & ? & ?).
      split; [done|]. split; [lia|done].
    + rewrite decide_False; [done|]. intros (Hq & Hk & Hin). apply H.
      split; [done|]. split; [|done].
      rewrite elem_of_cons, elem_of_nil in Hin. destruct Hin as [Hin|[]].
      pose proof (Z.mod_le k blockDim ltac:(lia) ltac:(lia)). lia.
Qed.

Lemma Axpy_cuda_thread_witness :
  let s := State example_model [] in
  exists s',
    run (Axpy.executeAggregateCuda 6 1 2 [Ptr 0 0; Ptr 1 0] [5] [] [q_ 1 2]) s
    = Some (tt, s') /\
    calls s' = calls s /\
    strided (fun u v => q_ 1 2 * u + v)%Qc (heap s) (Ptr 0 0) (Ptr 1 0) [1]
      2 0 5 (heap s').
Proof.
  intros s.
  apply (Axpy_cuda_thread s (Ptr 0 0) (Ptr 1 0) 5 (q_ 1 2) [] [] [] [] 6 1 2);
    [simpl; lia | lia | lia | simpl; lia | by eexists | by eexists].
Defined.

(** X22. The device path of [Axpy] agrees with the host path: the
    threads of a block of [blockDim] threads, each run to its end and
    taken in any order, leave every cell as [Axpy::executeAggregate]
    leaves it; together they visit every [x] in [0, vectorLength) once. *)
Theorem Axpy_cuda_block
    (s : state) (vecX vecY : ptr) (vectorLength : Z) (alpha : Qc)
    (arguments : list ptr) (indexArguments : list Z)
    (intArrays : list (list Z)) (realArguments : list Qc)
    (fuel : nat) (blockDim : Z) (order : list Z) :
  let args := vecX :: vecY :: arguments in
  let idxArgs := vectorLength :: indexArguments in
  let reals := alpha :: realArguments in
  blk vecX <> blk vecY ->
  0 < blockDim -> vectorLength + blockDim <= 2 ^ 31 ->
  order ≡ₚ seqZ 0 blockDim ->
  (Z.to_nat vectorLength < fuel)%nat ->
  is_Some (row (heap s) vecX vectorLength) ->
  is_Some (row (heap s) vecY vectorLength) ->
  exists s1 s2,
    run (run_threads order
           (fun t => Axpy.executeAggregateCuda fuel t blockDim args idxArgs
                       intArrays reals)) s = Some (tt, s1) /\
    run (Axpy.executeAggregate args idxArgs intArrays reals) s = Some (tt, s2) /\
    calls s1 = calls s2 /\ length (heap s1) = length (heap s2) /\
    forall q j, cell (heap s1) q j = cell (heap s2) q j.
Proof.
  intros args idxArgs reals Hblk Hb Hn Hperm Hfuel [X HX] [Y HY].
  assert (Hv : forall k, 0 <= k < vectorLength ->
    is_Some (cell (heap s) vecX k) /\ is_Some (cell (heap s) vecY k)).
  { intros k Hk.
    rewrite (row_cell _ _ _ _ _ HX), (row_cell _ _ _ _ _ HY) by lia.
    split; apply lookup_lt_is_Some.
    - rewrite (row_length _ _ _ _ HX). lia.
    - rewrite (row_length _ _ _ _ HY). lia. }
  destruct (run_threads_strided (fun u v => alpha * u + v)%Qc vecX vecY
              blockDim vectorLength fuel (heap s) Hblk Hb Hn Hfuel Hv
              order [] s) as (h1 & Hrun1 & Hlen1 & Hfr1 & Hc1).
  { apply list.Forall_forall. intros t Ht. rewrite Hperm in Ht.
    apply elem_of_seqZ in Ht. lia. }
  { rewrite Hperm. apply NoDup_seqZ. }
  { intros t _ Hin. by apply elem_of_nil in Hin. }
  { apply strided_nil. }
  destruct (update_loop_run (fun u v => alpha * u + v)%Qc vecX vecY
              vectorLength s Hblk) as (h2 & Hrun2 & Hlen2 & Hfr2 & Hc2);
    [by eexists..|].
  exists (State h1 (calls s)), (State h2 (calls s)).
  split; [|split; [|split; [done|split; [simpl; congruence|]]]].
  - unfold run. erewrite run_threads_ext; [exact Hrun1|].
    intros t s0. apply Axpy_cuda_eq.
  - unfold run, Axpy.executeAggregate. by do 4 run_at.
  - intros q j. simpl. rewrite Hc1, Hc2. set (k := ofs q + j - ofs vecY).
    destruct (decide (blk q = blk vecY /\ 0 <= k < vectorLength /\
                      k mod blockDim ∈ order ++ [])) as [(Hq & Hk & _)|H].
    + rewrite decide_True by (unfold k in Hk; lia). done.
    + rewrite decide_False; [done|]. intros (Hq & Hk). apply H.
      split; [done|]. split; [unfold k; lia|].
      rewrite app_nil_r, Hperm. apply elem_of_seqZ.
      pose proof (Z.mod_pos_bound k blockDim Hb). lia.
Qed.

Lemma Axpy_cuda_block_witness :
  let s := State example_model [] in
  exists s1 s2,
    run (run_threads [1; 0]
           (fun t => Axpy.executeAggregateCuda 6 t 2 [Ptr 0 0; Ptr 1 0] [5] []
                       [q_ 1 2])) s = Some (tt, s1) /\
    run (Axpy.executeAggregate [Ptr 0 0; Ptr 1 0] [5] [] [q_ 1 2]) s
    = Some (tt, s2) /\
    calls s1 = calls s2 /\ length (heap s1) = length (heap s2) /\
    forall q j, cell (heap s1) q j = cell (heap s2) q j.
Proof.
  intros s.
  apply (Axpy_cuda_block s (Ptr 0 0) (Ptr 1 0) 5 (q_ 1 2) [] [] [] [] 6 2 [1; 0]);
    [simpl; lia | lia | lia | apply perm_swap | simpl; lia
    | by eexists | by eexists].
Defined.

(** ** Pairs the negative-sampling kernel has nothing to teach *)

(** X23. The negative-sampling kernel changes nothing on a pair that is
    already saturated on its own side: a positive pair ([code = 1]) with
    a dot product above 6, or a negative pair ([code = 0]) with a dot
    product below -6, has gradient scalar zero, and every store writes
    back the value it read, however the rows overlap. *)
Theorem NegativeSampling_saturated_own_side
    (s s' : state) (syn0 syn1Neg expTable neu1e : ptr)
    (vectorLength expLength code : Z) (alpha : Qc)
    (arguments : list ptr) (indexArguments : list Z)
    (intArrays : list (list Z)) (reals : list Qc) (e t : list Qc) :
  let args := syn0 :: syn1Neg :: expTable :: neu1e :: arguments in
  let idxArgs := vectorLength :: expLength :: code :: indexArguments in
  let dot := dot_product e t in
  row (heap s) syn0 vectorLength = Some e ->
  row (heap s) syn1Neg vectorLength = Some t ->
  (code = 1 /\ (HS_MAX_EXP < dot)%Qc) \/ (code = 0 /\ (dot < - HS_MAX_EXP)%Qc) ->
  run (NegativeSampling.executeAggregate args idxArgs intArrays
         (alpha :: reals)) s = Some (tt, s') ->
  heap s' = heap s.
Proof.
  intros args idxArgs dot R0 R1 Hsat Hrun. unfold run in *.
  unfold NegativeSampling.executeAggregate in Hrun.
  apply bind_Some in Hrun as ([] & s1 & [= Hs1] & Hrun). subst s1.
  revert Hrun. do 8 run_at. intros Hrun.
  set (s1 := State (heap s) (calls s ++ _)) in Hrun.
  rewrite (bind_run _ _ _ _ _ (dot_loop_run s1 _ _ _ e t R0 R1)) in Hrun.
  fold dot in Hrun.
  apply bind_Some in Hrun as (og & s2 & Hg & Hrun).
  pose proof (stateless_gradient _ _ _ _ _ _ _ _ Hg) as ->.
  assert (Hog : og = Some 0%Qc).
  { unfold NegativeSampling.gradient in Hg.
    destruct Hsat as [[-> Hhi]|[-> Hlo]].
    - rewrite bool_decide_true in Hg by done.
      apply bind_Some in Hg as (c & ? & [_ [= -> ->]]%checked_Some & [= <-]).
      f_equal. change (1 - 1) with 0. rewrite Qc_of_Z_0. ring.
    - rewrite bool_decide_false in Hg.
      2:{ intros Hhi. apply (Qclt_not_le _ _ Hhi).
          apply Qclt_le_weak. eapply Qclt_trans; [exact Hlo|]. by vm_compute. }
      rewrite bool_decide_true in Hg by done.
      apply bind_Some in Hg as (c & ? & [_ [= -> ->]]%checked_Some & [= <-]).
      f_equal. change (0 - 0) with 0. rewrite Qc_of_Z_0. ring. }
  subst og.
  apply bind_Some in Hrun as ([] & s2 & H1 & H2).
  apply (heap_kept_axpy_zero 0%Qc) in H1, H2; try done.
  unfold heap_kept in *. simpl in *. congruence.
Qed.

Lemma NegativeSampling_saturated_own_side_witness :
  let e := [Qc_of_Z 7; Qc_of_Z 0; Qc_of_Z 0; Qc_of_Z 0] in
  let t := [Qc_of_Z 1; Qc_of_Z 1; Qc_of_Z 0; Qc_of_Z 0] in
  let s := State (example_heap e t) [] in
  exists s',
    run (NegativeSampling.executeAggregate [Ptr 0 0; Ptr 1 0; Ptr 2 0; Ptr 3 0]
           [4; 2; 1] [] [q_ 1 10]) s = Some (tt, s') /\
    heap s' = heap s.
Proof.
  intros e t s.
  assert (H1 : row (heap s) (Ptr 0 0) 4 = Some e) by reflexivity.
  assert (H2 : row (heap s) (Ptr 1 0) 4 = Some t) by reflexivity.
  assert (H3 : (1 = 1 /\ (HS_MAX_EXP < dot_product e t)%Qc) \/
               (1 = 0 /\ (dot_product e t < - HS_MAX_EXP)%Qc))
    by (left; split; [reflexivity|by vm_compute]).
  assert (Hrun : exists s',
    run (NegativeSampling.executeAggregate [Ptr 0 0; Ptr 1 0; Ptr 2 0; Ptr 3 0]
           [4; 2; 1] [] [q_ 1 10]) s = Some (tt, s'))
    by (vm_compute; eexists; reflexivity).
  destruct Hrun as [s' Hrun]. exists s'. split; [exact Hrun|].
  exact (NegativeSampling_saturated_own_side s s' (Ptr 0 0) (Ptr 1 0) (Ptr 2 0)
           (Ptr 3 0) 4 2 1 (q_ 1 10) [] [] [] [] e t H1 H2 H3 Hrun).
Defined.

(** ** The two kernels between the saturation bounds *)

Lemma updated_cells f ha hb x_ y lo hi ha' hb' :
  (forall q j, cell ha q j = cell hb q j) ->
  updated f ha x_ y lo hi ha' -> updated f hb x_ y lo hi hb' ->
  forall q j, cell ha' q j = cell hb' q j.
Proof.
  intros H (_ & _ & Ha) (_ & _ & Hb) q j. by rewrite Ha, Hb, !H.
Qed.

Lemma kernel_post_cells og h syn0 syn1 neu1e vl h1 h2 :
  kernel_post og h syn0 syn1 neu1e vl h1 ->
  kernel_post og h syn0 syn1 neu1e vl h2 ->
  forall q j, cell h1 q j = cell h2 q j.
Proof.
  destruct og as [g|]; simpl; [|by intros -> ->].
  intros (ha & Ua1 & Ua2) (hb & Ub1 & Ub2).
  eapply updated_cells; [|exact Ua2|exact Ub2].
  by eapply updated_cells; [|exact Ua1|exact Ub1].
Qed.

(** X24. For a dot product within [-6, 6) the two kernels are one: the
    hierarchical-softmax kernel with code [c] and the negative-sampling
    kernel with code [1 - c], run on the same rows and table, leave
    every cell with the same value, since [(1 - c - f) * alpha] is
    [((1 - c) - f) * alpha] and the bucket is the same. *)
Theorem kernels_agree_between_the_bounds
    (s : state) (syn0 target expTable neu1e : ptr)
    (vectorLength expLength code : Z) (alpha : Qc)
    (intArrays : list (list Z)) (reals : list Qc) (e t a tbl : list Qc) :
  blk syn0 <> blk target -> blk syn0 <> blk neu1e -> blk target <> blk neu1e ->
  int_range expLength = true ->
  int_range (1 - code) = true -> int_range (1 - code - 1) = true ->
  row (heap s) syn0 vectorLength = Some e ->
  row (heap s) target vectorLength = Some t ->
  row (heap s) neu1e vectorLength = Some a ->
  row (heap s) expTable expLength = Some tbl ->
  let dot := dot_product e t in
  (- HS_MAX_EXP <= dot)%Qc -> (dot < HS_MAX_EXP)%Qc ->
  let args := [syn0; target; expTable; neu1e] in
  exists s1 s2,
    run (HierarchicSoftmax.executeAggregate args
           [vectorLength; expLength; code] intArrays (alpha :: reals)) s
    = Some (tt, s1) /\
    run (NegativeSampling.executeAggregate args
           [vectorLength; expLength; 1 - code] intArrays (alpha :: reals)) s
    = Some (tt, s2) /\
    forall q j, cell (heap s1) q j = cell (heap s2) q j.
Proof.
  intros H01 H0e H1e HL Hc Hc1 R0 R1 Re Rt dot Hlo Hhi args.
  destruct (HS_run s syn0 target expTable neu1e vectorLength expLength code
              alpha intArrays reals e t a tbl H01 H0e H1e HL R0 R1 Re Rt Hc)
    as (h1 & Hrun1 & Hpost1 & _).
  destruct (NS_run s syn0 target expTable neu1e vectorLength expLength
              (1 - code) alpha intArrays reals e t a tbl H01 H0e H1e HL
              R0 R1 Re Rt Hc1) as (h2 & Hrun2 & Hpost2 & _).
  { by rewrite Z.sub_0_r. }
  eexists _, _. split; [exact Hrun1|]. split; [exact Hrun2|]. simpl.
  eapply kernel_post_cells; [exact Hpost1|].
  replace (hs_gradient (dot_product e t) expLength code tbl alpha)
    with (ns_gradient (dot_product e t) expLength (1 - code) tbl alpha);
    [exact Hpost2|].
  unfold hs_gradient, ns_gradient. fold dot.
  rewrite (bool_decide_false (HS_MAX_EXP < dot)%Qc)
    by (by apply Qcle_not_lt, Qclt_le_weak).
  rewrite (bool_decide_false (dot < - HS_MAX_EXP)%Qc) by (by apply Qcle_not_lt).
  rewrite (bool_decide_false (HS_MAX_EXP <= dot)%Qc) by (by apply Qclt_not_le).
  done.
Qed.

Lemma kernels_agree_between_the_bounds_witness :
  let e := [Qc_of_Z 1; Qc_of_Z 0; Qc_of_Z 0; Qc_of_Z 0] in
  let t := [Qc_of_Z 0; Qc_of_Z 1; Qc_of_Z 0; Qc_of_Z 0] in
  let s := State (example_heap e t) [] in
  let args := [Ptr 0 0; Ptr 1 0; Ptr 2 0; Ptr 3 0] in
  exists s1 s2,
    run (HierarchicSoftmax.executeAggregate args [4; 2; 1] [] [q_ 1 10]) s
    = Some (tt, s1) /\
    run (NegativeSampling.executeAggregate args [4; 2; 1 - 1] [] [q_ 1 10]) s
    = Some (tt, s2) /\
    forall q j, cell (heap s1) q j = cell (heap s2) q j.
Proof.
  intros e t s args.
  apply (kernels_agree_between_the_bounds s (Ptr 0 0) (Ptr 1 0) (Ptr 2 0)
           (Ptr 3 0) 4 2 1 (q_ 1 10) [] [] e t (replicate 4 0%Qc)
           [Qc_of_Z 1 / Qc_of_Z 4; Qc_of_Z 1 / Qc_of_Z 2]%Qc);
    [simpl; lia | simpl; lia | simpl; lia | reflexivity | reflexivity
    | reflexivity | reflexivity | reflexivity | reflexivity | reflexivity
    | by vm_compute | by vm_compute].
Defined.
